(** * A compiler pipeline for an expression language: renaming, code
      generation, register allocation and the abstract machine.

    The development follows the Python sources of the repository:
    - [Expression.py]          the expression tree ([Expression]);
    - [Asm.py]                 instructions and the machine ([Asm]);
    - [ControlFlow/Visitor.py] renamer and generator with short-circuit
                               operators and conditionals ([ControlFlow]);
    - [CodeGenFunctions/Visitor.py] generator with anonymous functions
                               ([CodeGenFunctions]);
    - [CodeGenForRegisterAllocation/Visitor.py], [Optimizer.py], [driver.py]
                               renamer, generator and register allocator
                               ([RegAlloc]), and the evaluator
                               ([EvalVisitor]);
    - [CodeGenForRegisterAllocation/Lexer.py]
                               the lexer ([Lexer]).

    Python integers are [Z]; dictionaries are [gmap string _]; f-strings that
    print an integer use stdpp's decimal [pretty]; a raised exception is the
    [Raise] branch of the [result] monad. *)

From Stdlib Require Import Ascii String.
From stdpp Require Import base numbers strings pretty list gmap.

Open Scope string_scope.
Open Scope list_scope.
Open Scope Z_scope.

(** ** Exceptions and the result monad *)

Inductive exn : Type :=
| KeyError (key : string)          (* d[key] on a missing key *)
| ValueError (msg : string)        (* raise ValueError(...) *)
| NameError (name : string)        (* an undefined name is read by the machine *)
| AttributeError                   (* a visitor or instruction lacks the member *)
| ZeroDivisionError                (* x // 0 *)
| IndexError                       (* memory access outside the array *)
| TypeError                        (* the program counter is set to None *)
| OutOfFuel.                       (* the step budget of the model ran out *)

Inductive result (A : Type) : Type :=
| Ok (a : A)
| Raise (e : exn).
Arguments Ok {A} a.
Arguments Raise {A} e.

#[global] Instance result_ret : MRet result := @Ok.
#[global] Instance result_bind : MBind result := λ A B f m,
  match m with
  | Ok a => f a
  | Raise e => Raise e
  end.

Definition is_ok {A} (r : result A) : Prop := ∃ a, r = Ok a.
Definition raises {A} (r : result A) : Prop := ∃ e, r = Raise e.

(** ** Expressions (Expression.py) *)

(** The subclasses of [BinaryExpression] and [UnaryExpression] differ only in
    the visitor method their [accept] calls; the tag records which. *)
Inductive BinaryKind : Type :=
| KEql | KAdd | KAnd | KOr | KSub | KMul | KDiv | KLeq | KLth.

Inductive UnaryKind : Type :=
| KNeg | KNot.

Inductive Expression : Type :=
| Var (identifier : string)
| Bln (bln : bool)
| Num (num : Z)
| BinaryExpression (kind : BinaryKind) (left right : Expression)
| UnaryExpression (kind : UnaryKind) (exp : Expression)
| Let (identifier : string) (exp_def exp_body : Expression)
| IfThenElse (cond e0 e1 : Expression)
| Fn (formal : string) (body : Expression)
| App (function actual : Expression).

Definition Eql := BinaryExpression KEql.
Definition Add := BinaryExpression KAdd.
Definition And := BinaryExpression KAnd.
Definition Or := BinaryExpression KOr.
Definition Sub := BinaryExpression KSub.
Definition Mul := BinaryExpression KMul.
Definition Div := BinaryExpression KDiv.
Definition Leq := BinaryExpression KLeq.
Definition Lth := BinaryExpression KLth.
Definition Neg := UnaryExpression KNeg.
Definition Not := UnaryExpression KNot.

(** A position in a tree: the list of child indices from the root. *)
Definition path := list nat.

Fixpoint subexp (e : Expression) (p : path) {struct p} : option Expression :=
  match p with
  | [] => Some e
  | i :: p' =>
    match e, i with
    | BinaryExpression _ l _, 0%nat => subexp l p'
    | BinaryExpression _ _ r, 1%nat => subexp r p'
    | UnaryExpression _ a, 0%nat => subexp a p'
    | Let _ d _, 0%nat => subexp d p'
    | Let _ _ b, 1%nat => subexp b p'
    | IfThenElse c _ _, 0%nat => subexp c p'
    | IfThenElse _ a _, 1%nat => subexp a p'
    | IfThenElse _ _ b, 2%nat => subexp b p'
    | Fn _ b, 0%nat => subexp b p'
    | App f _, 0%nat => subexp f p'
    | App _ a, 1%nat => subexp a p'
    | _, _ => None
    end
  end.

(** The names carried by the [Let] nodes of a tree, in visiting order. *)
Fixpoint let_names (e : Expression) : list string :=
  match e with
  | Var _ | Bln _ | Num _ => []
  | BinaryExpression _ l r => let_names l ++ let_names r
  | UnaryExpression _ a => let_names a
  | Let x d b => x :: let_names d ++ let_names b
  | IfThenElse c a b => let_names c ++ let_names a ++ let_names b
  | Fn _ b => let_names b
  | App f a => let_names f ++ let_names a
  end.

(** The binding a reference resolves to, following the scoping rule of the
    language: walking from the root to the reference at [p], the innermost
    [Let] of name [x] whose BODY contains the reference, or the innermost [Fn]
    of formal [x] around it.  The result is the position of that binder;
    [None] when there is none. *)
Fixpoint binder_of (e : Expression) (p : path) (x : string) {struct p}
    : option path :=
  match p with
  | [] => None
  | i :: p' =>
    match e, i with
    | BinaryExpression _ l _, 0%nat => cons 0%nat <$> binder_of l p' x
    | BinaryExpression _ _ r, 1%nat => cons 1%nat <$> binder_of r p' x
    | UnaryExpression _ a, 0%nat => cons 0%nat <$> binder_of a p' x
    | Let _ d _, 0%nat => cons 0%nat <$> binder_of d p' x
    | Let y _ b, 1%nat =>
      match binder_of b p' x with
      | Some q => Some (1%nat :: q)
      | None => if decide (x = y) then Some [] else None
      end
    | IfThenElse c _ _, 0%nat => cons 0%nat <$> binder_of c p' x
    | IfThenElse _ a _, 1%nat => cons 1%nat <$> binder_of a p' x
    | IfThenElse _ _ b, 2%nat => cons 2%nat <$> binder_of b p' x
    | Fn y b, 0%nat =>
      match binder_of b p' x with
      | Some q => Some (0%nat :: q)
      | None => if decide (x = y) then Some [] else None
      end
    | App f _, 0%nat => cons 0%nat <$> binder_of f p' x
    | App _ a, 1%nat => cons 1%nat <$> binder_of a p' x
    | _, _ => None
    end
  end.

(** The name carried by the binder ([Let] or [Fn]) at position [q]. *)
Definition binder_name_at (e : Expression) (q : path) : option string :=
  match subexp e q with
  | Some (Let x _ _) => Some x
  | Some (Fn x _) => Some x
  | _ => None
  end.

(** ** Instructions and the abstract machine (Asm.py) *)

Module Asm.

(** Modelled from the spec: the instruction classes of Asm.py, which is not
    among the sources.  Section 3 of the specification lists the variants
    [Addi], [Xori], [Slti] (immediate forms), [Add], [Sub], [Mul], [Div],
    [Xor], [Slt] (register forms), [Lw(base, offset, dst)],
    [Sw(base, offset, src)], [Beq(r1, r2, target)], [Jal(dst, target)] and
    [Jalr(dst, src_reg, offset)]; the field names are the ones Optimizer.py
    reads ([rd], [rs1], [rs2], [imm], [rs], [reg], [offset], [lab]).  A target
    is [None] until [set_target] patches it.  [Other] stands for an
    instruction object of any further class, known only by its opcode. *)
Inductive Inst : Type :=
| Addi (rd rs1 : string) (imm : Z)
| Xori (rd rs1 : string) (imm : Z)
| Slti (rd rs1 : string) (imm : Z)
| Add (rd rs1 rs2 : string)
| Sub (rd rs1 rs2 : string)
| Mul (rd rs1 rs2 : string)
| Div (rd rs1 rs2 : string)
| Xor (rd rs1 rs2 : string)
| Slt (rd rs1 rs2 : string)
| Lw (rs1 : string) (offset : Z) (reg : string)
| Sw (rs1 : string) (offset : Z) (reg : string)
| Beq (rs1 rs2 : string) (lab : option Z)
| Jal (rd : string) (lab : option Z)
| Jalr (rd rs : string) (offset : Z)
| Other (opcode : string).

Definition get_opcode (i : Inst) : string :=
  match i with
  | Addi _ _ _ => "addi" | Xori _ _ _ => "xori" | Slti _ _ _ => "slti"
  | Add _ _ _ => "add" | Sub _ _ _ => "sub" | Mul _ _ _ => "mul"
  | Div _ _ _ => "div" | Xor _ _ _ => "xor" | Slt _ _ _ => "slt"
  | Lw _ _ _ => "lw" | Sw _ _ _ => "sw" | Beq _ _ _ => "beq"
  | Jal _ _ => "jal" | Jalr _ _ _ => "jalr"
  | Other op => op
  end.

(** [inst.set_target(lab)] of the branch and jump classes. *)
Definition set_target (i : Inst) (lab : Z) : Inst :=
  match i with
  | Beq rs1 rs2 _ => Beq rs1 rs2 (Some lab)
  | Jal rd _ => Jal rd (Some lab)
  | _ => i
  end.

(** Modelled from the spec: the [Program] class of Asm.py (section 3):
    a flat memory array of fixed size, a table from names to values, the
    instruction list and the program counter. *)
Record Program : Type := mkProgram {
  mem : list Z;
  env : gmap string Z;
  insts : list Inst;
  pc : Z
}.

(** Modelled from the spec: the register file of section 3 starts with the
    stack pointer [sp] holding the memory size; [x0] is hard-wired to zero. *)
Definition initial_regs (memory_size : nat) (e : gmap string Z) : gmap string Z :=
  <["sp" := Z.of_nat memory_size]> e.

(** [Program(memory_size, env, insts)]. *)
Definition new_Program (memory_size : nat) (e : gmap string Z) (l : list Inst) : Program :=
  {| mem := replicate memory_size 0; env := initial_regs memory_size e;
     insts := l; pc := 0 |}.

(** [prog.reset_env()]: the variable table goes back to the bare registers. *)
Definition reset_env (p : Program) : Program :=
  {| mem := mem p; env := initial_regs (length (mem p)) ∅; insts := insts p; pc := pc p |}.

Definition get_pc (p : Program) : Z := pc p.
Definition set_pc (p : Program) (n : Z) : Program :=
  {| mem := mem p; env := env p; insts := insts p; pc := n |}.
Definition get_insts (p : Program) : list Inst := insts p.
Definition set_insts (p : Program) (l : list Inst) : Program :=
  {| mem := mem p; env := env p; insts := l; pc := pc p |}.
Definition add_inst (p : Program) (i : Inst) : Program :=
  set_insts p (insts p ++ [i]).
Definition get_number_of_instructions (p : Program) : Z :=
  Z.of_nat (length (insts p)).

(** Modelled from the spec: [x0] "always evaluates to zero"; reading any
    other name that holds no value is an error. *)
Definition get_val (p : Program) (name : string) : result Z :=
  if decide (name = "x0") then Ok 0
  else match env p !! name with
       | Some v => Ok v
       | None => Raise (NameError name)
       end.

(** Modelled from the spec: [x0] is "never written". *)
Definition set_val (p : Program) (name : string) (v : Z) : Program :=
  if decide (name = "x0") then p
  else {| mem := mem p; env := <[name := v]> (env p); insts := insts p; pc := pc p |}.

(** Modelled from the spec: memory is "a flat memory array indexed by integer
    address", of the size fixed at construction. *)
Definition get_mem (p : Program) (addr : Z) : result Z :=
  if decide (0 ≤ addr < Z.of_nat (length (mem p))) then
    match mem p !! Z.to_nat addr with
    | Some v => Ok v
    | None => Raise IndexError
    end
  else Raise IndexError.

Definition set_mem (p : Program) (addr : Z) (v : Z) : result Program :=
  if decide (0 ≤ addr < Z.of_nat (length (mem p))) then
    Ok {| mem := <[Z.to_nat addr := v]> (mem p); env := env p;
          insts := insts p; pc := pc p |}
  else Raise IndexError.

Definition next (p : Program) : Program := set_pc p (pc p + 1).

Definition jump (p : Program) (lab : option Z) : result Program :=
  match lab with
  | Some l => Ok (set_pc p l)
  | None => Raise TypeError
  end.

Definition bool_to_Z (b : bool) : Z := if b then 1 else 0.

(** Modelled from the spec: the effect of one instruction (sections 3, 4.2,
    4.4 and 8): the destination receives the result; [Slt]/[Slti] give 1 or
    0; [Div] is floor division and faults on a zero divisor; a taken branch
    or a jump sets the program counter to the target, every other
    instruction advances it by one; [Jal]/[Jalr] save the address of the
    following instruction in [rd]. *)
Definition exec (i : Inst) (p : Program) : result Program :=
  match i with
  | Addi rd rs1 imm => a ← get_val p rs1; Ok (next (set_val p rd (a + imm)))
  | Xori rd rs1 imm => a ← get_val p rs1; Ok (next (set_val p rd (Z.lxor a imm)))
  | Slti rd rs1 imm => a ← get_val p rs1; Ok (next (set_val p rd (bool_to_Z (a <? imm))))
  | Add rd rs1 rs2 =>
    a ← get_val p rs1; b ← get_val p rs2; Ok (next (set_val p rd (a + b)))
  | Sub rd rs1 rs2 =>
    a ← get_val p rs1; b ← get_val p rs2; Ok (next (set_val p rd (a - b)))
  | Mul rd rs1 rs2 =>
    a ← get_val p rs1; b ← get_val p rs2; Ok (next (set_val p rd (a * b)))
  | Div rd rs1 rs2 =>
    a ← get_val p rs1; b ← get_val p rs2;
    if decide (b = 0) then Raise ZeroDivisionError
    else Ok (next (set_val p rd (a `div` b)))
  | Xor rd rs1 rs2 =>
    a ← get_val p rs1; b ← get_val p rs2; Ok (next (set_val p rd (Z.lxor a b)))
  | Slt rd rs1 rs2 =>
    a ← get_val p rs1; b ← get_val p rs2;
    Ok (next (set_val p rd (bool_to_Z (a <? b))))
  | Lw rs1 offset reg =>
    a ← get_val p rs1; v ← get_mem p (offset + a); Ok (next (set_val p reg v))
  | Sw rs1 offset reg =>
    a ← get_val p rs1; v ← get_val p reg; p' ← set_mem p (offset + a) v; Ok (next p')
  | Beq rs1 rs2 lab =>
    a ← get_val p rs1; b ← get_val p rs2;
    if decide (a = b) then jump p lab else Ok (next p)
  | Jal rd lab => jump (set_val p rd (pc p + 1)) lab
  | Jalr rd rs offset =>
    a ← get_val p rs; Ok (set_pc (set_val p rd (pc p + 1)) (a + offset))
  | Other _ => Raise AttributeError
  end.

(** The instruction at the program counter, if any. *)
Definition get_inst (p : Program) : option Inst :=
  if decide (0 ≤ pc p) then insts p !! Z.to_nat (pc p) else None.

(** [prog.eval()]: execute until the program counter leaves the instruction
    list.  The loop is unbounded in the source; [fuel] bounds it here and
    exhausting it is reported as [OutOfFuel]. *)
Fixpoint eval (fuel : nat) (p : Program) : result Program :=
  match get_inst p with
  | None => Ok p
  | Some i =>
    match fuel with
    | O => Raise OutOfFuel
    | S n => p' ← exec i p; eval n p'
    end
  end.

End Asm.

(** ** CodeGenForRegisterAllocation: Visitor.py, Optimizer.py, driver.py *)

Module RegAlloc.

(** *** RenameVisitor

    [visit_let] builds the fresh name from [id(exp)], the identity of the
    [Let] object.  [ids] gives the identity of the node at each position
    below the visited one; distinct objects have distinct identities. *)
Definition child (ids : path → N) (i : nat) : path → N := λ p, ids (i :: p).

Definition fresh_name (identifier : string) (n : N) : string :=
  identifier +:+ "_" +:+ pretty n.

Fixpoint rename (ids : path → N) (e : Expression)
    (name_map : gmap string string) : result Expression :=
  match e with
  | Var x =>
    match name_map !! x with
    | Some y => Ok (Var y)
    | None => Raise (ValueError ("Variavel inexistente " +:+ x))
    end
  | Bln _ | Num _ => Ok e
  | BinaryExpression KAnd _ _ | BinaryExpression KOr _ _ => Raise AttributeError
  | BinaryExpression k l r =>
    l' ← rename (child ids 0) l name_map;
    r' ← rename (child ids 1) r name_map;
    Ok (BinaryExpression k l' r')
  | UnaryExpression k a =>
    a' ← rename (child ids 0) a name_map;
    Ok (UnaryExpression k a')
  | Let x d b =>
    let fresh := fresh_name x (ids []) in
    let new_map := <[x := fresh]> name_map in
    d' ← rename (child ids 0) d name_map;
    b' ← rename (child ids 1) b new_map;
    Ok (Let fresh d' b')
  | IfThenElse _ _ _ | Fn _ _ | App _ _ => Raise AttributeError
  end.

(** *** GenVisitor *)

Record GenVisitor : Type := mkGen { next_var_counter : nat }.

Definition next_var_name (g : GenVisitor) : string * GenVisitor :=
  let n := S (next_var_counter g) in
  ("v" +:+ pretty n, {| next_var_counter := n |}).

(** The instruction a binary node ends with, given the names of its
    operands; [visit_eql] and [visit_leq] need further temporaries. *)
Definition visit_binary (k : BinaryKind) (left_var right_var : string)
    (g : GenVisitor) (prog : Asm.Program) : result (string * GenVisitor * Asm.Program) :=
  match k with
  | KEql =>
    let '(diff, g) := next_var_name g in
    let prog := Asm.add_inst prog (Asm.Sub diff left_var right_var) in
    let '(tmp, g) := next_var_name g in
    let prog := Asm.add_inst prog (Asm.Slti tmp diff 1) in
    let '(tmp2, g) := next_var_name g in
    let prog := Asm.add_inst prog (Asm.Slti tmp2 diff 0) in
    let '(res, g) := next_var_name g in
    let prog := Asm.add_inst prog (Asm.Sub res tmp tmp2) in
    Ok (res, g, prog)
  | KAdd =>
    let '(var, g) := next_var_name g in
    Ok (var, g, Asm.add_inst prog (Asm.Add var left_var right_var))
  | KSub =>
    let '(var, g) := next_var_name g in
    Ok (var, g, Asm.add_inst prog (Asm.Sub var left_var right_var))
  | KMul =>
    let '(var, g) := next_var_name g in
    Ok (var, g, Asm.add_inst prog (Asm.Mul var left_var right_var))
  | KDiv =>
    let '(var, g) := next_var_name g in
    Ok (var, g, Asm.add_inst prog (Asm.Div var left_var right_var))
  | KLeq =>
    let '(tmp, g) := next_var_name g in
    let prog := Asm.add_inst prog (Asm.Slt tmp right_var left_var) in
    let '(res, g) := next_var_name g in
    let prog := Asm.add_inst prog (Asm.Xori res tmp 1) in
    Ok (res, g, prog)
  | KLth =>
    let '(var, g) := next_var_name g in
    Ok (var, g, Asm.add_inst prog (Asm.Slt var left_var right_var))
  | KAnd | KOr => Raise AttributeError
  end.

Definition visit_unary (k : UnaryKind) (val : string)
    (g : GenVisitor) (prog : Asm.Program) : string * GenVisitor * Asm.Program :=
  match k with
  | KNeg =>
    let '(var, g) := next_var_name g in
    (var, g, Asm.add_inst prog (Asm.Sub var "x0" val))
  | KNot =>
    let '(tmp, g) := next_var_name g in
    let prog := Asm.add_inst prog (Asm.Slt tmp "x0" val) in
    let '(tmp2, g) := next_var_name g in
    let prog := Asm.add_inst prog (Asm.Slt tmp2 val "x0") in
    let '(norm, g) := next_var_name g in
    let prog := Asm.add_inst prog (Asm.Add norm tmp tmp2) in
    let '(var, g) := next_var_name g in
    let prog := Asm.add_inst prog (Asm.Xori var norm 1) in
    (var, g, prog)
  end.

Fixpoint gen (e : Expression) (g : GenVisitor) (prog : Asm.Program)
    : result (string * GenVisitor * Asm.Program) :=
  match e with
  | Var x => Ok (x, g, prog)
  | Bln b =>
    let '(var, g) := next_var_name g in
    let val := if b then 1 else 0 in
    Ok (var, g, Asm.add_inst prog (Asm.Addi var "x0" val))
  | Num n =>
    let '(var, g) := next_var_name g in
    Ok (var, g, Asm.add_inst prog (Asm.Addi var "x0" n))
  | BinaryExpression KAnd _ _ | BinaryExpression KOr _ _ => Raise AttributeError
  | BinaryExpression k l r =>
    '(left_var, g, prog) ← gen l g prog;
    '(right_var, g, prog) ← gen r g prog;
    visit_binary k left_var right_var g prog
  | UnaryExpression k a =>
    '(val, g, prog) ← gen a g prog;
    Ok (visit_unary k val g prog)
  | Let x d b =>
    '(var_exp_def, g, prog) ← gen d g prog;
    let prog := Asm.add_inst prog (Asm.Add x "x0" var_exp_def) in
    let '(var, g) := next_var_name g in
    '(var_exp_body, g, prog) ← gen b g prog;
    Ok (var, g, Asm.add_inst prog (Asm.Add var "x0" var_exp_body))
  | IfThenElse _ _ _ | Fn _ _ | App _ _ => Raise AttributeError
  end.

(** The pattern of the doctests: generate on a fresh program, run it to the
    end and read the result variable. *)
Definition compile_and_run (memory_size fuel : nat) (e : Expression) : result Z :=
  '(v, _, prog) ← gen e {| next_var_counter := 0 |}
                    (Asm.new_Program memory_size ∅ []);
  prog ← Asm.eval fuel prog;
  Asm.get_val prog v.

(** *** RegAllocator (Optimizer.py) *)

Definition DEFAULT_REGS : list string := ["x0"; "sp"; "ra"].

Record RegAllocator : Type := mkRA {
  memory_counter : Z;
  var_to_mem : gmap string Z;
  var_to_reg : gmap string string
}.

Definition new_RegAllocator : RegAllocator :=
  {| memory_counter := 0; var_to_mem := ∅; var_to_reg := ∅ |}.

Definition _ensure_memory (o : RegAllocator) (var : string) : RegAllocator :=
  if decide ((var ∉ DEFAULT_REGS) ∧ (var_to_mem o !! var) = None) then
    let slot := memory_counter o + 1 in
    {| memory_counter := slot; var_to_mem := <[var := slot]> (var_to_mem o);
       var_to_reg := var_to_reg o |}
  else o.

Definition get_val (o : RegAllocator) (prog : Asm.Program) (var : string) : result Z :=
  match var_to_mem o !! var with
  | None => Raise (ValueError ("Variable " +:+ var +:+ " not declared in memory"))
  | Some slot => Asm.get_mem prog slot
  end.

Definition _load (o : RegAllocator) (var target_reg : string) (insts : list Asm.Inst)
    : result (string * list Asm.Inst) :=
  if decide (var ∈ DEFAULT_REGS) then Ok (var, insts)
  else match var_to_mem o !! var with
       | Some slot => Ok (target_reg, insts ++ [Asm.Lw "x0" slot target_reg])
       | None => Raise (KeyError var)
       end.

Definition _store (o : RegAllocator) (var source_reg : string) (insts : list Asm.Inst)
    : result (list Asm.Inst) :=
  if decide (var ∉ DEFAULT_REGS) then
    match var_to_mem o !! var with
    | Some slot => Ok (insts ++ [Asm.Sw "x0" slot source_reg])
    | None => Raise (KeyError var)
    end
  else Ok insts.

(** The prologue shared by the handlers that define [rd]: give it a slot,
    pick the destination register and note it in [var_to_reg]. *)
Definition dest_of (o : RegAllocator) (rd : string) : string * RegAllocator :=
  let o := _ensure_memory o rd in
  if decide (rd ∉ DEFAULT_REGS) then
    ("a0", {| memory_counter := memory_counter o; var_to_mem := var_to_mem o;
              var_to_reg := <[rd := "a0"]> (var_to_reg o) |})
  else (rd, o).

Definition handle_jump (o : RegAllocator) (prog_pc : Z) (inst : Asm.Inst)
    : result (list Asm.Inst * RegAllocator) :=
  match inst with
  | Asm.Jal rd _ | Asm.Jalr rd _ _ =>
    let '(dest_reg, o) := dest_of o rd in
    '(dest_reg, insts) ←
      (if decide (rd ∉ DEFAULT_REGS) then
         match var_to_mem o !! rd with
         | Some slot =>
           Ok ("x0", [Asm.Addi "a0" "x0" prog_pc; Asm.Sw "x0" slot "a0"])
         | None => Raise (KeyError rd)
         end
       else Ok (dest_reg, []));
    match inst with
    | Asm.Jal _ lab => Ok (insts ++ [Asm.Jal dest_reg lab], o)
    | Asm.Jalr _ rs offset =>
      '(src_reg, insts) ← _load o rs "a1" insts;
      Ok (insts ++ [Asm.Jalr dest_reg src_reg offset], o)
    | _ => Raise AttributeError
    end
  | _ => Raise AttributeError
  end.

Definition handle_branch (o : RegAllocator) (inst : Asm.Inst)
    : result (list Asm.Inst * RegAllocator) :=
  match inst with
  | Asm.Beq rs1 rs2 lab =>
    '(r1, insts) ← _load o rs1 "a0" [];
    '(r2, insts) ← _load o rs2 "a1" insts;
    Ok (insts ++ [Asm.Beq r1 r2 lab], o)
  | _ => Raise AttributeError
  end.

Definition handle_memory_op (o : RegAllocator) (inst : Asm.Inst)
    : result (list Asm.Inst * RegAllocator) :=
  match inst with
  | Asm.Lw rs1 offset reg =>
    let '(dest_reg, o) := dest_of o reg in
    '(base_reg, insts) ← _load o rs1 "a1" [];
    insts ← _store o reg dest_reg (insts ++ [Asm.Lw base_reg offset dest_reg]);
    Ok (insts, o)
  | Asm.Sw rs1 offset reg =>
    '(val_reg, insts) ← _load o reg "a0" [];
    '(base_reg, insts) ← _load o rs1 "a1" insts;
    Ok (insts ++ [Asm.Sw base_reg offset val_reg], o)
  | _ => Raise AttributeError
  end.

Definition bin_immediate (o : RegAllocator)
    (op_class : string → string → Z → Asm.Inst) (rd rs1 : string) (imm : Z)
    : result (list Asm.Inst * RegAllocator) :=
  let '(dest_reg, o) := dest_of o rd in
  '(r1, insts) ← _load o rs1 "a0" [];
  insts ← _store o rd dest_reg (insts ++ [op_class dest_reg r1 imm]);
  Ok (insts, o).

Definition handle_bin_immediate (o : RegAllocator) (inst : Asm.Inst)
    : result (list Asm.Inst * RegAllocator) :=
  match inst with
  | Asm.Addi rd rs1 imm => bin_immediate o Asm.Addi rd rs1 imm
  | Asm.Xori rd rs1 imm => bin_immediate o Asm.Xori rd rs1 imm
  | Asm.Slti rd rs1 imm => bin_immediate o Asm.Slti rd rs1 imm
  | _ => Raise AttributeError
  end.

Definition bin_standard (o : RegAllocator)
    (op_class : string → string → string → Asm.Inst) (rd rs1 rs2 : string)
    : result (list Asm.Inst * RegAllocator) :=
  let '(dest_reg, o) := dest_of o rd in
  '(r1, insts) ← _load o rs1 "a0" [];
  '(r2, insts) ← _load o rs2 "a1" insts;
  insts ← _store o rd dest_reg (insts ++ [op_class dest_reg r1 r2]);
  Ok (insts, o).

Definition handle_bin_standard (o : RegAllocator) (inst : Asm.Inst)
    : result (list Asm.Inst * RegAllocator) :=
  match inst with
  | Asm.Add rd rs1 rs2 => bin_standard o Asm.Add rd rs1 rs2
  | Asm.Sub rd rs1 rs2 => bin_standard o Asm.Sub rd rs1 rs2
  | Asm.Mul rd rs1 rs2 => bin_standard o Asm.Mul rd rs1 rs2
  | Asm.Div rd rs1 rs2 => bin_standard o Asm.Div rd rs1 rs2
  | Asm.Xor rd rs1 rs2 => bin_standard o Asm.Xor rd rs1 rs2
  | Asm.Slt rd rs1 rs2 => bin_standard o Asm.Slt rd rs1 rs2
  | _ => Raise AttributeError
  end.

Definition handler : Type :=
  RegAllocator → Z → Asm.Inst → result (list Asm.Inst * RegAllocator).

(** [self.op_handlers.get(opcode)]. *)
Definition op_handlers (opcode : string) : option handler :=
  if decide (opcode ∈ ["addi"; "xori"; "slti"]) then
    Some (λ o _ i, handle_bin_immediate o i)
  else if decide (opcode ∈ ["add"; "sub"; "mul"; "div"; "xor"; "slt"]) then
    Some (λ o _ i, handle_bin_standard o i)
  else if decide (opcode ∈ ["jal"; "jalr"]) then Some handle_jump
  else if decide (opcode = "beq") then Some (λ o _ i, handle_branch o i)
  else if decide (opcode ∈ ["lw"; "sw"]) then Some (λ o _ i, handle_memory_op o i)
  else None.

(** The loop of [optimize]; [prog_pc] is what [self.prog.get_pc()] returns
    while the pass runs. *)
Fixpoint optimize_loop (o : RegAllocator) (prog_pc : Z) (insts : list Asm.Inst)
    (new_insts : list Asm.Inst) : result (list Asm.Inst * RegAllocator) :=
  match insts with
  | [] => Ok (new_insts, o)
  | inst :: rest =>
    match op_handlers (Asm.get_opcode inst) with
    | Some h =>
      '(out, o) ← h o prog_pc inst;
      optimize_loop o prog_pc rest (new_insts ++ out)
    | None => optimize_loop o prog_pc rest new_insts
    end
  end.

Definition optimize (o : RegAllocator) (prog : Asm.Program)
    : result (RegAllocator * Asm.Program) :=
  '(new_insts, o) ← optimize_loop o (Asm.get_pc prog) (Asm.get_insts prog) [];
  Ok (o, Asm.set_insts prog new_insts).

(** *** driver.py *)

Definition rename_variables (ids : path → N) (exp : Expression) : result Expression :=
  rename ids exp ∅.

Definition perform_register_allocation (prog : Asm.Program)
    : result (RegAllocator * Asm.Program) :=
  optimize new_RegAllocator prog.

(** The body of [__main__] after parsing, with the memory size as a
    parameter (the driver passes 1000): rename, generate, allocate, reset the
    variable table, run, and read the answer through the allocator. *)
Definition main (memory_size : nat) (fuel : nat) (ids : path → N) (exp : Expression)
    : result Z :=
  exp ← rename_variables ids exp;
  '(var_answer, _, prog) ← gen exp {| next_var_counter := 0 |}
                              (Asm.new_Program memory_size ∅ []);
  '(opt, prog) ← perform_register_allocation prog;
  prog ← Asm.eval fuel (Asm.reset_env prog);
  get_val opt prog var_answer.

(** The same program run before allocation, as the doctests of Visitor.py
    do: generate, run, and read the answer from the variable table. *)
Definition main_symbolic (memory_size : nat) (fuel : nat) (ids : path → N)
    (exp : Expression) : result Z :=
  exp ← rename_variables ids exp;
  '(var_answer, _, prog) ← gen exp {| next_var_counter := 0 |}
                              (Asm.new_Program memory_size ∅ []);
  prog ← Asm.eval fuel prog;
  Asm.get_val prog var_answer.

End RegAlloc.

(** ** ControlFlow: Visitor.py *)

Module ControlFlow.

(** *** RenameVisitor: fresh names come from [self.counter]. *)
Definition fresh_name (identifier : string) (n : nat) : string :=
  identifier +:+ "_" +:+ pretty n.

Fixpoint rename (e : Expression) (name_map : gmap string string) (counter : nat)
    : result (Expression * nat) :=
  match e with
  | Var x =>
    match name_map !! x with
    | Some y => Ok (Var y, counter)
    | None => Ok (Var x, counter)
    end
  | Bln _ | Num _ => Ok (e, counter)
  | BinaryExpression k l r =>
    '(l', counter) ← rename l name_map counter;
    '(r', counter) ← rename r name_map counter;
    Ok (BinaryExpression k l' r', counter)
  | UnaryExpression k a =>
    '(a', counter) ← rename a name_map counter;
    Ok (UnaryExpression k a', counter)
  | Let x d b =>
    '(d', counter) ← rename d name_map counter;
    let new_name := fresh_name x counter in
    let counter := S counter in
    let new_map := <[x := new_name]> name_map in
    '(b', counter) ← rename b new_map counter;
    Ok (Let new_name d' b', counter)
  | IfThenElse c a b =>
    '(c', counter) ← rename c name_map counter;
    '(a', counter) ← rename a name_map counter;
    '(b', counter) ← rename b name_map counter;
    Ok (IfThenElse c' a' b', counter)
  | Fn _ _ | App _ _ => Raise AttributeError
  end.

(** *** GenVisitor *)

Record GenVisitor : Type := mkGen { next_var_counter : nat }.

Definition next_var_name (g : GenVisitor) : string * GenVisitor :=
  let n := S (next_var_counter g) in
  ("v" +:+ pretty n, {| next_var_counter := n |}).

(** [inst.set_target(lab)] on the instruction object that was appended at
    index [idx]: the list holds that same object, so the patch shows there. *)
Definition set_target_at (prog : Asm.Program) (idx : nat) (lab : Z) : Asm.Program :=
  Asm.set_insts prog (alter (λ i, Asm.set_target i lab) idx (Asm.insts prog)).

(** The instructions an arithmetic or comparison node ends with, given the
    names of its operands.  [KAnd] and [KOr] never reach this function: [gen]
    handles them itself. *)
Definition visit_binary (k : BinaryKind) (left_var right_var : string)
    (g : GenVisitor) (prog : Asm.Program) : result (string * GenVisitor * Asm.Program) :=
  match k with
  | KEql =>
    let '(diff, g) := next_var_name g in
    let prog := Asm.add_inst prog (Asm.Sub diff left_var right_var) in
    let '(tmp, g) := next_var_name g in
    let prog := Asm.add_inst prog (Asm.Slti tmp diff 1) in
    let '(tmp2, g) := next_var_name g in
    let prog := Asm.add_inst prog (Asm.Slti tmp2 diff 0) in
    let '(res, g) := next_var_name g in
    let prog := Asm.add_inst prog (Asm.Sub res tmp tmp2) in
    Ok (res, g, prog)
  | KAdd =>
    let '(var, g) := next_var_name g in
    Ok (var, g, Asm.add_inst prog (Asm.Add var left_var right_var))
  | KSub =>
    let '(var, g) := next_var_name g in
    Ok (var, g, Asm.add_inst prog (Asm.Sub var left_var right_var))
  | KMul =>
    let '(var, g) := next_var_name g in
    Ok (var, g, Asm.add_inst prog (Asm.Mul var left_var right_var))
  | KDiv =>
    let '(var, g) := next_var_name g in
    Ok (var, g, Asm.add_inst prog (Asm.Div var left_var right_var))
  | KLeq =>
    let '(tmp, g) := next_var_name g in
    let prog := Asm.add_inst prog (Asm.Slt tmp right_var left_var) in
    let '(res, g) := next_var_name g in
    let prog := Asm.add_inst prog (Asm.Xori res tmp 1) in
    Ok (res, g, prog)
  | KLth =>
    let '(var, g) := next_var_name g in
    Ok (var, g, Asm.add_inst prog (Asm.Slt var left_var right_var))
  | KAnd | KOr => Raise AttributeError
  end.

Definition visit_unary (k : UnaryKind) (val : string)
    (g : GenVisitor) (prog : Asm.Program) : string * GenVisitor * Asm.Program :=
  match k with
  | KNeg =>
    let '(var, g) := next_var_name g in
    (var, g, Asm.add_inst prog (Asm.Sub var "x0" val))
  | KNot =>
    let '(tmp, g) := next_var_name g in
    let prog := Asm.add_inst prog (Asm.Slt tmp "x0" val) in
    let '(tmp2, g) := next_var_name g in
    let prog := Asm.add_inst prog (Asm.Slt tmp2 val "x0") in
    let '(norm, g) := next_var_name g in
    let prog := Asm.add_inst prog (Asm.Add norm tmp tmp2) in
    let '(var, g) := next_var_name g in
    let prog := Asm.add_inst prog (Asm.Xori var norm 1) in
    (var, g, prog)
  end.

(** [fuel] bounds the [prog.eval()] that [visit_let] performs. *)
Fixpoint gen (fuel : nat) (e : Expression) (g : GenVisitor) (prog : Asm.Program)
    : result (string * GenVisitor * Asm.Program) :=
  match e with
  | Var x => Ok (x, g, prog)
  | Bln b =>
    let '(var, g) := next_var_name g in
    let val := if b then 1 else 0 in
    Ok (var, g, Asm.add_inst prog (Asm.Addi var "x0" val))
  | Num n =>
    let '(var, g) := next_var_name g in
    Ok (var, g, Asm.add_inst prog (Asm.Addi var "x0" n))
  | BinaryExpression KAnd l r =>
    '(left_var, g, prog) ← gen fuel l g prog;
    let '(result_var, g) := next_var_name g in
    let beq := length (Asm.insts prog) in
    let prog := Asm.add_inst prog (Asm.Beq left_var "x0" None) in
    '(right_var, g, prog) ← gen fuel r g prog;
    let prog := Asm.add_inst prog (Asm.Add result_var right_var "x0") in
    let jal := length (Asm.insts prog) in
    let prog := Asm.add_inst prog (Asm.Jal "x0" None) in
    let prog := set_target_at prog beq (Asm.get_number_of_instructions prog) in
    let prog := Asm.add_inst prog (Asm.Addi result_var "x0" 0) in
    let prog := set_target_at prog jal (Asm.get_number_of_instructions prog) in
    Ok (result_var, g, prog)
  | BinaryExpression KOr l r =>
    '(left_var, g, prog) ← gen fuel l g prog;
    let '(result_var, g) := next_var_name g in
    let beq := length (Asm.insts prog) in
    let prog := Asm.add_inst prog (Asm.Beq left_var "x0" None) in
    let prog := Asm.add_inst prog (Asm.Addi result_var "x0" 1) in
    let jal := length (Asm.insts prog) in
    let prog := Asm.add_inst prog (Asm.Jal "x0" None) in
    let prog := set_target_at prog beq (Asm.get_number_of_instructions prog) in
    '(right_var, g, prog) ← gen fuel r g prog;
    let prog := Asm.add_inst prog (Asm.Add result_var right_var "x0") in
    let prog := set_target_at prog jal (Asm.get_number_of_instructions prog) in
    Ok (result_var, g, prog)
  | BinaryExpression k l r =>
    '(left_var, g, prog) ← gen fuel l g prog;
    '(right_var, g, prog) ← gen fuel r g prog;
    visit_binary k left_var right_var g prog
  | UnaryExpression k a =>
    '(val, g, prog) ← gen fuel a g prog;
    Ok (visit_unary k val g prog)
  | Let x d b =>
    '(val_var, g, prog) ← gen fuel d g prog;
    prog ← Asm.eval fuel prog;
    val ← Asm.get_val prog val_var;
    let prog := Asm.set_val prog x val in
    gen fuel b g prog
  | IfThenElse c a b =>
    '(cond_var, g, prog) ← gen fuel c g prog;
    let '(result_var, g) := next_var_name g in
    let beq := length (Asm.insts prog) in
    let prog := Asm.add_inst prog (Asm.Beq cond_var "x0" None) in
    '(then_var, g, prog) ← gen fuel a g prog;
    let prog := Asm.add_inst prog (Asm.Add result_var then_var "x0") in
    let jal := length (Asm.insts prog) in
    let prog := Asm.add_inst prog (Asm.Jal "x0" None) in
    let prog := set_target_at prog beq (Asm.get_number_of_instructions prog) in
    '(else_var, g, prog) ← gen fuel b g prog;
    let prog := Asm.add_inst prog (Asm.Add result_var else_var "x0") in
    let prog := set_target_at prog jal (Asm.get_number_of_instructions prog) in
    Ok (result_var, g, prog)
  | Fn _ _ | App _ _ => Raise AttributeError
  end.

(** [Program(env, insts)] of this variant takes no memory size. *)
Definition new_Program (e : gmap string Z) (l : list Asm.Inst) : Asm.Program :=
  Asm.new_Program 0 e l.

(** The doctest pattern: generate on a fresh program, run it to the end and
    read the result variable. *)
Definition compile_and_run (fuel : nat) (e : Expression) : result Z :=
  '(v, _, prog) ← gen fuel e {| next_var_counter := 0 |} (new_Program ∅ []);
  prog ← Asm.eval fuel prog;
  Asm.get_val prog v.

End ControlFlow.

(** ** CodeGenFunctions: Visitor.py *)

Module CodeGenFunctions.

(** *** RenameVisitor: [get_counter] increments before it returns. *)
Definition fresh_name (identifier : string) (n : nat) : string :=
  identifier +:+ "_" +:+ pretty n.

Fixpoint rename (e : Expression) (name_map : gmap string string) (var_counter : nat)
    : result (Expression * nat) :=
  match e with
  | Var x =>
    match name_map !! x with
    | Some y => Ok (Var y, var_counter)
    | None => Ok (Var x, var_counter)
    end
  | Bln _ | Num _ => Ok (e, var_counter)
  | BinaryExpression k l r =>
    '(l', var_counter) ← rename l name_map var_counter;
    '(r', var_counter) ← rename r name_map var_counter;
    Ok (BinaryExpression k l' r', var_counter)
  | UnaryExpression k a =>
    '(a', var_counter) ← rename a name_map var_counter;
    Ok (UnaryExpression k a', var_counter)
  | Let x d b =>
    let var_counter := S var_counter in
    let new_identifier := fresh_name x var_counter in
    let new_name_map := <[x := new_identifier]> name_map in
    '(d', var_counter) ← rename d name_map var_counter;
    '(b', var_counter) ← rename b new_name_map var_counter;
    Ok (Let new_identifier d' b', var_counter)
  | IfThenElse c a b =>
    '(c', var_counter) ← rename c name_map var_counter;
    '(a', var_counter) ← rename a name_map var_counter;
    '(b', var_counter) ← rename b name_map var_counter;
    Ok (IfThenElse c' a' b', var_counter)
  | Fn x b =>
    let var_counter := S var_counter in
    let new_identifier := fresh_name x var_counter in
    let new_name_map := <[x := new_identifier]> name_map in
    '(b', var_counter) ← rename b new_name_map var_counter;
    Ok (Fn new_identifier b', var_counter)
  | App f a =>
    '(f', var_counter) ← rename f name_map var_counter;
    '(a', var_counter) ← rename a name_map var_counter;
    Ok (App f' a', var_counter)
  end.

(** *** GenVisitor *)

Record GenVisitor : Type := mkGen {
  next_var_counter : nat;
  next_fn_counter : nat
}.

Definition next_var_name (g : GenVisitor) : string * GenVisitor :=
  let n := S (next_var_counter g) in
  ("v" +:+ pretty n, {| next_var_counter := n; next_fn_counter := next_fn_counter g |}).

Definition next_fn_value (g : GenVisitor) : string * GenVisitor :=
  let n := S (next_fn_counter g) in
  (pretty n, {| next_var_counter := next_var_counter g; next_fn_counter := n |}).

Definition set_target_at (prog : Asm.Program) (idx : nat) (lab : Z) : Asm.Program :=
  Asm.set_insts prog (alter (λ i, Asm.set_target i lab) idx (Asm.insts prog)).

(** The instructions an arithmetic or comparison node ends with.  [KAnd] and
    [KOr] never reach this function: [gen] handles them itself. *)
Definition visit_binary (k : BinaryKind) (left_var right_var : string)
    (g : GenVisitor) (prog : Asm.Program) : result (string * GenVisitor * Asm.Program) :=
  match k with
  | KEql =>
    let '(diff, g) := next_var_name g in
    let prog := Asm.add_inst prog (Asm.Sub diff left_var right_var) in
    let '(tmp, g) := next_var_name g in
    let prog := Asm.add_inst prog (Asm.Slti tmp diff 1) in
    let '(tmp2, g) := next_var_name g in
    let prog := Asm.add_inst prog (Asm.Slti tmp2 diff 0) in
    let '(res, g) := next_var_name g in
    let prog := Asm.add_inst prog (Asm.Sub res tmp tmp2) in
    Ok (res, g, prog)
  | KAdd =>
    let '(var, g) := next_var_name g in
    Ok (var, g, Asm.add_inst prog (Asm.Add var left_var right_var))
  | KSub =>
    let '(var, g) := next_var_name g in
    Ok (var, g, Asm.add_inst prog (Asm.Sub var left_var right_var))
  | KMul =>
    let '(var, g) := next_var_name g in
    Ok (var, g, Asm.add_inst prog (Asm.Mul var left_var right_var))
  | KDiv =>
    let '(var, g) := next_var_name g in
    Ok (var, g, Asm.add_inst prog (Asm.Div var left_var right_var))
  | KLeq =>
    let '(tmp, g) := next_var_name g in
    let prog := Asm.add_inst prog (Asm.Slt tmp right_var left_var) in
    let '(res, g) := next_var_name g in
    let prog := Asm.add_inst prog (Asm.Xori res tmp 1) in
    Ok (res, g, prog)
  | KLth =>
    let '(var, g) := next_var_name g in
    Ok (var, g, Asm.add_inst prog (Asm.Slt var left_var right_var))
  | KAnd | KOr => Raise AttributeError
  end.

Definition visit_unary (k : UnaryKind) (val : string)
    (g : GenVisitor) (prog : Asm.Program) : string * GenVisitor * Asm.Program :=
  match k with
  | KNeg =>
    let '(var, g) := next_var_name g in
    (var, g, Asm.add_inst prog (Asm.Sub var "x0" val))
  | KNot =>
    let '(tmp, g) := next_var_name g in
    let prog := Asm.add_inst prog (Asm.Slt tmp "x0" val) in
    let '(tmp2, g) := next_var_name g in
    let prog := Asm.add_inst prog (Asm.Slt tmp2 val "x0") in
    let '(norm, g) := next_var_name g in
    let prog := Asm.add_inst prog (Asm.Add norm tmp tmp2) in
    let '(var, g) := next_var_name g in
    let prog := Asm.add_inst prog (Asm.Xori var norm 1) in
    (var, g, prog)
  end.

Fixpoint gen (e : Expression) (g : GenVisitor) (prog : Asm.Program)
    : result (string * GenVisitor * Asm.Program) :=
  match e with
  | Var x => Ok (x, g, prog)
  | Bln b =>
    let '(var, g) := next_var_name g in
    let val := if b then 1 else 0 in
    Ok (var, g, Asm.add_inst prog (Asm.Addi var "x0" val))
  | Num n =>
    let '(var, g) := next_var_name g in
    Ok (var, g, Asm.add_inst prog (Asm.Addi var "x0" n))
  | BinaryExpression KAnd l r =>
    '(left_var, g, prog) ← gen l g prog;
    let '(result_var, g) := next_var_name g in
    let beq := length (Asm.insts prog) in
    let prog := Asm.add_inst prog (Asm.Beq left_var "x0" None) in
    '(right_var, g, prog) ← gen r g prog;
    let prog := Asm.add_inst prog (Asm.Add result_var right_var "x0") in
    let jal := length (Asm.insts prog) in
    let prog := Asm.add_inst prog (Asm.Jal "x0" None) in
    let prog := set_target_at prog beq (Asm.get_number_of_instructions prog) in
    let prog := Asm.add_inst prog (Asm.Addi result_var "x0" 0) in
    let prog := set_target_at prog jal (Asm.get_number_of_instructions prog) in
    Ok (result_var, g, prog)
  | BinaryExpression KOr l r =>
    '(left_var, g, prog) ← gen l g prog;
    let '(result_var, g) := next_var_name g in
    let beq := length (Asm.insts prog) in
    let prog := Asm.add_inst prog (Asm.Beq left_var "x0" None) in
    let prog := Asm.add_inst prog (Asm.Addi result_var "x0" 1) in
    let jal := length (Asm.insts prog) in
    let prog := Asm.add_inst prog (Asm.Jal "x0" None) in
    let prog := set_target_at prog beq (Asm.get_number_of_instructions prog) in
    '(right_var, g, prog) ← gen r g prog;
    let prog := Asm.add_inst prog (Asm.Add result_var right_var "x0") in
    let prog := set_target_at prog jal (Asm.get_number_of_instructions prog) in
    Ok (result_var, g, prog)
  | BinaryExpression k l r =>
    '(left_var, g, prog) ← gen l g prog;
    '(right_var, g, prog) ← gen r g prog;
    visit_binary k left_var right_var g prog
  | UnaryExpression k a =>
    '(val, g, prog) ← gen a g prog;
    Ok (visit_unary k val g prog)
  | Let x d b =>
    '(val_var, g, prog) ← gen d g prog;
    let prog := Asm.add_inst prog (Asm.Add x "x0" val_var) in
    let '(result_var, g) := next_var_name g in
    '(var_exp_body, g, prog) ← gen b g prog;
    Ok (result_var, g, Asm.add_inst prog (Asm.Add result_var "x0" var_exp_body))
  | IfThenElse c a b =>
    '(cond_var, g, prog) ← gen c g prog;
    let '(result_var, g) := next_var_name g in
    let beq := length (Asm.insts prog) in
    let prog := Asm.add_inst prog (Asm.Beq cond_var "x0" None) in
    '(then_var, g, prog) ← gen a g prog;
    let prog := Asm.add_inst prog (Asm.Add result_var then_var "x0") in
    let jal := length (Asm.insts prog) in
    let prog := Asm.add_inst prog (Asm.Jal "x0" None) in
    let prog := set_target_at prog beq (Asm.get_number_of_instructions prog) in
    '(else_var, g, prog) ← gen b g prog;
    let prog := Asm.add_inst prog (Asm.Add result_var else_var "x0") in
    let prog := set_target_at prog jal (Asm.get_number_of_instructions prog) in
    Ok (result_var, g, prog)
  | Fn formal body =>
    let '(n, g) := next_fn_value g in
    let fun_addr := "fun_" +:+ formal +:+ "_" +:+ n in
    let jal := length (Asm.insts prog) in
    let prog := Asm.add_inst prog (Asm.Jal fun_addr None) in
    let prog := Asm.add_inst prog (Asm.Addi "sp" "sp" (-1)) in
    let prog := Asm.add_inst prog (Asm.Sw "sp" 0 "ra") in
    let prog := Asm.add_inst prog (Asm.Add formal "a0" "x0") in
    '(body_res, g, prog) ← gen body g prog;
    let prog := Asm.add_inst prog (Asm.Add "a0" body_res "x0") in
    let prog := Asm.add_inst prog (Asm.Lw "sp" 0 "ra") in
    let prog := Asm.add_inst prog (Asm.Addi "sp" "sp" 1) in
    let prog := Asm.add_inst prog (Asm.Jalr "x0" "ra" 0) in
    let prog := set_target_at prog jal (Asm.get_number_of_instructions prog) in
    Ok (fun_addr, g, prog)
  | App f a =>
    '(func_address, g, prog) ← gen f g prog;
    '(parameter, g, prog) ← gen a g prog;
    let prog := Asm.add_inst prog (Asm.Add "a0" parameter "x0") in
    let prog := Asm.add_inst prog (Asm.Jalr "ra" func_address 0) in
    let '(result_var, g) := next_var_name g in
    Ok (result_var, g, Asm.add_inst prog (Asm.Add result_var "a0" "x0"))
  end.

(** Generate on a fresh program with [memory_size] words, run it to the end
    and read the result variable. *)
Definition compile_and_run (memory_size fuel : nat) (e : Expression) : result Z :=
  '(v, _, prog) ← gen e {| next_var_counter := 0; next_fn_counter := 0 |}
                    (Asm.new_Program memory_size ∅ []);
  prog ← Asm.eval fuel prog;
  Asm.get_val prog v.

End CodeGenFunctions.

(** ** EvalVisitor (CodeGenForRegisterAllocation/Visitor.py and
       ControlFlow/Visitor.py hold the same class) *)

Module EvalVisitor.

(** The values of the language are Python's [bool] and [int]. *)
Inductive value : Type :=
| VBln (b : bool)
| VNum (n : Z).

(** [bool] is a subclass of [int]: arithmetic and comparisons read [True]
    as 1 and [False] as 0. *)
Definition int_of (v : value) : Z :=
  match v with
  | VBln true => 1
  | VBln false => 0
  | VNum n => n
  end.

(** The truth value [bool(v)] that [if v], [not v], [and] and [or] test. *)
Definition truth (v : value) : bool :=
  match v with
  | VBln b => b
  | VNum n => negb (n =? 0)
  end.

(** The methods that evaluate both operands before combining them. *)
Definition visit_binary (k : BinaryKind) (left_val right_val : value) : result value :=
  match k with
  | KEql => Ok (VBln (int_of left_val =? int_of right_val))
  | KAdd => Ok (VNum (int_of left_val + int_of right_val))
  | KSub => Ok (VNum (int_of left_val - int_of right_val))
  | KMul => Ok (VNum (int_of left_val * int_of right_val))
  | KDiv =>
    if decide (int_of right_val = 0) then Raise ZeroDivisionError
    else Ok (VNum (int_of left_val `div` int_of right_val))
  | KLeq => Ok (VBln (int_of left_val <=? int_of right_val))
  | KLth => Ok (VBln (int_of left_val <? int_of right_val))
  | KAnd | KOr => Raise AttributeError
  end.

Definition visit_unary (k : UnaryKind) (val : value) : value :=
  match k with
  | KNeg => VNum (- int_of val)
  | KNot => VBln (negb (truth val))
  end.

Definition not_defined (identifier : string) : exn :=
  NameError ("Variable " +:+ identifier +:+ " not defined").

(** [exp.accept(self, env)].  The environment is a dictionary or [None];
    [visit_var] finds nothing in [None] nor in an empty dictionary, and
    [visit_let] starts from an empty dictionary when it receives [None].
    The class has no method for [Fn] and [App]. *)
Fixpoint accept (exp : Expression) (env : option (gmap string value)) : result value :=
  match exp with
  | Var identifier =>
    match env with
    | Some d =>
      match d !! identifier with
      | Some v => Ok v
      | None => Raise (not_defined identifier)
      end
    | None => Raise (not_defined identifier)
    end
  | Bln b => Ok (VBln b)
  | Num n => Ok (VNum n)
  | BinaryExpression KAnd l r =>
    left_val ← accept l env;
    if negb (truth left_val) then Ok (VBln false)
    else right_val ← accept r env; Ok (VBln (truth right_val))
  | BinaryExpression KOr l r =>
    left_val ← accept l env;
    if truth left_val then Ok (VBln true)
    else right_val ← accept r env; Ok (VBln (truth right_val))
  | BinaryExpression k l r =>
    left_val ← accept l env;
    right_val ← accept r env;
    visit_binary k left_val right_val
  | UnaryExpression k a =>
    val ← accept a env;
    Ok (visit_unary k val)
  | Let identifier exp_def exp_body =>
    let d := default ∅ env in
    val ← accept exp_def (Some d);
    accept exp_body (Some (<[identifier := val]> d))
  | IfThenElse cond e0 e1 =>
    c ← accept cond env;
    if truth c then accept e0 env else accept e1 env
  | Fn _ _ | App _ _ => Raise AttributeError
  end.

End EvalVisitor.

(** ** Lexer (CodeGenForRegisterAllocation/Lexer.py) *)

Module Lexer.

Inductive TokenType : Type :=
| EOF | NLN | WSP | COM | NUM | STR | TRU | FLS | VAR | LET | INX | END
| EQL | ADD | SUB | MUL | DIV | LEQ | LTH | NEG | NOT | LPR | RPR | ASN.

Record Token : Type := mkToken { text : string; kind : TokenType }.

(** The source is a Python string; here its characters are the code
    points below 256.  [isdigit], [isalpha], [isalnum] and [isspace] are
    the methods of [str] on these code points: besides the ASCII digits,
    letters and blanks they accept the superscripts 1, 2 and 3 as digits,
    the letters of Latin-1, the fractions 1/4, 1/2 and 3/4 as alphanumeric,
    and the separators 28 to 31, NEL (133) and the no-break space (160) as
    space. *)
Definition between (lo hi : N) (c : ascii) : bool :=
  ((lo <=? N_of_ascii c) && (N_of_ascii c <=? hi))%N.

Definition isdigit (c : ascii) : bool :=
  between 48 57 c || between 178 179 c || between 185 185 c.

Definition isalpha (c : ascii) : bool :=
  between 65 90 c || between 97 122 c || between 170 170 c
  || between 181 181 c || between 186 186 c || between 192 214 c
  || between 216 246 c || between 248 255 c.

Definition isalnum (c : ascii) : bool :=
  isalpha c || isdigit c || between 188 190 c.

Definition isspace (c : ascii) : bool :=
  between 9 13 c || between 28 32 c || between 133 133 c || between 160 160 c.

Definition newline : ascii := ascii_of_N 10.

(** The characters a [while] loop of [getToken] consumes while the test
    [p] holds, and the input left. *)
Fixpoint take_while (p : ascii → bool) (s : string) : string * string :=
  match s with
  | EmptyString => (EmptyString, EmptyString)
  | String c s' =>
    if p c then let '(t, r) := take_while p s' in (String c t, r)
    else (EmptyString, s)
  end.

(** The loop of the comment between parentheses and stars: it collects
    characters up to the first star followed by a closing parenthesis, which
    it consumes, or up to the end of the input. *)
Fixpoint block_comment (s : string) : string * string :=
  match s with
  | EmptyString => (EmptyString, EmptyString)
  | String c s' =>
    match s' with
    | String d s'' =>
      if (c =? "*")%char && (d =? ")")%char then (EmptyString, s'')
      else let '(t, r) := block_comment s' in (String c t, r)
    | EmptyString => let '(t, r) := block_comment s' in (String c t, r)
    end
  end.

Definition ident_char (c : ascii) : bool := isalnum c || (c =? "_")%char.

Definition word_kind (word : string) : TokenType :=
  if decide (word = "let") then LET
  else if decide (word = "in") then INX
  else if decide (word = "end") then END
  else if decide (word = "true") then TRU
  else if decide (word = "false") then FLS
  else if decide (word = "not") then NOT
  else VAR.

(** The input after [self.pos += n]. *)
Fixpoint skip (n : nat) (s : string) : string :=
  match n, s with
  | S n', String _ s' => skip n' s'
  | _, _ => s
  end.

(** [getToken], on the input from [self.pos] on; it returns the token and
    the input left.  [String.prefix p s] is the test that the input
    continues with [p]. *)
Definition getToken (s : string) : Token * string :=
  match s with
  | EmptyString => (mkToken "" EOF, s)
  | String c s' =>
    if isdigit c then
      let '(t, r) := take_while isdigit s' in (mkToken (String c t) NUM, r)
    else if String.prefix "--" s then
      let '(t, r) := take_while (λ d, negb (d =? newline)%char) (skip 2 s) in
      (mkToken t COM, r)
    else if String.prefix "(*" s then
      let '(t, r) := block_comment (skip 2 s) in (mkToken t COM, r)
    else if isalpha c then
      let '(word, r) := take_while ident_char s in
      (mkToken word (word_kind word), r)
    else if String.prefix "<-" s then (mkToken "<-" ASN, skip 2 s)
    else if String.prefix "<=" s then (mkToken "<=" LEQ, skip 2 s)
    else if (c =? "<")%char then (mkToken (String c "") LTH, s')
    else if (c =? "=")%char then (mkToken (String c "") EQL, s')
    else if (c =? "+")%char then (mkToken (String c "") ADD, s')
    else if (c =? "-")%char then (mkToken (String c "") SUB, s')
    else if (c =? "*")%char then (mkToken (String c "") MUL, s')
    else if (c =? "/")%char then (mkToken (String c "") DIV, s')
    else if (c =? "~")%char then (mkToken (String c "") NEG, s')
    else if (c =? "(")%char then (mkToken (String c "") LPR, s')
    else if (c =? ")")%char then (mkToken (String c "") RPR, s')
    else if isspace c then
      if (c =? newline)%char then (mkToken (String c "") NLN, s')
      else (mkToken (String c "") WSP, s')
    else (mkToken "" EOF, s)
  end.

(** [tokens]: call [getToken] until it returns [EOF] and yield the tokens
    that are not blanks, comments or line ends.  The loop is a [while] in
    the source; [fuel] bounds the calls here and [None] says it ran out. *)
Fixpoint tokens_loop (fuel : nat) (s : string) : option (list Token) :=
  match fuel with
  | O => None
  | S n =>
    let '(token, s') := getToken s in
    match kind token with
    | EOF => Some []
    | WSP | COM | NLN => tokens_loop n s'
    | _ => cons token <$> tokens_loop n s'
    end
  end.

Definition tokens (source : string) : option (list Token) :=
  tokens_loop (S (String.length source)) source.

(** [next_valid_token] calls [getToken] and then itself, whatever the
    token: the recursion has no base case.  [fuel] bounds its depth. *)
Fixpoint next_valid_token (fuel : nat) (s : string) : option (Token * string) :=
  match fuel with
  | O => None
  | S n => let '(_, s') := getToken s in next_valid_token n s'
  end.

End Lexer.

(** ** Vocabulary of the statements about the allocator *)

(** The fourteen opcodes [RegAllocator.__init__] registers a handler for. *)
Definition handled_opcodes : list string :=
  ["addi"; "xori"; "slti"; "add"; "sub"; "mul"; "div"; "xor"; "slt";
   "jal"; "jalr"; "beq"; "lw"; "sw"].

(** The physical register file listed in the docstring of [optimize]. *)
Definition physical_registers : list string :=
  ["x0"; "sp"; "ra"; "a0"; "a1"; "a2"; "a3"].

(** The operands of an instruction that name a register or a variable (the
    other operands are literals). *)
Definition operands (i : Asm.Inst) : list string :=
  match i with
  | Asm.Addi rd rs1 _ | Asm.Xori rd rs1 _ | Asm.Slti rd rs1 _ => [rd; rs1]
  | Asm.Add rd rs1 rs2 | Asm.Sub rd rs1 rs2 | Asm.Mul rd rs1 rs2
  | Asm.Div rd rs1 rs2 | Asm.Xor rd rs1 rs2 | Asm.Slt rd rs1 rs2 => [rd; rs1; rs2]
  | Asm.Lw rs1 _ reg | Asm.Sw rs1 _ reg => [rs1; reg]
  | Asm.Beq rs1 rs2 _ => [rs1; rs2]
  | Asm.Jal rd _ => [rd]
  | Asm.Jalr rd rs _ => [rd; rs]
  | Asm.Other _ => []
  end.

(** The operands an instruction reads, and the one it defines. *)
Definition reads (i : Asm.Inst) : list string :=
  match i with
  | Asm.Addi _ rs1 _ | Asm.Xori _ rs1 _ | Asm.Slti _ rs1 _ => [rs1]
  | Asm.Add _ rs1 rs2 | Asm.Sub _ rs1 rs2 | Asm.Mul _ rs1 rs2
  | Asm.Div _ rs1 rs2 | Asm.Xor _ rs1 rs2 | Asm.Slt _ rs1 rs2 => [rs1; rs2]
  | Asm.Lw rs1 _ _ => [rs1]
  | Asm.Sw rs1 _ reg => [reg; rs1]
  | Asm.Beq rs1 rs2 _ => [rs1; rs2]
  | Asm.Jal _ _ => []
  | Asm.Jalr _ rs _ => [rs]
  | Asm.Other _ => []
  end.

Definition dest (i : Asm.Inst) : option string :=
  match i with
  | Asm.Addi rd _ _ | Asm.Xori rd _ _ | Asm.Slti rd _ _
  | Asm.Add rd _ _ | Asm.Sub rd _ _ | Asm.Mul rd _ _
  | Asm.Div rd _ _ | Asm.Xor rd _ _ | Asm.Slt rd _ _
  | Asm.Jal rd _ | Asm.Jalr rd _ _ => Some rd
  | Asm.Lw _ _ reg => Some reg
  | Asm.Sw _ _ _ | Asm.Beq _ _ _ | Asm.Other _ => None
  end.

(** An instruction all of whose register operands are physical registers. *)
Definition physical (i : Asm.Inst) : Prop :=
  Forall (λ r, r ∈ physical_registers) (operands i).

(** A symbolic variable: any name the allocator does not leave in place. *)
Definition symbolic (x : string) : Prop := x ∉ RegAlloc.DEFAULT_REGS.

(** An instruction that names at least one symbolic variable. *)
Definition names_symbolic (i : Asm.Inst) : Prop :=
  Exists symbolic (operands i).

(** ** Vocabulary of the statements about the renamers *)

(** The scoping rule the renamers are meant to implement, as a relation
    between a tree and its renamed copy under a substitution [m] from
    original to fresh names: a reference takes the name [m] gives it and is
    left alone when [m] has none; the definition of a [Let] is renamed under
    the enclosing substitution and only its body sees the new binding. *)
Inductive Renamed : gmap string string → Expression → Expression → Prop :=
| Renamed_var_bound m x y :
    m !! x = Some y → Renamed m (Var x) (Var y)
| Renamed_var_free m x :
    m !! x = None → Renamed m (Var x) (Var x)
| Renamed_bln m b : Renamed m (Bln b) (Bln b)
| Renamed_num m n : Renamed m (Num n) (Num n)
| Renamed_binary m k l l' r r' :
    Renamed m l l' → Renamed m r r' →
    Renamed m (BinaryExpression k l r) (BinaryExpression k l' r')
| Renamed_unary m k a a' :
    Renamed m a a' → Renamed m (UnaryExpression k a) (UnaryExpression k a')
| Renamed_let m x n d d' b b' :
    Renamed m d d' → Renamed (<[x := n]> m) b b' →
    Renamed m (Let x d b) (Let n d' b')
| Renamed_if m c c' a a' b b' :
    Renamed m c c' → Renamed m a a' → Renamed m b b' →
    Renamed m (IfThenElse c a b) (IfThenElse c' a' b')
| Renamed_fn m x n b b' :
    Renamed (<[x := n]> m) b b' → Renamed m (Fn x b) (Fn n b')
| Renamed_app m f f' a a' :
    Renamed m f f' → Renamed m a a' → Renamed m (App f a) (App f' a').

(** The name the reference to [x] at position [p] of [e] must carry in the
    renamed tree [e']: the name of its binder in [e'] when it has one in [e],
    what the initial substitution gives otherwise, and [x] itself when
    neither exists. *)
Definition resolve (m : gmap string string) (e e' : Expression)
    (p : path) (x : string) : string :=
  match binder_of e p x with
  | Some q => default x (binder_name_at e' q)
  | None => default x (m !! x)
  end.

(** The identities of the objects at the [Let] nodes of a tree, in the order
    [let_names] lists their names. *)
Fixpoint let_ids (ids : path → N) (e : Expression) : list N :=
  match e with
  | Var _ | Bln _ | Num _ => []
  | BinaryExpression _ l r =>
    let_ids (RegAlloc.child ids 0) l ++ let_ids (RegAlloc.child ids 1) r
  | UnaryExpression _ a => let_ids (RegAlloc.child ids 0) a
  | Let _ d b =>
    ids [] :: let_ids (RegAlloc.child ids 0) d ++ let_ids (RegAlloc.child ids 1) b
  | IfThenElse c a b =>
    let_ids (RegAlloc.child ids 0) c ++ let_ids (RegAlloc.child ids 1) a
    ++ let_ids (RegAlloc.child ids 2) b
  | Fn _ b => let_ids (RegAlloc.child ids 0) b
  | App f a => let_ids (RegAlloc.child ids 0) f ++ let_ids (RegAlloc.child ids 1) a
  end.

(** A character occurs in a string. *)
Fixpoint occurs (c : ascii) (s : string) : Prop :=
  match s with
  | EmptyString => False
  | String a s' => a = c ∨ occurs c s'
  end.

(** A name the ControlFlow renamer builds from a counter value in [a, b). *)
Definition CF_fresh_in (a b : nat) (n : string) : Prop :=
  ∃ x k, n = ControlFlow.fresh_name x k ∧ (a ≤ k < b)%nat.


(** ** Vocabulary of the statements about execution *)

(** Instructions that fall through to the next one. *)
Definition sequential (i : Asm.Inst) : Prop :=
  match i with
  | Asm.Beq _ _ _ | Asm.Jal _ _ | Asm.Jalr _ _ _ | Asm.Other _ => False
  | _ => True
  end.

#[global] Instance sequential_dec (i : Asm.Inst) : Decision (sequential i).
Proof. destruct i; simpl; apply _. Defined.

(** The register-to-register and immediate instructions. *)
Definition arith (i : Asm.Inst) : Prop :=
  match i with
  | Asm.Addi _ _ _ | Asm.Xori _ _ _ | Asm.Slti _ _ _
  | Asm.Add _ _ _ | Asm.Sub _ _ _ | Asm.Mul _ _ _
  | Asm.Div _ _ _ | Asm.Xor _ _ _ | Asm.Slt _ _ _ => True
  | _ => False
  end.

(** The instructions of a list executed one after the other. *)
Fixpoint exec_list (l : list Asm.Inst) (p : Asm.Program) : result Asm.Program :=
  match l with
  | [] => Ok p
  | i :: l' => p' ← Asm.exec i p; exec_list l' p'
  end.

(** What an arithmetic instruction computes, given how to read a name: the
    name it defines and the value. *)
Definition arith_eval (i : Asm.Inst) (read : string → result Z)
    : result (string * Z) :=
  match i with
  | Asm.Addi rd rs1 imm => a ← read rs1; Ok (rd, a + imm)
  | Asm.Xori rd rs1 imm => a ← read rs1; Ok (rd, Z.lxor a imm)
  | Asm.Slti rd rs1 imm => a ← read rs1; Ok (rd, Asm.bool_to_Z (a <? imm))
  | Asm.Add rd rs1 rs2 => a ← read rs1; b ← read rs2; Ok (rd, a + b)
  | Asm.Sub rd rs1 rs2 => a ← read rs1; b ← read rs2; Ok (rd, a - b)
  | Asm.Mul rd rs1 rs2 => a ← read rs1; b ← read rs2; Ok (rd, a * b)
  | Asm.Div rd rs1 rs2 =>
    a ← read rs1; b ← read rs2;
    if decide (b = 0) then Raise ZeroDivisionError else Ok (rd, a `div` b)
  | Asm.Xor rd rs1 rs2 => a ← read rs1; b ← read rs2; Ok (rd, Z.lxor a b)
  | Asm.Slt rd rs1 rs2 => a ← read rs1; b ← read rs2; Ok (rd, Asm.bool_to_Z (a <? b))
  | _ => Raise AttributeError
  end.

(** The sum 1 + (1 + (... + 1)) of [S n] ones. *)
Fixpoint ones (n : nat) : Expression :=
  match n with
  | O => Num 1
  | S n' => Add (Num 1) (ones n')
  end.

(** ** Vocabulary of the statement about allocation and execution *)

(** How the state [pa] of the machine that runs the allocated program
    mirrors the state [ps] of the machine that runs the generated one, for
    the spill slots [slots] handed out so far, the last being [counter]: the
    registers the allocator leaves in place hold the same values; a variable
    that holds a value has a slot and the slot holds that value; slots lie
    between 1 and [counter], which is not negative, and no two variables
    share one. *)
Record Sim (slots : gmap string Z) (counter : Z) (ps pa : Asm.Program) : Prop := {
  sim_regs : ∀ x, x ∈ RegAlloc.DEFAULT_REGS → Asm.get_val pa x = Asm.get_val ps x;
  sim_vars : ∀ x z, x ∉ RegAlloc.DEFAULT_REGS → Asm.get_val ps x = Ok z →
             ∃ k, slots !! x = Some k ∧ Asm.mem pa !! Z.to_nat k = Some z;
  sim_slots : ∀ x k, slots !! x = Some k →
              1 ≤ k ≤ counter ∧ x ∉ RegAlloc.DEFAULT_REGS;
  sim_inj : ∀ x y k, slots !! x = Some k → slots !! y = Some k → x = y;
  sim_counter : 0 ≤ counter
}.

(** ** Vocabulary of the statements about evaluation *)

(** The names an expression refers to without binding them. *)
Fixpoint free_vars (e : Expression) : list string :=
  match e with
  | Var x => [x]
  | Bln _ | Num _ => []
  | BinaryExpression _ l r => free_vars l ++ free_vars r
  | UnaryExpression _ a => free_vars a
  | Let x d b => free_vars d ++ filter (λ y, y ≠ x) (free_vars b)
  | IfThenElse c a b => free_vars c ++ free_vars a ++ free_vars b
  | Fn x b => filter (λ y, y ≠ x) (free_vars b)
  | App f a => free_vars f ++ free_vars a
  end.

(** The trees the renamer of CodeGenForRegisterAllocation has a visiting
    method for: references, constants, the strict binary operators, the
    unary operators and [Let]. *)
Fixpoint RA_supported (e : Expression) : Prop :=
  match e with
  | Var _ | Bln _ | Num _ => True
  | BinaryExpression KAnd _ _ | BinaryExpression KOr _ _ => False
  | BinaryExpression _ l r => RA_supported l ∧ RA_supported r
  | UnaryExpression _ a => RA_supported a
  | Let _ d b => RA_supported d ∧ RA_supported b
  | IfThenElse _ _ _ | Fn _ _ | App _ _ => False
  end.

(** A fresh name of [x]: [x], an underscore and a suffix without one. *)
Definition fresh_for (x y : string) : Prop :=
  ∃ d, y = x +:+ "_" +:+ d ∧ ¬ occurs "_" d.

(** Two environments that agree through a substitution [m] built by a
    renamer: every renamed variable holds a value, and its fresh name holds
    the same value on the other side. *)
Definition env_renamed (m : gmap string string)
    (env env' : gmap string EvalVisitor.value) : Prop :=
  ∀ x y, m !! x = Some y →
    fresh_for x y ∧ ∃ v, env !! x = Some v ∧ env' !! y = Some v.

(** ** Vocabulary of the statements about spill slots *)

(** The slot table of an allocator is well formed: only symbolic variables
    have a slot, the slots are the numbers from 1 to [memory_counter], and no
    two variables share one. *)
Definition slots_wf (o : RegAlloc.RegAllocator) : Prop :=
  (∀ x k, RegAlloc.var_to_mem o !! x = Some k →
          1 ≤ k ≤ RegAlloc.memory_counter o ∧ symbolic x)
  ∧ (∀ x y k, RegAlloc.var_to_mem o !! x = Some k →
              RegAlloc.var_to_mem o !! y = Some k → x = y)
  ∧ RegAlloc.memory_counter o = Z.of_nat (size (RegAlloc.var_to_mem o)).

(** The allocator after the bookkeeping a handler does for the instruction
    [i]: the variable [i] defines, if any, has received a slot. *)
Definition alloc_state (o : RegAlloc.RegAllocator) (i : Asm.Inst)
    : RegAlloc.RegAllocator :=
  match dest i with
  | Some rd => (RegAlloc.dest_of o rd).2
  | None => o
  end.

(** The variables that have a slot once [i] has been handled, given the set
    of those that had one before. *)
Definition defined_after (defined : gset string) (i : Asm.Inst) : gset string :=
  match dest i with
  | Some rd => if decide (symbolic rd) then defined ∪ {[rd]} else defined
  | None => defined
  end.

(** Every handled instruction is of the class its opcode announces and
    reads only registers and variables that an earlier handled instruction,
    or the instruction itself, defines; [defined] holds the variables
    defined on entry.  Instructions without a handler are passed over. *)
Fixpoint def_before_use (defined : gset string) (l : list Asm.Inst) : Prop :=
  match l with
  | [] => True
  | i :: l' =>
    if decide (Asm.get_opcode i ∈ handled_opcodes) then
      (∀ op, i ≠ Asm.Other op)
      ∧ (∀ x, x ∈ reads i → symbolic x → x ∈ defined_after defined i)
      ∧ def_before_use (defined_after defined i) l'
    else def_before_use defined l'
  end.

(** The targets of the branches and jumps of a list, in order. *)
Fixpoint targets (l : list Asm.Inst) : list (option Z) :=
  match l with
  | [] => []
  | Asm.Beq _ _ lab :: l' => lab :: targets l'
  | Asm.Jal _ lab :: l' => lab :: targets l'
  | _ :: l' => targets l'
  end.

(** The variables that have a slot once the handled instructions of [l]
    have been through their handlers. *)
Fixpoint defined_by (defined : gset string) (l : list Asm.Inst) : gset string :=
  match l with
  | [] => defined
  | i :: l' =>
    if decide (Asm.get_opcode i ∈ handled_opcodes) then
      defined_by (defined_after defined i) l'
    else defined_by defined l'
  end.

(** A name an instruction may read: a variable with a slot, or a register
    the allocator leaves in place. *)
Definition avail (defined : gset string) (x : string) : Prop :=
  x ∈ defined ∨ x ∈ RegAlloc.DEFAULT_REGS.

(** ** Vocabulary of the statements about the lexer *)

(** Every character of a string passes a test. *)
Fixpoint string_forall (p : ascii → bool) (s : string) : Prop :=
  match s with
  | EmptyString => True
  | String c s' => p c = true ∧ string_forall p s'
  end.

(** A string does not begin with a character that passes a test. *)
Definition stops (p : ascii → bool) (s : string) : Prop :=
  match s with
  | EmptyString => True
  | String c _ => p c = false
  end.

(** The characters a token can begin with. *)
Definition token_start (c : ascii) : bool :=
  Lexer.isdigit c || Lexer.isalpha c || Lexer.isspace c
  || bool_decide (c ∈ list_ascii_of_string "-(<=+*/~)").

(** What the kind of a token says about its text. *)
Definition well_formed (t : Lexer.Token) : Prop :=
  match Lexer.kind t with
  | Lexer.NUM => Lexer.text t ≠ "" ∧ string_forall Lexer.isdigit (Lexer.text t)
  | Lexer.VAR =>
    (∃ c w, Lexer.text t = String c w ∧ Lexer.isalpha c = true)
    ∧ string_forall Lexer.ident_char (Lexer.text t)
    ∧ Lexer.text t ∉ ["let"; "in"; "end"; "true"; "false"; "not"]
  | Lexer.LET => Lexer.text t = "let"
  | Lexer.INX => Lexer.text t = "in"
  | Lexer.END => Lexer.text t = "end"
  | Lexer.TRU => Lexer.text t = "true"
  | Lexer.FLS => Lexer.text t = "false"
  | Lexer.NOT => Lexer.text t = "not"
  | Lexer.EQL => Lexer.text t = "="
  | Lexer.ADD => Lexer.text t = "+"
  | Lexer.SUB => Lexer.text t = "-"
  | Lexer.MUL => Lexer.text t = "*"
  | Lexer.DIV => Lexer.text t = "/"
  | Lexer.LEQ => Lexer.text t = "<="
  | Lexer.LTH => Lexer.text t = "<"
  | Lexer.NEG => Lexer.text t = "~"
  | Lexer.LPR => Lexer.text t = "("
  | Lexer.RPR => Lexer.text t = ")"
  | Lexer.ASN => Lexer.text t = "<-"
  | Lexer.EOF | Lexer.NLN | Lexer.WSP | Lexer.COM | Lexer.STR => False
  end.

(** A string that holds no star followed by a closing parenthesis. *)
Fixpoint no_close (s : string) : Prop :=
  match s with
  | EmptyString => True
  | String c s' => ¬ String.prefix "*)" s = true ∧ no_close s'
  end.

(** ** Vocabulary of the statements about emitted branches *)


(** ** Vocabulary of the statement about single assignment *)

(** The name of the temporary the generator builds from its counter. *)
Definition temporary (n : nat) : string := "v" +:+ pretty n.

(** The variables the instructions of a list define, in order. *)
Definition definitions (l : list Asm.Inst) : list string := omap dest l.

(** * Properties *)

(** ** Tactics for the result monad *)

Ltac unfold_bind :=
  unfold mbind, result_bind, mret, result_ret in *.

Ltac mred := repeat (progress (simpl in *; unfold_bind)).

(** Split on the outcome of every monadic step in the goal. *)
Ltac split_results :=
  repeat match goal with
  | |- context [match ?r with Ok _ => _ | Raise _ => _ end] =>
    let E := fresh "E" in destruct r eqn:E; simpl
  | |- context [let '(_, _) := ?r in _] =>
    let E := fresh "E" in destruct r eqn:E; simpl
  end.

Lemma bind_Ok {A B} (m : result A) (f : A → result B) (b : B) :
  m ≫= f = Ok b → ∃ a, m = Ok a ∧ f a = Ok b.
Proof. destruct m; unfold_bind; [eauto | discriminate]. Qed.

Lemma bind_Raise {A B} (m : result A) (f : A → result B) :
  raises m → raises (m ≫= f).
Proof. intros [e ->]. exists e. reflexivity. Qed.

(** ** The register allocator: unhandled opcodes (C10) *)

Lemma op_handlers_unhandled (op : string) :
  op ∉ handled_opcodes → RegAlloc.op_handlers op = None.
Proof.
  unfold handled_opcodes, RegAlloc.op_handlers. intros H.
  repeat (destruct (decide _) as [Hin|_];
            [exfalso; apply H; revert Hin; rewrite !elem_of_cons; intuition|]).
  reflexivity.
Qed.

Lemma optimize_loop_skip (o : RegAlloc.RegAllocator) (prog_pc : Z)
    (l1 l2 : list Asm.Inst) (i : Asm.Inst) (acc : list Asm.Inst) :
  RegAlloc.op_handlers (Asm.get_opcode i) = None →
  RegAlloc.optimize_loop o prog_pc (l1 ++ i :: l2) acc
  = RegAlloc.optimize_loop o prog_pc (l1 ++ l2) acc.
Proof.
  intros Hi. revert o acc. induction l1 as [|j l1 IH]; intros o acc; simpl.
  - by rewrite Hi.
  - destruct (RegAlloc.op_handlers (Asm.get_opcode j)) as [h|]; [|apply IH].
    destruct (h o prog_pc j) as [[out o']|e]; simpl; [apply IH | reflexivity].
Qed.

(** C10.  An instruction whose opcode is not one of the fourteen handled
    ones is dropped by the allocator without a trace: allocating a program
    that contains it gives exactly what allocating the program without it
    gives, the same instructions, the same allocator state and an error only
    if the rest of the program raises one. *)
Theorem C10_unhandled_opcode_dropped (o : RegAlloc.RegAllocator)
    (prog : Asm.Program) (l1 l2 : list Asm.Inst) (i : Asm.Inst) :
  Asm.get_opcode i ∉ handled_opcodes →
  RegAlloc.optimize o (Asm.set_insts prog (l1 ++ i :: l2))
  = RegAlloc.optimize o (Asm.set_insts prog (l1 ++ l2)).
Proof.
  intros Hi. unfold RegAlloc.optimize. simpl.
  rewrite optimize_loop_skip by (by apply op_handlers_unhandled).
  reflexivity.
Qed.

Lemma C10_witness :
  RegAlloc.optimize RegAlloc.new_RegAllocator
    (Asm.set_insts (Asm.new_Program 1000 ∅ [])
       ([Asm.Addi "a" "x0" 3] ++ Asm.Other "nop" :: [Asm.Slti "b" "a" 2]))
  = RegAlloc.optimize RegAlloc.new_RegAllocator
    (Asm.set_insts (Asm.new_Program 1000 ∅ [])
       ([Asm.Addi "a" "x0" 3] ++ [Asm.Slti "b" "a" 2])).
Proof.
  apply (C10_unhandled_opcode_dropped RegAlloc.new_RegAllocator
           (Asm.new_Program 1000 ∅ []) [Asm.Addi "a" "x0" 3]
           [Asm.Slti "b" "a" 2] (Asm.Other "nop")).
  exact (bool_decide_unpack ("nop" ∉ handled_opcodes) I).
Defined.

(** ** The register allocator: variables without a spill slot (C9) *)

Lemma op_handlers_of (i : Asm.Inst) :
  RegAlloc.op_handlers (Asm.get_opcode i) =
  match i with
  | Asm.Addi _ _ _ | Asm.Xori _ _ _ | Asm.Slti _ _ _ =>
    Some (λ o _ i, RegAlloc.handle_bin_immediate o i)
  | Asm.Add _ _ _ | Asm.Sub _ _ _ | Asm.Mul _ _ _
  | Asm.Div _ _ _ | Asm.Xor _ _ _ | Asm.Slt _ _ _ =>
    Some (λ o _ i, RegAlloc.handle_bin_standard o i)
  | Asm.Jal _ _ | Asm.Jalr _ _ _ => Some RegAlloc.handle_jump
  | Asm.Beq _ _ _ => Some (λ o _ i, RegAlloc.handle_branch o i)
  | Asm.Lw _ _ _ | Asm.Sw _ _ _ => Some (λ o _ i, RegAlloc.handle_memory_op o i)
  | Asm.Other op => RegAlloc.op_handlers op
  end.
Proof. destruct i; reflexivity. Qed.

Lemma load_unallocated (o : RegAlloc.RegAllocator) (x target_reg : string)
    (insts : list Asm.Inst) :
  symbolic x → RegAlloc.var_to_mem o !! x = None →
  RegAlloc._load o x target_reg insts = Raise (KeyError x).
Proof.
  unfold symbolic, RegAlloc._load. intros Hx Hm.
  destruct (decide (x ∈ RegAlloc.DEFAULT_REGS)); [done|]. by rewrite Hm.
Qed.

Lemma load_raises_or (o : RegAlloc.RegAllocator) (y target_reg : string)
    (insts : list Asm.Inst) {B}
    (k : string * list Asm.Inst → result B) :
  (∀ r, raises (k r)) → raises (RegAlloc._load o y target_reg insts ≫= k).
Proof.
  intros Hk. destruct (RegAlloc._load o y target_reg insts) as [r|e]; simpl.
  - apply Hk.
  - by exists e.
Qed.

Lemma dest_of_lookup (o : RegAlloc.RegAllocator) (rd x : string) :
  rd ≠ x →
  RegAlloc.var_to_mem (RegAlloc.dest_of o rd).2 !! x = RegAlloc.var_to_mem o !! x.
Proof.
  intros Hne. unfold RegAlloc.dest_of, RegAlloc._ensure_memory.
  repeat (destruct (decide _)); simpl; try done; by rewrite lookup_insert_ne.
Qed.

Lemma handler_raises_on_unallocated (o : RegAlloc.RegAllocator) (prog_pc : Z)
    (i : Asm.Inst) (x : string) (h : RegAlloc.handler) :
  symbolic x → RegAlloc.var_to_mem o !! x = None →
  x ∈ reads i → dest i ≠ Some x →
  RegAlloc.op_handlers (Asm.get_opcode i) = Some h →
  raises (h o prog_pc i).
Proof.
  intros Hx Hm Hr Hd Hh. rewrite op_handlers_of in Hh.
  assert (Hload : ∀ o' t l, RegAlloc.var_to_mem o' !! x = RegAlloc.var_to_mem o !! x →
            raises (RegAlloc._load o' x t l)).
  { intros o' t l Ho'. rewrite load_unallocated; [by eexists | done | congruence]. }
  assert (Hloadk : ∀ o' t l B (k : _ → result B),
            RegAlloc.var_to_mem o' !! x = RegAlloc.var_to_mem o !! x →
            raises (RegAlloc._load o' x t l ≫= k)).
  { intros. by apply bind_Raise, Hload. }
  destruct i; simpl in Hr, Hd, Hh; simplify_eq; set_unfold;
    unfold RegAlloc.handle_bin_immediate, RegAlloc.handle_bin_standard,
      RegAlloc.handle_jump, RegAlloc.handle_branch, RegAlloc.handle_memory_op,
      RegAlloc.bin_immediate, RegAlloc.bin_standard;
    try match goal with
    | |- context [RegAlloc.dest_of o ?rd] =>
      assert (rd ≠ x) as Hne by congruence;
      pose proof (dest_of_lookup o rd x Hne) as Hdl;
      destruct (RegAlloc.dest_of o rd) as [dreg o'] eqn:Hdest; simpl in Hdl
    end;
    destruct_or?; simplify_eq;
    try (by apply Hloadk);
    try (apply load_raises_or; intros [??]; by apply Hloadk).
  (* the one reading instruction left: [Jalr], whose load follows the
     bookkeeping for [rd] *)
  destruct (decide (rd ∉ RegAlloc.DEFAULT_REGS)).
  - destruct (RegAlloc.var_to_mem o' !! rd); simpl; [by apply Hloadk | by eexists].
  - simpl. by apply Hloadk.
Qed.



(** ** The register allocator: shape of the rewritten program (C7) *)

Lemma dest_of_cases (o : RegAlloc.RegAllocator) (rd : string) :
  (symbolic rd ∧ (RegAlloc.dest_of o rd).1 = "a0")
  ∨ (rd ∈ RegAlloc.DEFAULT_REGS ∧ (RegAlloc.dest_of o rd).1 = rd).
Proof.
  unfold RegAlloc.dest_of, symbolic.
  destruct (decide (rd ∉ RegAlloc.DEFAULT_REGS)) as [H|H]; simpl; [by left|].
  right. split; [|done]. by apply dec_stable.
Qed.

Lemma load_cases (o : RegAlloc.RegAllocator) (v t r : string)
    (l l' : list Asm.Inst) :
  RegAlloc._load o v t l = Ok (r, l') →
  (v ∈ RegAlloc.DEFAULT_REGS ∧ r = v ∧ l' = l)
  ∨ (symbolic v ∧ r = t ∧ ∃ k, l' = l ++ [Asm.Lw "x0" k t]).
Proof.
  unfold RegAlloc._load, symbolic.
  destruct (decide (v ∈ RegAlloc.DEFAULT_REGS)); [intros [= <- <-]; by left|].
  destruct (RegAlloc.var_to_mem o !! v); [|done].
  intros [= <- <-]. right. eauto.
Qed.

Lemma store_cases (o : RegAlloc.RegAllocator) (v s : string)
    (l l' : list Asm.Inst) :
  RegAlloc._store o v s l = Ok l' →
  (v ∈ RegAlloc.DEFAULT_REGS ∧ l' = l)
  ∨ (symbolic v ∧ ∃ k, l' = l ++ [Asm.Sw "x0" k s]).
Proof.
  unfold RegAlloc._store, symbolic.
  destruct (decide (v ∉ RegAlloc.DEFAULT_REGS)) as [H|H].
  - destruct (RegAlloc.var_to_mem o !! v); [|done]. intros [= <-]. right. eauto.
  - intros [= <-]. left. split; [|done]. by apply dec_stable.
Qed.

Lemma default_is_physical (r : string) :
  r ∈ RegAlloc.DEFAULT_REGS → r ∈ physical_registers.
Proof. unfold RegAlloc.DEFAULT_REGS, physical_registers. set_unfold. tauto. Qed.

Lemma default_not_symbolic (r : string) :
  r ∈ RegAlloc.DEFAULT_REGS → symbolic r → False.
Proof. unfold symbolic. tauto. Qed.

(** Everything the case analysis of a handler needs to know about one of
    its three helpers. *)
Ltac handler_cases :=
  repeat match goal with
  | H : _ ≫= _ = Ok _ |- _ => apply bind_Ok in H as (? & ? & H)
  | H : (let '(_, _) := ?p in _) = Ok _ |- _ => destruct p eqn:?
  | H : RegAlloc.dest_of ?o ?rd = (_, _) |- _ =>
    let C := fresh "C" in
    pose proof (dest_of_cases o rd) as C; rewrite H in C; simpl in C;
    clear H; destruct C as [[? ->]|[? ->]]
  | H : RegAlloc._load _ _ _ _ = Ok (_, _) |- _ =>
    apply load_cases in H as [(? & -> & ->)|(? & -> & ? & ->)]
  | H : RegAlloc._store _ _ _ _ = Ok _ |- _ =>
    apply store_cases in H as [(? & ->)|(? & ? & ->)]
  | H : Ok _ = Ok _ |- _ => injection H as <- <-
  | H : Raise _ = Ok _ |- _ => discriminate H
  | H : match ?x with _ => _ end = Ok _ |- _ => destruct x eqn:?
  end.

Ltac physical_solver :=
  unfold physical; simpl;
  repeat (apply Forall_cons; split); try apply Forall_nil;
  try (by apply default_is_physical);
  unfold physical_registers; set_unfold; tauto.

Lemma handler_output (o o' : RegAlloc.RegAllocator) (prog_pc : Z)
    (i : Asm.Inst) (h : RegAlloc.handler) (out : list Asm.Inst) :
  RegAlloc.op_handlers (Asm.get_opcode i) = Some h →
  h o prog_pc i = Ok (out, o') →
  Forall physical out
  ∧ (1 ≤ length out)%nat
  ∧ (names_symbolic i → 2 ≤ length out)%nat.
Proof.
  intros Hh Hrun. rewrite op_handlers_of in Hh.
  destruct i; simpl in Hh;
    try (unfold RegAlloc.op_handlers in Hh;
         repeat (destruct (decide _) in Hh); simplify_eq; discriminate Hrun);
    simplify_eq;
    unfold RegAlloc.handle_bin_immediate, RegAlloc.handle_bin_standard,
      RegAlloc.handle_jump, RegAlloc.handle_branch, RegAlloc.handle_memory_op,
      RegAlloc.bin_immediate, RegAlloc.bin_standard in Hrun;
    handler_cases;
    (split_and!;
     [ rewrite ?Forall_app, ?Forall_cons, ?Forall_nil; split_and?;
       try done; physical_solver
     | rewrite ?length_app; simpl; lia
     | unfold names_symbolic; simpl; rewrite ?Exists_cons, ?Exists_nil;
       intros Hs; rewrite ?length_app; simpl;
       first [ lia | exfalso; destruct_or?; try done;
                     by eapply default_not_symbolic ] ]).
Qed.

Lemma op_handlers_handled (op : string) :
  op ∈ handled_opcodes → is_Some (RegAlloc.op_handlers op).
Proof.
  unfold handled_opcodes. rewrite !elem_of_cons, elem_of_nil.
  intros H. destruct_or!; subst; try done; by eexists.
Qed.

Lemma optimize_loop_output (l : list Asm.Inst) :
  ∀ (o o' : RegAlloc.RegAllocator) (prog_pc : Z) (acc new_insts : list Asm.Inst),
  RegAlloc.optimize_loop o prog_pc l acc = Ok (new_insts, o') →
  ∃ out, new_insts = acc ++ out
  ∧ Forall physical out
  ∧ (Forall (λ i, Asm.get_opcode i ∈ handled_opcodes) l →
     (length l ≤ length out)%nat
     ∧ (Exists names_symbolic l → length l < length out)%nat).
Proof.
  induction l as [|i l IH]; intros o o' prog_pc acc new_insts Hrun; simpl in Hrun.
  - injection Hrun as <- <-. exists []. rewrite app_nil_r. split_and!; try done.
    intros _. split; [simpl; lia|]. intros H. by apply Exists_nil in H.
  - destruct (RegAlloc.op_handlers (Asm.get_opcode i)) as [h|] eqn:Hh.
    + apply bind_Ok in Hrun as ([out1 o1] & Hi & Hrun).
      apply IH in Hrun as (out2 & -> & Hphys & Hlen).
      destruct (handler_output _ _ _ _ _ _ Hh Hi) as (Hp1 & Hl1 & Hs1).
      exists (out1 ++ out2). rewrite app_assoc. split_and!; try done.
      * by apply Forall_app.
      * intros Hall. apply Forall_cons in Hall as [_ Hall].
        destruct (Hlen Hall) as [Hle Hlt]. rewrite length_app. simpl.
        split; [lia|]. intros Hex. apply Exists_cons in Hex as [Hex|Hex].
        -- specialize (Hs1 Hex). lia.
        -- specialize (Hlt Hex). lia.
    + apply IH in Hrun as (out & -> & Hphys & Hlen). exists out.
      split_and!; try done. intros Hall. apply Forall_cons in Hall as [Hi _].
      exfalso. apply op_handlers_handled in Hi as [h Hi]. congruence.
Qed.

(** C7 as stated fails: the one-instruction program [Addi sp sp -1], the
    first instruction of two doctests of [optimize], is rewritten to itself,
    so the output is not strictly longer than the input. *)
Lemma C7_counterexample :
  ∃ o' prog',
    RegAlloc.optimize RegAlloc.new_RegAllocator
      (Asm.new_Program 1000 ∅ [Asm.Addi "sp" "sp" (-1)]) = Ok (o', prog')
    ∧ ¬ (length [Asm.Addi "sp" "sp" (-1)] < length (Asm.insts prog'))%nat.
Proof.
  eexists _, _. split; [vm_compute; reflexivity|]. simpl. lia.
Qed.

(** C7, amended.  When the allocator completes, every register operand of
    every rewritten instruction is one of x0, sp, ra, a0, a1, a2, a3 (the
    other operands are literals).  If every input instruction has one of the
    fourteen handled opcodes, the output is at least as long as the input,
    and strictly longer as soon as some input instruction names a symbolic
    variable. *)
Theorem C7_allocated_program_shape (o o' : RegAlloc.RegAllocator)
    (prog prog' : Asm.Program) :
  RegAlloc.optimize o prog = Ok (o', prog') →
  Forall physical (Asm.insts prog')
  ∧ (Forall (λ i, Asm.get_opcode i ∈ handled_opcodes) (Asm.insts prog) →
     (length (Asm.insts prog) ≤ length (Asm.insts prog'))%nat
     ∧ (Exists names_symbolic (Asm.insts prog) →
        length (Asm.insts prog) < length (Asm.insts prog'))%nat).
Proof.
  unfold RegAlloc.optimize. intros H.
  apply bind_Ok in H as ([new_insts o1] & Hloop & [= <- <-]).
  apply optimize_loop_output in Hloop as (out & -> & Hphys & Hlen).
  simpl. done.
Qed.

Lemma C7_witness :
  Forall physical
    [Asm.Addi "a0" "x0" 3; Asm.Sw "x0" 1 "a0"; Asm.Lw "x0" 1 "a0";
     Asm.Slti "a0" "a0" 2; Asm.Sw "x0" 2 "a0"]
  ∧ (Forall (λ i, Asm.get_opcode i ∈ handled_opcodes)
       [Asm.Addi "a" "x0" 3; Asm.Slti "b" "a" 2] →
     (2 ≤ 5)%nat
     ∧ (Exists names_symbolic [Asm.Addi "a" "x0" 3; Asm.Slti "b" "a" 2] →
        2 < 5)%nat).
Proof.
  apply (C7_allocated_program_shape RegAlloc.new_RegAllocator
           {| RegAlloc.memory_counter := 2;
              RegAlloc.var_to_mem := <["b" := 2]> (<["a" := 1]> ∅);
              RegAlloc.var_to_reg := <["b" := "a0"]> (<["a" := "a0"]> ∅) |}
           (Asm.new_Program 1000 ∅ [Asm.Addi "a" "x0" 3; Asm.Slti "b" "a" 2])
           (Asm.set_insts (Asm.new_Program 1000 ∅ [])
              [Asm.Addi "a0" "x0" 3; Asm.Sw "x0" 1 "a0"; Asm.Lw "x0" 1 "a0";
               Asm.Slti "a0" "a0" 2; Asm.Sw "x0" 2 "a0"])).
  vm_compute. reflexivity.
Defined.

(** ** Fresh names: a name, an underscore, a decimal number *)

Lemma string_app_nil_l (s : string) : "" +:+ s = s.
Proof. reflexivity. Qed.

Lemma string_app_cons_l (a : ascii) (s t : string) :
  String a s +:+ t = String a (s +:+ t).
Proof. reflexivity. Qed.

Lemma occurs_app (c : ascii) (s1 s2 : string) :
  occurs c (s1 +:+ s2) ↔ occurs c s1 ∨ occurs c s2.
Proof.
  induction s1 as [|a s1 IH];
    rewrite ?string_app_nil_l, ?string_app_cons_l; simpl;
    [tauto | rewrite IH; tauto].
Qed.

Lemma pretty_N_char_no_underscore (x : N) : pretty_N_char x ≠ "_"%char.
Proof. unfold pretty_N_char. repeat case_match; discriminate. Qed.

Lemma pretty_N_go_no_underscore (x : N) (s : string) :
  ¬ occurs "_" s → ¬ occurs "_" (pretty_N_go x s).
Proof.
  revert s. induction (N.lt_wf_0 x) as [x _ IH]. intros s Hs.
  destruct (decide (x = 0)%N) as [->|Hx].
  - by rewrite pretty_N_go_0.
  - rewrite pretty_N_go_step by lia. apply IH.
    + apply N.div_lt; lia.
    + simpl. intros [Hc|Hc]; [by apply pretty_N_char_no_underscore in Hc | done].
Qed.

Lemma pretty_N_no_underscore (n : N) : ¬ occurs "_" (pretty n).
Proof.
  unfold pretty, pretty_N. destruct (decide (n = 0)%N).
  - simpl. intros [H|[]]. discriminate H.
  - apply pretty_N_go_no_underscore. simpl. tauto.
Qed.

Lemma pretty_nat_no_underscore (n : nat) : ¬ occurs "_" (pretty n).
Proof. apply pretty_N_no_underscore. Qed.

(** A string is cut in one way only at its last underscore. *)
Lemma underscore_split (s1 s2 d1 d2 : string) :
  ¬ occurs "_" d1 → ¬ occurs "_" d2 →
  s1 +:+ "_" +:+ d1 = s2 +:+ "_" +:+ d2 → s1 = s2 ∧ d1 = d2.
Proof.
  intros H1 H2. revert s2.
  induction s1 as [|a s1 IH]; intros [|b s2];
    repeat (rewrite string_app_nil_l || rewrite string_app_cons_l); intros Heq.
  - by injection Heq.
  - injection Heq as <- ->. exfalso. apply H1.
    apply occurs_app. right. simpl. by left.
  - injection Heq as -> <-. exfalso. apply H2.
    apply occurs_app. right. simpl. by left.
  - injection Heq as -> Heq. apply IH in Heq as [-> ->]. done.
Qed.

Lemma fresh_name_nat_inj (x x' : string) (k k' : nat) :
  x +:+ "_" +:+ pretty k = x' +:+ "_" +:+ pretty k' → x = x' ∧ k = k'.
Proof.
  intros H. apply underscore_split in H as [-> H];
    auto using pretty_nat_no_underscore.
  split; [done|]. by apply (inj pretty).
Qed.

Lemma fresh_name_N_inj (x x' : string) (k k' : N) :
  x +:+ "_" +:+ pretty k = x' +:+ "_" +:+ pretty k' → x = x' ∧ k = k'.
Proof.
  intros H. apply underscore_split in H as [-> H];
    auto using pretty_N_no_underscore.
  split; [done|]. by apply (inj pretty).
Qed.

(** ** The scoping rule and nearest binders *)

Lemma binder_name_at_cons (i : nat) (q : path) (e c : Expression) :
  subexp e [i] = Some c →
  binder_name_at e (i :: q) = binder_name_at c q.
Proof.
  unfold binder_name_at. intros H.
  replace (subexp e (i :: q)) with (subexp c q); [done|].
  destruct e, i as [|[|[|]]]; simpl in *; congruence.
Qed.

Lemma Renamed_resolve (m : gmap string string) (e e' : Expression) :
  Renamed m e e' →
  ∀ (p : path) (x : string),
    subexp e p = Some (Var x) →
    subexp e' p = Some (Var (resolve m e e' p x)).
Proof.
  induction 1 as [m x y Hm|m x Hm|m b|m n|m k l l' r r' _ IHl _ IHr
                  |m k a a' _ IHa|m x n d d' b b' _ IHd _ IHb
                  |m c c' a a' b b' _ IHc _ IHa _ IHb|m x n b b' _ IHb
                  |m f f' a a' _ IHf _ IHa];
    intros [|i p] z Hp; simpl in Hp; simplify_eq;
    try (unfold resolve; simpl; by rewrite ?Hm);
    destruct i as [|[|[|i]]]; simplify_eq; simpl;
    try match goal with
    | IH : ∀ p x, subexp ?c p = _ → _, H : subexp ?c _ = _ |- _ =>
      rewrite (IH _ _ H); do 2 f_equal; unfold resolve; simpl;
      destruct (binder_of c p z) as [q|] eqn:Hq; simpl;
      try (by erewrite binder_name_at_cons by reflexivity)
    end.
  (* what is left: no binder below; in the body of a [Let] or a [Fn] the
     new binding is in scope *)
  all: try reflexivity.
  all: case_decide; simplify_eq; simpl;
    [by rewrite lookup_insert_eq | by rewrite lookup_insert_ne].
Qed.

(** ** Names of the [Let] nodes *)

Lemma subexp_let_name (e : Expression) :
  ∀ (q : path) (n : string) (d b : Expression),
    subexp e q = Some (Let n d b) → n ∈ let_names e.
Proof.
  induction e; intros [|i q] n' d' b' H; simpl in H; simplify_eq; simpl;
    try (by left);
    destruct i as [|[|[|i]]]; simplify_eq;
    rewrite ?elem_of_cons, ?elem_of_app; eauto 6.
Qed.

(** When the names of the [Let] nodes are pairwise distinct, a name
    determines the position of its [Let]. *)
Lemma NoDup_let_positions (e : Expression) :
  NoDup (let_names e) →
  ∀ (q q' : path) (n : string) (d b d2 b2 : Expression),
    subexp e q = Some (Let n d b) →
    subexp e q' = Some (Let n d2 b2) →
    q = q'.
Proof.
  induction e; simpl; intros Hnd q q' n' d' b' d2 b2 H1 H2;
    rewrite ?NoDup_cons, ?NoDup_app in Hnd;
    destruct q as [|i q], q' as [|j q']; simpl in H1, H2; simplify_eq;
    try done;
    try destruct i as [|[|[|i]]]; try destruct j as [|[|[|j]]]; simplify_eq;
    repeat match goal with
    | H : subexp _ _ = Some (Let _ _ _) |- _ =>
      pose proof (subexp_let_name _ _ _ _ _ H); revert H
    end; intros;
    try (f_equal; naive_solver eauto);
    exfalso; set_solver.
Qed.

(** ** ControlFlow.RenameVisitor *)

Lemma CF_rename_Renamed (e : Expression) :
  ∀ (m : gmap string string) (c c' : nat) (e' : Expression),
    ControlFlow.rename e m c = Ok (e', c') → Renamed m e e'.
Proof.
  induction e; intros m c c' e' H; simpl in H;
    repeat match goal with
    | H : _ ≫= _ = Ok _ |- _ => apply bind_Ok in H as ([??] & ? & H)
    | H : match ?x with _ => _ end = Ok _ |- _ => destruct x eqn:?
    | H : Ok _ = Ok _ |- _ => injection H as <- <-
    | H : Raise _ = Ok _ |- _ => discriminate H
    end;
    eauto using Renamed.
Qed.

Lemma CF_fresh_in_mono (l : list string) (a b a' b' : nat) :
  (a' ≤ a)%nat → (b ≤ b')%nat →
  Forall (CF_fresh_in a b) l → Forall (CF_fresh_in a' b') l.
Proof.
  intros ? ? HF. eapply Forall_impl; [exact HF|].
  intros n (x & k & -> & ?). exists x, k. split; [done | lia].
Qed.

Lemma CF_fresh_in_disjoint (a b a' b' : nat) (n : string) :
  CF_fresh_in a b n → CF_fresh_in a' b' n → (b ≤ a')%nat ∨ (b' ≤ a)%nat → False.
Proof.
  intros (x & k & -> & ?) (x' & k' & Heq & ?) ?.
  apply fresh_name_nat_inj in Heq as [_ ->]. lia.
Qed.

Ltac CF_names_solver :=
  repeat match goal with
  | |- _ ∧ _ => split
  | |- (_ ≤ _)%nat => lia
  | |- Forall _ [] => constructor
  | |- Forall _ (_ :: _) => apply Forall_cons; split
  | |- Forall _ (_ ++ _) => apply Forall_app; split
  | |- Forall _ (let_names _) => eapply CF_fresh_in_mono; [| |eassumption]; lia
  | |- NoDup [] => constructor
  | |- NoDup (_ :: _) => apply NoDup_cons; split
  | |- NoDup (_ ++ _) => apply NoDup_app; split_and!
  | |- NoDup (let_names _) => assumption
  | |- CF_fresh_in _ _ (ControlFlow.fresh_name _ _) =>
    eexists _, _; split; [reflexivity | lia]
  end.

Ltac CF_disjoint_solver :=
  intros; rewrite ?elem_of_app in *;
  repeat match goal with
  | |- ¬ _ => intros ?
  | H : _ ∨ _ |- _ => destruct H
  | H : ?n ∈ let_names ?e, HF : Forall _ (let_names ?e) |- _ =>
    apply (proj1 (Forall_forall _ _) HF) in H
  end;
  match goal with
  | H1 : CF_fresh_in _ _ ?n, H2 : CF_fresh_in _ _ ?n |- _ =>
    apply (CF_fresh_in_disjoint _ _ _ _ _ H1 H2); lia
  | H1 : CF_fresh_in _ _ (ControlFlow.fresh_name ?x ?k) |- _ =>
    apply (CF_fresh_in_disjoint k (S k) _ _ _
             (ex_intro _ x (ex_intro _ k (conj eq_refl (conj (le_n k) (le_n (S k))))))
             H1); lia
  end.

(** The renamer numbers the [Let] nodes with consecutive counter values:
    started at [c] it returns the next free value [c'], every name it gave
    is built from a counter value in between, and no two are equal. *)
Lemma CF_rename_names (e : Expression) :
  ∀ (m : gmap string string) (c c' : nat) (e' : Expression),
    ControlFlow.rename e m c = Ok (e', c') →
    (c ≤ c')%nat
    ∧ Forall (CF_fresh_in c c') (let_names e')
    ∧ NoDup (let_names e').
Proof.
  induction e; intros m c c' e' H; simpl in H;
    repeat match goal with
    | H : _ ≫= _ = Ok _ |- _ => apply bind_Ok in H as ([??] & ? & H)
    | H : match ?x with _ => _ end = Ok _ |- _ => destruct x eqn:?
    | H : Ok _ = Ok _ |- _ => injection H as <- <-
    | H : Raise _ = Ok _ |- _ => discriminate H
    end; simpl;
    repeat match goal with
    | IH : ∀ m c c' e', ControlFlow.rename ?e m c = _ → _,
      H : ControlFlow.rename ?e _ _ = Ok _ |- _ =>
      apply IH in H as (? & ? & ?); clear IH
    end;
    CF_names_solver; CF_disjoint_solver.
Qed.

Ltac rename_cases :=
  repeat match goal with
  | H : _ ≫= _ = Ok _ |- _ => apply bind_Ok in H as ([??] & ? & H)
  | H : _ ≫= _ = Ok _ |- _ => apply bind_Ok in H as (? & ? & H)
  | H : match ?x with _ => _ end = Ok _ |- _ => destruct x eqn:?
  | H : Ok _ = Ok _ |- _ => injection H as <- <-
  | H : Ok _ = Ok _ |- _ => injection H as <-
  | H : Raise _ = Ok _ |- _ => discriminate H
  end.

(** The [Let] at a position keeps its place and receives its own name
    followed by a counter value. *)
Lemma CF_rename_let_at (e : Expression) :
  ∀ (m : gmap string string) (c c' : nat) (e' : Expression) (q : path)
    (x : string) (d b : Expression),
    ControlFlow.rename e m c = Ok (e', c') →
    subexp e q = Some (Let x d b) →
    ∃ k d' b', subexp e' q = Some (Let (ControlFlow.fresh_name x k) d' b').
Proof.
  induction e; intros m c c' e' [|i q] x d b H Hq; simpl in H, Hq;
    simplify_eq; rename_cases; simpl; eauto;
    destruct i as [|[|[|i]]]; simplify_eq; eauto.
Qed.

(** The binder of a reference keeps its place too. *)
Lemma CF_rename_binder_at (e : Expression) :
  ∀ (m : gmap string string) (c c' : nat) (e' : Expression) (p q : path)
    (x : string),
    ControlFlow.rename e m c = Ok (e', c') →
    binder_of e p x = Some q →
    ∃ k d' b', subexp e' q = Some (Let (ControlFlow.fresh_name x k) d' b').
Proof.
  induction e; intros m c c' e' [|i p] q x H Hq; simpl in H, Hq;
    simplify_eq; rename_cases; simpl;
    destruct i as [|[|[|i]]]; simplify_eq;
    repeat match goal with
    | H : _ <$> binder_of _ _ _ = Some _ |- _ =>
      apply fmap_Some in H as (? & H & ->)
    | H : match binder_of ?e ?p ?x with _ => _ end = Some _ |- _ =>
      destruct (binder_of e p x) eqn:?; simplify_eq
    | H : (if decide ?P then _ else _) = Some _ |- _ =>
      destruct (decide P); simplify_eq
    end; simpl; eauto.
Qed.

(** ** RegAlloc.RenameVisitor *)

Lemma RA_rename_Renamed (e : Expression) :
  ∀ (ids : path → N) (m : gmap string string) (e' : Expression),
    RegAlloc.rename ids e m = Ok e' → Renamed m e e'.
Proof.
  induction e; intros ids m e' H; simpl in H; rename_cases;
    eauto using Renamed.
Qed.

Lemma RA_rename_let_at (e : Expression) :
  ∀ (ids : path → N) (m : gmap string string) (e' : Expression) (q : path)
    (x : string) (d b : Expression),
    RegAlloc.rename ids e m = Ok e' →
    subexp e q = Some (Let x d b) →
    ∃ k d' b', subexp e' q = Some (Let (RegAlloc.fresh_name x k) d' b').
Proof.
  induction e; intros ids m e' [|i q] x d b H Hq; simpl in H, Hq;
    simplify_eq; rename_cases; simpl; eauto;
    destruct i as [|[|[|i]]]; simplify_eq; eauto.
Qed.

Lemma RA_rename_binder_at (e : Expression) :
  ∀ (ids : path → N) (m : gmap string string) (e' : Expression) (p q : path)
    (x : string),
    RegAlloc.rename ids e m = Ok e' →
    binder_of e p x = Some q →
    ∃ k d' b', subexp e' q = Some (Let (RegAlloc.fresh_name x k) d' b').
Proof.
  induction e; intros ids m e' [|i p] q x H Hq; simpl in H, Hq;
    simplify_eq; rename_cases; simpl;
    destruct i as [|[|[|i]]]; simplify_eq;
    repeat match goal with
    | H : _ <$> binder_of _ _ _ = Some _ |- _ =>
      apply fmap_Some in H as (? & H & ->)
    | H : match binder_of ?e ?p ?x with _ => _ end = Some _ |- _ =>
      destruct (binder_of e p x) eqn:?; simplify_eq
    | H : (if decide ?P then _ else _) = Some _ |- _ =>
      destruct (decide P); simplify_eq
    end; simpl; eauto.
Qed.

Lemma let_ids_range (e : Expression) :
  ∀ (ids : path → N) (i : N), i ∈ let_ids ids e → ∃ p, i = ids p.
Proof.
  induction e; intros ids i Hi; simpl in Hi;
    rewrite ?elem_of_cons, ?elem_of_app in Hi; destruct_or?;
    try (by apply elem_of_nil in Hi); eauto;
    match goal with
    | IH : ∀ ids i, i ∈ let_ids ids ?e → _, H : _ ∈ let_ids _ ?e |- _ =>
      apply IH in H as [p ->]; unfold RegAlloc.child; eauto
    end.
Qed.

Lemma let_ids_NoDup (e : Expression) :
  ∀ (ids : path → N), Inj (=) (=) ids → NoDup (let_ids ids e).
Proof.
  assert (Hchild : ∀ ids k, Inj (=) (=) ids → Inj (=) (=) (RegAlloc.child ids k)).
  { intros ids k Hinj p p' H. apply Hinj in H. by simplify_eq. }
  assert (Hdisj : ∀ ids (e1 e2 : Expression) (j k : nat) (i : N),
            Inj (=) (=) ids → j ≠ k →
            i ∈ let_ids (RegAlloc.child ids j) e1 →
            i ∈ let_ids (RegAlloc.child ids k) e2 → False).
  { intros ids e1 e2 j k i Hinj Hne H1 H2.
    apply let_ids_range in H1 as [p1 ->]. apply let_ids_range in H2 as [p2 H2].
    unfold RegAlloc.child in H2. apply Hinj in H2. by simplify_eq. }
  assert (Hroot : ∀ ids (e1 : Expression) (j : nat),
            Inj (=) (=) ids → ids [] ∈ let_ids (RegAlloc.child ids j) e1 → False).
  { intros ids e1 j Hinj H1. apply let_ids_range in H1 as [p1 H1].
    unfold RegAlloc.child in H1. apply Hinj in H1. discriminate. }
  induction e; intros ids Hinj; simpl;
    repeat match goal with
    | |- NoDup [] => constructor
    | |- NoDup (_ :: _) => apply NoDup_cons; split
    | |- NoDup (_ ++ _) => apply NoDup_app; split_and!
    | IH : ∀ ids, _ → NoDup (let_ids ids ?e) |- NoDup (let_ids _ ?e) =>
      apply IH; by apply Hchild
    end;
    intros; rewrite ?elem_of_app in *;
    repeat match goal with
    | |- ¬ _ => intros ?
    | H : _ ∨ _ |- _ => destruct H
    end;
    first
      [ by eapply Hroot
      | match goal with
        | H1 : ?x ∈ let_ids (RegAlloc.child _ ?j) _,
          H2 : ?x ∈ let_ids (RegAlloc.child _ ?k) _ |- _ =>
          exact (Hdisj _ _ _ j k x Hinj ltac:(lia) H1 H2)
        end ].
Qed.

Lemma RA_rename_names (e : Expression) :
  ∀ (ids : path → N) (m : gmap string string) (e' : Expression),
    RegAlloc.rename ids e m = Ok e' →
    Forall2 (λ n i, ∃ x, n = RegAlloc.fresh_name x i)
      (let_names e') (let_ids ids e).
Proof.
  induction e; intros ids m e' H; simpl in H; rename_cases; simpl;
    repeat match goal with
    | |- Forall2 _ [] [] => constructor
    | |- Forall2 _ (_ :: _) (_ :: _) => constructor; [by eexists|]
    | |- Forall2 _ (_ ++ _) (_ ++ _) => apply Forall2_app
    | |- Forall2 _ (let_names _) (let_ids _ _) => eauto
    end.
Qed.

Lemma Forall2_NoDup {A B} (R : A → B → Prop) (l1 : list A) (l2 : list B) :
  (∀ a i i', R a i → R a i' → i = i') →
  Forall2 R l1 l2 → NoDup l2 → NoDup l1.
Proof.
  intros Hfun. induction 1 as [|a i l1 l2 Hai HF IH]; intros Hnd.
  - constructor.
  - apply NoDup_cons in Hnd as [Hi Hnd]. apply NoDup_cons. split; [|auto].
    intros Ha. apply Hi.
    apply list_elem_of_lookup in Ha as [k Hk].
    destruct (Forall2_lookup_l _ _ _ _ _ HF Hk) as (i' & Hk' & Hai').
    rewrite (Hfun _ _ _ Hai Hai').
    apply list_elem_of_lookup. eauto.
Qed.

(** ** Positions, binders and the scoping rule *)

Lemma subexp_app (q p : path) :
  ∀ e : Expression, subexp e (q ++ p) = subexp e q ≫= λ c, subexp c p.
Proof.
  induction q as [|i q IH]; intros e; simpl; [done|].
  destruct e, i as [|[|[|i]]]; simpl; auto.
Qed.

(** The binder of a reference that stands in the definition of a [Let] is
    never that [Let]. *)
Lemma binder_of_not_def (q : path) :
  ∀ (e : Expression) (p q2 : path) (x y : string) (d b : Expression),
    subexp e q = Some (Let y d b) →
    binder_of e (q ++ 0%nat :: p) x = Some q2 →
    q2 ≠ q.
Proof.
  induction q as [|i q IH]; intros e p q2 x y d b He Hb; simpl in He, Hb.
  - simplify_eq. apply fmap_Some in Hb as (? & _ & ->). discriminate.
  - destruct e, i as [|[|[|i]]]; simplify_eq;
      repeat match goal with
      | H : _ <$> binder_of _ _ _ = Some _ |- _ =>
        apply fmap_Some in H as (? & H & ->)
      | H : match binder_of ?e ?p ?x with _ => _ end = Some _ |- _ =>
        destruct (binder_of e p x) eqn:?; simplify_eq
      | H : (if decide ?P then _ else _) = Some _ |- _ =>
        destruct (decide P); simplify_eq
      end;
      try discriminate;
      intros [= ->]; eapply IH; eauto.
Qed.

Lemma string_app_length (s t : string) :
  String.length (s +:+ t) = (String.length s + String.length t)%nat.
Proof.
  induction s as [|a s IH];
    repeat (rewrite string_app_nil_l || rewrite string_app_cons_l); simpl;
    [done | by rewrite IH].
Qed.

Lemma fresh_name_neq (x s : string) : x ≠ x +:+ "_" +:+ s.
Proof.
  intros H. apply (f_equal String.length) in H.
  rewrite !string_app_length in H. simpl in H. lia.
Qed.

(** What the scoping rule and distinct names give together.  [e'] is the
    renamed copy of [e] from the empty substitution; every [Let] keeps its
    place and receives its own name followed by an underscore and a suffix. *)
Lemma renamed_scoping (e e' : Expression) :
  Renamed ∅ e e' →
  NoDup (let_names e') →
  (∀ p q x, binder_of e p x = Some q →
     ∃ n d' b', subexp e' q = Some (Let n d' b')) →
  (∀ q x d b, subexp e q = Some (Let x d b) →
     ∃ s d' b', subexp e' q = Some (Let (x +:+ "_" +:+ s) d' b')) →
  (∀ q q' n d b d2 b2,
     subexp e' q = Some (Let n d b) → subexp e' q' = Some (Let n d2 b2) →
     q = q')
  ∧ (∀ p x q,
       subexp e p = Some (Var x) → binder_of e p x = Some q →
       ∃ n d' b', subexp e' q = Some (Let n d' b')
                  ∧ subexp e' p = Some (Var n))
  ∧ (∀ q x d b p,
       subexp e q = Some (Let x d b) → subexp d p = Some (Var x) →
       ∃ n d' b' y, subexp e' q = Some (Let n d' b')
                    ∧ subexp d' p = Some (Var y) ∧ y ≠ n).
Proof.
  intros Hren Hnd Hbinder Hlet.
  assert (Huniq := NoDup_let_positions e' Hnd).
  assert (Hnear : ∀ p x q,
    subexp e p = Some (Var x) → binder_of e p x = Some q →
    ∃ n d' b', subexp e' q = Some (Let n d' b') ∧ subexp e' p = Some (Var n)).
  { intros p x q Hp Hq. destruct (Hbinder _ _ _ Hq) as (n & d' & b' & Hq').
    exists n, d', b'. split; [done|].
    rewrite (Renamed_resolve _ _ _ Hren _ _ Hp). unfold resolve, binder_name_at.
    by rewrite Hq, Hq'. }
  split_and!; [exact Huniq | exact Hnear |].
  intros q x d b p Hq Hp.
  destruct (Hlet _ _ _ _ Hq) as (s & d' & b' & Hq').
  assert (Hglobal : subexp e (q ++ 0%nat :: p) = Some (Var x)).
  { rewrite subexp_app, Hq. simpl. done. }
  assert (Hglobal' : subexp e' (q ++ 0%nat :: p) = subexp d' p).
  { rewrite subexp_app, Hq'. simpl. done. }
  pose proof (Renamed_resolve _ _ _ Hren _ _ Hglobal) as Hres.
  rewrite Hglobal' in Hres.
  eexists _, d', b', _. split_and!; [exact Hq' | exact Hres |].
  unfold resolve. destruct (binder_of e (q ++ 0%nat :: p) x) as [q2|] eqn:Hb.
  - destruct (Hbinder _ _ _ Hb) as (n2 & d2 & b2 & Hq2).
    unfold binder_name_at. rewrite Hq2. simpl. intros ->.
    apply (binder_of_not_def _ _ _ _ _ _ _ _ Hq Hb). eauto.
  - rewrite lookup_empty. simpl. apply fresh_name_neq.
Qed.

(** ** The renamers: distinct names and nearest binders (C5) *)

(** C5.  After either renamer has run from the empty environment (the
    counter-based one of ControlFlow, the identity-based one of
    CodeGenForRegisterAllocation, whose objects have pairwise distinct
    identities): two [Let] nodes with the same name are the same node; a
    reference whose name is bound carries the name of its lexically nearest
    enclosing binding; and a reference to [x] inside the definition of a
    [Let] of [x] does not carry that [Let]'s fresh name, since the
    definition is renamed in the enclosing environment. *)
Theorem C5_renaming_unique_and_scoped :
  (∀ e e' c',
     ControlFlow.rename e ∅ 0 = Ok (e', c') →
     (∀ q q' n d b d2 b2,
        subexp e' q = Some (Let n d b) → subexp e' q' = Some (Let n d2 b2) →
        q = q')
     ∧ (∀ p x q,
          subexp e p = Some (Var x) → binder_of e p x = Some q →
          ∃ n d' b', subexp e' q = Some (Let n d' b')
                     ∧ subexp e' p = Some (Var n))
     ∧ (∀ q x d b p,
          subexp e q = Some (Let x d b) → subexp d p = Some (Var x) →
          ∃ n d' b' y, subexp e' q = Some (Let n d' b')
                       ∧ subexp d' p = Some (Var y) ∧ y ≠ n))
  ∧ (∀ ids e e',
       Inj (=) (=) ids →
       RegAlloc.rename_variables ids e = Ok e' →
       (∀ q q' n d b d2 b2,
          subexp e' q = Some (Let n d b) → subexp e' q' = Some (Let n d2 b2) →
          q = q')
       ∧ (∀ p x q,
            subexp e p = Some (Var x) → binder_of e p x = Some q →
            ∃ n d' b', subexp e' q = Some (Let n d' b')
                       ∧ subexp e' p = Some (Var n))
       ∧ (∀ q x d b p,
            subexp e q = Some (Let x d b) → subexp d p = Some (Var x) →
            ∃ n d' b' y, subexp e' q = Some (Let n d' b')
                         ∧ subexp d' p = Some (Var y) ∧ y ≠ n)).
Proof.
  split.
  - intros e e' c' H. apply renamed_scoping.
    + by eapply CF_rename_Renamed.
    + by eapply CF_rename_names.
    + intros p q x Hb.
      destruct (CF_rename_binder_at _ _ _ _ _ _ _ _ H Hb) as (k & d' & b' & Hq).
      eauto.
    + intros q x d b Hq.
      destruct (CF_rename_let_at _ _ _ _ _ _ _ _ _ H Hq) as (k & d' & b' & Hq').
      eauto.
  - intros ids e e' Hinj H. unfold RegAlloc.rename_variables in H.
    apply renamed_scoping.
    + by eapply RA_rename_Renamed.
    + eapply Forall2_NoDup; [|by eapply RA_rename_names|by apply let_ids_NoDup].
      intros n i i' [x ->] [x' Heq]. by apply fresh_name_N_inj in Heq as [_ ->].
    + intros p q x Hb.
      destruct (RA_rename_binder_at _ _ _ _ _ _ _ H Hb) as (k & d' & b' & Hq).
      eauto.
    + intros q x d b Hq.
      destruct (RA_rename_let_at _ _ _ _ _ _ _ _ H Hq) as (k & d' & b' & Hq').
      eauto.
Qed.

Lemma C5_witness :
  ∃ n d' b',
    subexp (Let "x_1" (Let "x_0" (Num 2) (Add (Var "x_0") (Num 3)))
              (Mul (Var "x_1") (Num 10))) [] = Some (Let n d' b')
    ∧ subexp (Let "x_1" (Let "x_0" (Num 2) (Add (Var "x_0") (Num 3)))
                (Mul (Var "x_1") (Num 10))) [1; 0]%nat = Some (Var n).
Proof.
  refine (proj1 (proj2 (proj1 C5_renaming_unique_and_scoped
            (Let "x" (Let "x" (Num 2) (Add (Var "x") (Num 3)))
               (Mul (Var "x") (Num 10)))
            (Let "x_1" (Let "x_0" (Num 2) (Add (Var "x_0") (Num 3)))
               (Mul (Var "x_1") (Num 10)))
            2%nat _)) [1; 0]%nat "x" [] _ _).
  - vm_compute. reflexivity.
  - reflexivity.
  - reflexivity.
Defined.

(** ** The renamers: references without a mapping (C8) *)









(** ** The machine: straight-line execution *)

Lemma get_val_x0 (p : Asm.Program) : Asm.get_val p "x0" = Ok 0.
Proof. reflexivity. Qed.

Lemma get_val_set_val_eq (p : Asm.Program) (x : string) (v : Z) :
  x ≠ "x0" → Asm.get_val (Asm.set_val p x v) x = Ok v.
Proof.
  intros H. unfold Asm.get_val, Asm.set_val.
  destruct (decide (x = "x0")); [done|]. simpl. by rewrite lookup_insert_eq.
Qed.

Lemma get_val_set_val_ne (p : Asm.Program) (x y : string) (v : Z) :
  x ≠ y → Asm.get_val (Asm.set_val p x v) y = Asm.get_val p y.
Proof.
  intros H. unfold Asm.get_val, Asm.set_val.
  destruct (decide (y = "x0")); [done|].
  destruct (decide (x = "x0")); [done|]. simpl. by rewrite lookup_insert_ne.
Qed.

Lemma get_val_next (p : Asm.Program) (x : string) :
  Asm.get_val (Asm.next p) x = Asm.get_val p x.
Proof. reflexivity. Qed.

Lemma exec_arith (i : Asm.Inst) (p : Asm.Program) :
  arith i →
  Asm.exec i p
  = '(rd, v) ← arith_eval i (Asm.get_val p); Ok (Asm.next (Asm.set_val p rd v)).
Proof.
  destruct i; simpl; try done; intros _; unfold_bind;
    repeat (match goal with
            | |- context [Asm.get_val p ?x] => destruct (Asm.get_val p x)
            | |- context [decide ?P] => destruct (decide P)
            end; simpl; try done).
Qed.

Lemma arith_sequential (i : Asm.Inst) : arith i → sequential i.
Proof. by destruct i. Qed.

(** A sequential instruction moves to the next index and leaves the
    instruction list and the size of the memory alone. *)
Lemma exec_sequential (i : Asm.Inst) (p p' : Asm.Program) :
  sequential i → Asm.exec i p = Ok p' →
  Asm.pc p' = Asm.pc p + 1 ∧ Asm.insts p' = Asm.insts p
  ∧ length (Asm.mem p') = length (Asm.mem p).
Proof.
  destruct i; simpl; try done; intros _ H; unfold_bind;
    repeat match goal with
    | H : match ?r with _ => _ end = Ok _ |- _ => destruct r eqn:?; try discriminate H
    | H : Ok _ = Ok _ |- _ => injection H as <-
    end;
    unfold Asm.set_val, Asm.set_mem in *;
    repeat match goal with
    | H : context [decide ?P] |- _ => destruct (decide P); simplify_eq
    | |- context [decide ?P] => destruct (decide P)
    end; simpl; rewrite ?length_insert; done.
Qed.

Lemma exec_list_app (l1 l2 : list Asm.Inst) (p : Asm.Program) :
  exec_list (l1 ++ l2) p = p' ← exec_list l1 p; exec_list l2 p'.
Proof.
  revert p. induction l1 as [|i l1 IH]; intros p; simpl; [done|].
  destruct (Asm.exec i p); simpl; [apply IH | done].
Qed.

Lemma exec_list_sequential (l : list Asm.Inst) :
  ∀ p p', Forall sequential l → exec_list l p = Ok p' →
  Asm.pc p' = Asm.pc p + Z.of_nat (length l) ∧ Asm.insts p' = Asm.insts p
  ∧ length (Asm.mem p') = length (Asm.mem p).
Proof.
  induction l as [|i l IH]; intros p p' Hseq H; simpl in H.
  - injection H as <-. simpl. split_and!; [lia | done | done].
  - apply Forall_cons in Hseq as [Hi Hseq].
    apply bind_Ok in H as (p1 & H1 & H).
    destruct (exec_sequential _ _ _ Hi H1) as (Hpc & Hinsts & Hmem).
    destruct (IH _ _ Hseq H) as (Hpc' & Hinsts' & Hmem').
    simpl. split_and!; [lia | congruence | congruence].
Qed.

Lemma get_inst_middle (pre l post : list Asm.Inst) (i : Asm.Inst) (p : Asm.Program) :
  Asm.insts p = pre ++ i :: post → Asm.pc p = Z.of_nat (length pre) →
  Asm.get_inst p = Some i.
Proof.
  intros Hinsts Hpc. unfold Asm.get_inst. rewrite Hpc, Hinsts.
  destruct (decide (0 ≤ Z.of_nat (length pre))); [|lia].
  rewrite Nat2Z.id. by rewrite list_lookup_middle.
Qed.

Lemma get_inst_end (p : Asm.Program) :
  Asm.pc p = Z.of_nat (length (Asm.insts p)) → Asm.get_inst p = None.
Proof.
  intros Hpc. unfold Asm.get_inst. rewrite Hpc.
  destruct (decide _); [|done]. rewrite Nat2Z.id. by apply lookup_ge_None.
Qed.

(** Running a program whose counter stands at the start of a block of
    sequential instructions executes the block in order, and continues
    after it with the fuel that is left. *)
Lemma eval_sequential (l : list Asm.Inst) :
  ∀ (pre post : list Asm.Inst) (p : Asm.Program) (fuel : nat),
    Forall sequential l →
    Asm.insts p = pre ++ l ++ post → Asm.pc p = Z.of_nat (length pre) →
    Asm.eval (length l + fuel) p = p' ← exec_list l p; Asm.eval fuel p'.
Proof.
  induction l as [|i l IH]; intros pre post p fuel Hseq Hinsts Hpc; simpl.
  - done.
  - apply Forall_cons in Hseq as [Hi Hseq].
    rewrite (get_inst_middle pre l (l ++ post) i p Hinsts Hpc).
    destruct (Asm.exec i p) as [p1|e] eqn:H1; simpl; [|done].
    destruct (exec_sequential _ _ _ Hi H1) as (Hpc1 & Hinsts1 & _).
    apply (IH (pre ++ [i]) post).
    + done.
    + rewrite Hinsts1, Hinsts. by rewrite <- app_assoc.
    + rewrite Hpc1, Hpc, length_app. simpl. lia.
Qed.

(** With too little fuel for the block the run does not complete. *)
Lemma eval_sequential_short (l : list Asm.Inst) :
  ∀ (pre post : list Asm.Inst) (p p' : Asm.Program) (fuel : nat),
    Forall sequential l →
    Asm.insts p = pre ++ l ++ post → Asm.pc p = Z.of_nat (length pre) →
    Asm.eval fuel p = Ok p' → (length l ≤ fuel)%nat.
Proof.
  induction l as [|i l IH]; intros pre post p p' fuel Hseq Hinsts Hpc H; simpl.
  - lia.
  - apply Forall_cons in Hseq as [Hi Hseq].
    destruct fuel as [|fuel]; simpl in H;
      rewrite (get_inst_middle pre l (l ++ post) i p Hinsts Hpc) in H; [done|].
    apply bind_Ok in H as (p1 & H1 & H).
    destruct (exec_sequential _ _ _ Hi H1) as (Hpc1 & Hinsts1 & _).
    apply (IH (pre ++ [i]) post) in H; [lia | done | |].
    + rewrite Hinsts1, Hinsts. by rewrite <- app_assoc.
    + rewrite Hpc1, Hpc, length_app. simpl. lia.
Qed.

(** A program of sequential instructions only, run from its start: the run
    completes exactly when executing the list does, with the same state. *)
Lemma eval_whole_sequential (p p' : Asm.Program) (fuel : nat) :
  Forall sequential (Asm.insts p) → Asm.pc p = 0 →
  Asm.eval fuel p = Ok p' → exec_list (Asm.insts p) p = Ok p'.
Proof.
  intros Hseq Hpc H.
  assert (Hlen : (length (Asm.insts p) ≤ fuel)%nat).
  { eapply (eval_sequential_short _ [] []); eauto. by rewrite app_nil_r. }
  replace fuel with (length (Asm.insts p) + (fuel - length (Asm.insts p)))%nat in H by lia.
  rewrite (eval_sequential _ [] []) in H; [|done|by rewrite app_nil_r|done].
  apply bind_Ok in H as (p1 & H1 & H). rewrite H1. f_equal.
  destruct (exec_list_sequential _ _ _ Hseq H1) as (Hpc1 & Hinsts1 & _).
  assert (Hend : Asm.get_inst p1 = None).
  { apply get_inst_end. rewrite Hpc1, Hinsts1, Hpc. lia. }
  destruct (fuel - length (Asm.insts p))%nat; simpl in H; rewrite Hend in H;
    by injection H.
Qed.

Lemma exec_list_eval (p p' : Asm.Program) :
  Forall sequential (Asm.insts p) → Asm.pc p = 0 →
  exec_list (Asm.insts p) p = Ok p' →
  Asm.eval (length (Asm.insts p)) p = Ok p'.
Proof.
  intros Hseq Hpc H.
  replace (length (Asm.insts p)) with (length (Asm.insts p) + 0)%nat by lia.
  rewrite (eval_sequential _ [] []); [|done|by rewrite app_nil_r|done].
  rewrite H. simpl.
  destruct (exec_list_sequential _ _ _ Hseq H) as (Hpc1 & Hinsts1 & _).
  rewrite get_inst_end; [done|]. rewrite Hpc1, Hinsts1, Hpc. lia.
Qed.

(** ** Comparisons (C4) *)

(** Reading a name after a sequence of assignments. *)
Ltac read_vals :=
  repeat first
    [ rewrite get_val_next
    | rewrite get_val_set_val_eq by discriminate
    | rewrite get_val_set_val_ne by discriminate
    | rewrite get_val_x0 ].

Lemma eval_halted (fuel : nat) (p : Asm.Program) :
  Asm.get_inst p = None → Asm.eval fuel p = Ok p.
Proof. intros H. destruct fuel; simpl; by rewrite H. Qed.

(** Run a generated straight-line program on symbolic values: replace the
    call of the generator by the code it returns (checked by evaluation),
    step through it, and read the result. *)
Ltac run_generated code :=
  unfold RegAlloc.compile_and_run;
  match goal with
  | |- context [RegAlloc.gen ?e ?g ?p] =>
    replace (RegAlloc.gen e g p) with code by (vm_compute; reflexivity)
  end;
  simpl; repeat (progress (read_vals; simpl));
  rewrite eval_halted by reflexivity;
  simpl; read_vals; f_equal.

Ltac compare_solver :=
  rewrite ?Z.add_0_l;
  repeat match goal with
  | |- context [decide ?P] => destruct (decide P)
  | |- context [?x <? ?y] => destruct (Z.ltb_spec x y)
  end; simpl; first [lia | reflexivity].

Lemma C4_eql (M k : nat) (a b : Z) :
  RegAlloc.compile_and_run M (6 + k) (Eql (Num a) (Num b))
  = Ok (if decide (a = b) then 1 else 0).
Proof.
  run_generated
    (Ok ("v6", {| RegAlloc.next_var_counter := 6 |},
         Asm.set_insts (Asm.new_Program M ∅ [])
           [Asm.Addi "v1" "x0" a; Asm.Addi "v2" "x0" b;
            Asm.Sub "v3" "v1" "v2"; Asm.Slti "v4" "v3" 1;
            Asm.Slti "v5" "v3" 0; Asm.Sub "v6" "v4" "v5"])).
  compare_solver.
Qed.

Lemma C4_lth (M k : nat) (a b : Z) :
  RegAlloc.compile_and_run M (3 + k) (Lth (Num a) (Num b))
  = Ok (if decide (a < b) then 1 else 0).
Proof.
  run_generated
    (Ok ("v3", {| RegAlloc.next_var_counter := 3 |},
         Asm.set_insts (Asm.new_Program M ∅ [])
           [Asm.Addi "v1" "x0" a; Asm.Addi "v2" "x0" b;
            Asm.Slt "v3" "v1" "v2"])).
  compare_solver.
Qed.

Lemma C4_leq (M k : nat) (a b : Z) :
  RegAlloc.compile_and_run M (4 + k) (Leq (Num a) (Num b))
  = Ok (if decide (a ≤ b) then 1 else 0).
Proof.
  run_generated
    (Ok ("v4", {| RegAlloc.next_var_counter := 4 |},
         Asm.set_insts (Asm.new_Program M ∅ [])
           [Asm.Addi "v1" "x0" a; Asm.Addi "v2" "x0" b;
            Asm.Slt "v3" "v2" "v1"; Asm.Xori "v4" "v3" 1])).
  compare_solver.
Qed.

(** C4.  For all integers [a] and [b], of either sign, the code generated
    for a comparison of the literals [a] and [b] runs to completion (with
    any fuel from the number of its instructions on, and any memory size)
    and leaves in its result variable: for [Eql] 1 if [a = b] and 0
    otherwise, computed as (a-b < 1) - (a-b < 0); for [Lth] 1 if [a < b] and
    0 otherwise; for [Leq] 1 if [a <= b] and 0 otherwise. *)
Theorem C4_comparisons_correct (M k : nat) (a b : Z) :
  RegAlloc.compile_and_run M (6 + k) (Eql (Num a) (Num b))
  = Ok (Asm.bool_to_Z (a - b <? 1) - Asm.bool_to_Z (a - b <? 0))
  ∧ RegAlloc.compile_and_run M (6 + k) (Eql (Num a) (Num b))
    = Ok (if decide (a = b) then 1 else 0)
  ∧ RegAlloc.compile_and_run M (3 + k) (Lth (Num a) (Num b))
    = Ok (if decide (a < b) then 1 else 0)
  ∧ RegAlloc.compile_and_run M (4 + k) (Leq (Num a) (Num b))
    = Ok (if decide (a ≤ b) then 1 else 0).
Proof.
  split_and!.
  - rewrite C4_eql. f_equal. compare_solver.
  - apply C4_eql.
  - apply C4_lth.
  - apply C4_leq.
Qed.

(** ** The generator of CodeGenForRegisterAllocation only appends *)

Lemma add_inst_set_insts (prog : Asm.Program) (l : list Asm.Inst) (i : Asm.Inst) :
  Asm.add_inst (Asm.set_insts prog l) i = Asm.set_insts prog (l ++ [i]).
Proof. reflexivity. Qed.

Lemma set_insts_insts (prog : Asm.Program) : Asm.set_insts prog (Asm.insts prog) = prog.
Proof. by destruct prog. Qed.

(** Started on a program whose instructions are [l], the generator returns
    the same program with arithmetic instructions appended to [l]: it
    changes neither the memory, nor the variable table, nor the counter. *)
Lemma RA_gen_appends (e : Expression) :
  ∀ (g g' : RegAlloc.GenVisitor) (prog0 prog' : Asm.Program)
    (l : list Asm.Inst) (v : string),
    RegAlloc.gen e g (Asm.set_insts prog0 l) = Ok (v, g', prog') →
    ∃ code, prog' = Asm.set_insts prog0 (l ++ code) ∧ Forall arith code.
Proof.
  induction e; intros g g' prog0 prog' l v H; simpl in H;
    try destruct kind; simpl in H; try discriminate H;
    unfold RegAlloc.visit_binary, RegAlloc.visit_unary, RegAlloc.next_var_name in H;
    simpl in H;
    repeat match goal with
    | H : _ ≫= _ = Ok _ |- _ => apply bind_Ok in H as ([[??]?] & ? & H)
    | IH : ∀ g g' prog0 prog' l v, RegAlloc.gen ?e _ _ = _ → _,
      H : RegAlloc.gen ?e _ (Asm.set_insts _ _) = Ok _ |- _ =>
      apply IH in H as (? & -> & ?); clear IH
    | H : context [Asm.add_inst (Asm.set_insts _ _) _] |- _ =>
      rewrite add_inst_set_insts in H
    end;
    simplify_eq; rewrite ?add_inst_set_insts, <- ?app_assoc; simpl;
    first [ by (exists []; rewrite app_nil_r)
          | eexists; (split; [reflexivity|]);
            repeat (rewrite Forall_app || rewrite Forall_cons
                    || rewrite Forall_nil); simpl; tauto ].
Qed.

(** ** Allocation preserves the values of arithmetic programs (C1) *)

Lemma default_regs_cases (x : string) :
  x ∈ RegAlloc.DEFAULT_REGS ↔ x = "x0" ∨ x = "sp" ∨ x = "ra".
Proof. unfold RegAlloc.DEFAULT_REGS. set_unfold. tauto. Qed.

Lemma dest_of_slots (o : RegAlloc.RegAllocator) (rd : string) :
  RegAlloc.var_to_mem (RegAlloc.dest_of o rd).2
  = RegAlloc.var_to_mem (RegAlloc._ensure_memory o rd)
  ∧ RegAlloc.memory_counter (RegAlloc.dest_of o rd).2
    = RegAlloc.memory_counter (RegAlloc._ensure_memory o rd).
Proof. unfold RegAlloc.dest_of. by destruct (decide _). Qed.

(** Giving the destination a slot keeps the two machines in step. *)
Lemma sim_dest_of (o : RegAlloc.RegAllocator) (rd : string) (ps pa : Asm.Program) :
  Sim (RegAlloc.var_to_mem o) (RegAlloc.memory_counter o) ps pa →
  Sim (RegAlloc.var_to_mem (RegAlloc.dest_of o rd).2)
      (RegAlloc.memory_counter (RegAlloc.dest_of o rd).2) ps pa
  ∧ RegAlloc.memory_counter o ≤ RegAlloc.memory_counter (RegAlloc.dest_of o rd).2
  ∧ (symbolic rd → is_Some (RegAlloc.var_to_mem (RegAlloc.dest_of o rd).2 !! rd)).
Proof.
  intros [Hregs Hvars Hslots Hinj Hc].
  destruct (dest_of_slots o rd) as [-> ->].
  unfold RegAlloc._ensure_memory, symbolic.
  destruct (decide _) as [[Hsym Hnone]|Hn]; simpl.
  - split_and!; [|lia|intros _; rewrite lookup_insert_eq; eauto].
    split.
    + done.
    + intros x z Hx Hz. destruct (Hvars x z Hx Hz) as (k & Hk & Hm).
      exists k. split; [|done]. rewrite lookup_insert_ne; [done|congruence].
    + intros x k. rewrite lookup_insert. destruct (decide (rd = x)) as [<-|].
      * intros [= <-]. split; [lia|done].
      * intros Hk. destruct (Hslots x k Hk). split; [lia|done].
    + intros x y k. rewrite !lookup_insert.
      destruct (decide (rd = x)) as [<-|], (decide (rd = y)) as [<-|]; try done.
      * intros [= <-] Hy. destruct (Hslots _ _ Hy). lia.
      * intros Hx [= <-]. destruct (Hslots _ _ Hx). lia.
      * apply Hinj.
    + lia.
  - split_and!; [done | lia |].
    intros Hsym. apply not_and_l in Hn as [Hn|Hn]; [done|].
    by apply not_eq_None_Some.
Qed.

Lemma mem_set_val (p : Asm.Program) (x : string) (v : Z) :
  Asm.mem (Asm.set_val p x v) = Asm.mem p.
Proof. unfold Asm.set_val. by destruct (decide _). Qed.

Lemma mem_next (p : Asm.Program) : Asm.mem (Asm.next p) = Asm.mem p.
Proof. reflexivity. Qed.

Lemma get_val_set_val_default (p p' : Asm.Program) (x y : string) (v : Z) :
  Asm.get_val p' y = Asm.get_val p y →
  Asm.get_val (Asm.set_val p' x v) y = Asm.get_val (Asm.set_val p x v) y.
Proof.
  intros H. destruct (decide (x = y)) as [<-|Hne].
  - destruct (decide (x = "x0")) as [->|Hx]; [done|].
    by rewrite !get_val_set_val_eq.
  - by rewrite !get_val_set_val_ne.
Qed.

(** The scratch registers and the memory beyond the slots are no part of
    the correspondence. *)
Lemma sim_scratch (slots : gmap string Z) (c : Z) (ps pa pa' : Asm.Program) :
  Sim slots c ps pa →
  Asm.mem pa' = Asm.mem pa →
  (∀ y, y ∈ RegAlloc.DEFAULT_REGS → Asm.get_val pa' y = Asm.get_val pa y) →
  Sim slots c ps pa'.
Proof.
  intros [Hregs Hvars Hslots Hinj Hc] Hmem Hsame. split; try done.
  - intros x Hx. rewrite Hsame by done. by apply Hregs.
  - intros x z Hx Hz. rewrite Hmem. by apply Hvars.
Qed.

(** Loading an operand: a register the allocator leaves in place is used as
    it is; a variable is read from its slot into the scratch register [t]. *)
Lemma load_sim (o : RegAlloc.RegAllocator) (ps pa : Asm.Program)
    (rs t : string) (z : Z) :
  Sim (RegAlloc.var_to_mem o) (RegAlloc.memory_counter o) ps pa →
  RegAlloc.memory_counter o < Z.of_nat (length (Asm.mem pa)) →
  Asm.get_val ps rs = Ok z →
  t ∉ RegAlloc.DEFAULT_REGS →
  ∃ r ld pa1,
    (∀ l, RegAlloc._load o rs t l = Ok (r, l ++ ld))
    ∧ Forall sequential ld
    ∧ exec_list ld pa = Ok pa1
    ∧ Asm.get_val pa1 r = Ok z
    ∧ Asm.mem pa1 = Asm.mem pa
    ∧ (∀ y, y ≠ t → Asm.get_val pa1 y = Asm.get_val pa y)
    ∧ (r = t ∨ r ∈ RegAlloc.DEFAULT_REGS).
Proof.
  intros [Hregs Hvars Hslots Hinj Hc] Hbound Hz Ht. unfold RegAlloc._load.
  destruct (decide (rs ∈ RegAlloc.DEFAULT_REGS)) as [Hd|Hd].
  - exists rs, [], pa. split_and!; try done.
    + intros l. by rewrite app_nil_r.
    + rewrite Hregs; done.
    + by right.
  - destruct (Hvars rs z Hd Hz) as (k & Hk & Hm). rewrite Hk.
    destruct (Hslots _ _ Hk) as [Hk1 _].
    assert (Ht0 : t ≠ "x0").
    { intros ->. apply Ht. apply default_regs_cases. by left. }
    exists t, [Asm.Lw "x0" k t], (Asm.next (Asm.set_val pa t z)).
    split_and!; try done.
    + by repeat constructor.
    + simpl. unfold Asm.get_mem. rewrite Z.add_0_r.
      destruct (decide (0 ≤ k < Z.of_nat (length (Asm.mem pa)))); [|lia].
      by rewrite Hm.
    + rewrite get_val_next. by apply get_val_set_val_eq.
    + by rewrite mem_next, mem_set_val.
    + intros y Hy. rewrite get_val_next. by apply get_val_set_val_ne.
    + by left.
Qed.

(** Writing the result: into the register itself when the destination is
    one the allocator leaves in place, otherwise into [a0] and from there
    into the slot of the destination. *)
Lemma finish_sim (o : RegAlloc.RegAllocator) (ps pa : Asm.Program)
    (rd dreg : string) (v : Z) :
  Sim (RegAlloc.var_to_mem o) (RegAlloc.memory_counter o) ps pa →
  RegAlloc.memory_counter o < Z.of_nat (length (Asm.mem pa)) →
  (symbolic rd → is_Some (RegAlloc.var_to_mem o !! rd)) →
  (symbolic rd ∧ dreg = "a0") ∨ (rd ∈ RegAlloc.DEFAULT_REGS ∧ dreg = rd) →
  ∃ st pa4,
    (∀ l, RegAlloc._store o rd dreg l = Ok (l ++ st))
    ∧ Forall sequential st
    ∧ exec_list st (Asm.next (Asm.set_val pa dreg v)) = Ok pa4
    ∧ Sim (RegAlloc.var_to_mem o) (RegAlloc.memory_counter o)
        (Asm.next (Asm.set_val ps rd v)) pa4.
Proof.
  intros [Hregs Hvars Hslots Hinj Hc] Hbound Hslot [[Hsym ->]|[Hd ->]];
    unfold RegAlloc._store, symbolic in *.
  - destruct (decide (rd ∉ RegAlloc.DEFAULT_REGS)); [|done].
    destruct (Hslot Hsym) as [k Hk]. rewrite Hk.
    destruct (Hslots _ _ Hk) as [Hk1 _].
    assert (Hrd0 : rd ≠ "x0").
    { intros ->. apply Hsym. apply default_regs_cases. by left. }
    eexists [Asm.Sw "x0" k "a0"], _. split_and!; try done.
    + by repeat constructor.
    + simpl. rewrite get_val_next, get_val_set_val_eq by done. simpl.
      unfold Asm.set_mem. rewrite Z.add_0_r, mem_next, mem_set_val.
      destruct (decide (0 ≤ k < Z.of_nat (length (Asm.mem pa)))); [|lia].
      simpl. reflexivity.
    + split; try done.
      * intros x Hx. rewrite !get_val_next.
        change (Asm.get_val (Asm.set_val pa "a0" v) x
                = Asm.get_val (Asm.set_val ps rd v) x).
        rewrite !get_val_set_val_ne; [by apply Hregs | congruence |].
        intros <-. revert Hx. rewrite default_regs_cases.
        intros [?|[?|?]]; discriminate.
      * intros x z Hx. rewrite get_val_next. simpl.
        destruct (decide (rd = x)) as [<-|Hne].
        -- rewrite get_val_set_val_eq by done. intros [= <-].
           exists k. split; [done|]. apply list_lookup_insert_eq. lia.
        -- rewrite get_val_set_val_ne by done. intros Hz.
           destruct (Hvars x z Hx Hz) as (k' & Hk' & Hm').
           exists k'. split; [done|].
           destruct (Hslots _ _ Hk') as [Hk1' _].
           rewrite list_lookup_insert_ne; [done|].
           intros Heq. apply Hne. apply (Hinj rd x k); [done|].
           replace k with k' by lia. done.
  - destruct (decide (rd ∉ RegAlloc.DEFAULT_REGS)); [done|].
    exists [], (Asm.next (Asm.set_val pa rd v)). split_and!; try done.
    + intros l. by rewrite app_nil_r.
    + split; try done.
      * intros x Hx. rewrite !get_val_next.
        apply get_val_set_val_default. by apply Hregs.
      * intros x z Hx. rewrite !get_val_next, mem_next, mem_set_val.
        rewrite get_val_set_val_ne by (intros ->; done).
        by apply Hvars.
Qed.

Lemma load_ok (o : RegAlloc.RegAllocator) (ps pa : Asm.Program)
    (rs t : string) (z : Z) :
  Sim (RegAlloc.var_to_mem o) (RegAlloc.memory_counter o) ps pa →
  Asm.get_val ps rs = Ok z →
  ∃ r ld, (∀ l, RegAlloc._load o rs t l = Ok (r, l ++ ld))
          ∧ Forall sequential ld.
Proof.
  intros [Hregs Hvars Hslots Hinj Hc] Hz. unfold RegAlloc._load.
  destruct (decide (rs ∈ RegAlloc.DEFAULT_REGS)) as [Hd|Hd].
  - exists rs, []. split; [|done]. intros l. by rewrite app_nil_r.
  - destruct (Hvars rs z Hd Hz) as (k & Hk & Hm). rewrite Hk.
    eexists _, [_]. split; [done|]. by repeat constructor.
Qed.

Lemma load_run (o : RegAlloc.RegAllocator) (ps pa : Asm.Program)
    (rs t r : string) (z : Z) (ld : list Asm.Inst) :
  Sim (RegAlloc.var_to_mem o) (RegAlloc.memory_counter o) ps pa →
  RegAlloc.memory_counter o < Z.of_nat (length (Asm.mem pa)) →
  Asm.get_val ps rs = Ok z →
  t ∉ RegAlloc.DEFAULT_REGS →
  (∀ l, RegAlloc._load o rs t l = Ok (r, l ++ ld)) →
  ∃ pa1,
    exec_list ld pa = Ok pa1
    ∧ Asm.get_val pa1 r = Ok z
    ∧ Asm.mem pa1 = Asm.mem pa
    ∧ (∀ y, y ≠ t → Asm.get_val pa1 y = Asm.get_val pa y)
    ∧ (r = t ∨ r ∈ RegAlloc.DEFAULT_REGS).
Proof.
  intros Hsim Hbound Hz Ht Hload.
  destruct (load_sim o ps pa rs t z Hsim Hbound Hz Ht)
    as (r' & ld' & pa1 & Hload' & _ & H).
  specialize (Hload []). rewrite Hload' in Hload. simpl in Hload.
  injection Hload as -> ->. eauto.
Qed.

Lemma store_ok (o : RegAlloc.RegAllocator) (rd dreg : string) :
  (symbolic rd → is_Some (RegAlloc.var_to_mem o !! rd)) →
  ∃ st, (∀ l, RegAlloc._store o rd dreg l = Ok (l ++ st))
        ∧ Forall sequential st.
Proof.
  intros Hslot. unfold RegAlloc._store, symbolic in *.
  destruct (decide (rd ∉ RegAlloc.DEFAULT_REGS)) as [Hsym|Hd].
  - destruct (Hslot Hsym) as [k ->]. eexists [_]. split; [done|].
    by repeat constructor.
  - exists []. split; [|done]. intros l. by rewrite app_nil_r.
Qed.

Lemma finish_run (o : RegAlloc.RegAllocator) (ps pa : Asm.Program)
    (rd dreg : string) (v : Z) (st : list Asm.Inst) :
  Sim (RegAlloc.var_to_mem o) (RegAlloc.memory_counter o) ps pa →
  RegAlloc.memory_counter o < Z.of_nat (length (Asm.mem pa)) →
  (symbolic rd → is_Some (RegAlloc.var_to_mem o !! rd)) →
  (symbolic rd ∧ dreg = "a0") ∨ (rd ∈ RegAlloc.DEFAULT_REGS ∧ dreg = rd) →
  (∀ l, RegAlloc._store o rd dreg l = Ok (l ++ st)) →
  ∃ pa4,
    exec_list st (Asm.next (Asm.set_val pa dreg v)) = Ok pa4
    ∧ Sim (RegAlloc.var_to_mem o) (RegAlloc.memory_counter o)
        (Asm.next (Asm.set_val ps rd v)) pa4.
Proof.
  intros Hsim Hbound Hslot Hdreg Hstore.
  destruct (finish_sim o ps pa rd dreg v Hsim Hbound Hslot Hdreg)
    as (st' & pa4 & Hstore' & _ & H).
  specialize (Hstore []). rewrite Hstore' in Hstore. simpl in Hstore.
  injection Hstore as ->. eauto.
Qed.

Section bin_standard.
(** One register-to-register instruction class [op], with the operation
    [f] it performs. *)
Variable op : string → string → string → Asm.Inst.
Variable f : Z → Z → result Z.
Hypothesis op_exec : ∀ rd rs1 rs2 p,
  Asm.exec (op rd rs1 rs2) p
  = a ← Asm.get_val p rs1; b ← Asm.get_val p rs2; v ← f a b;
    Ok (Asm.next (Asm.set_val p rd v)).
Hypothesis op_sequential : ∀ rd rs1 rs2, sequential (op rd rs1 rs2).

Lemma bin_standard_sim (o : RegAlloc.RegAllocator) (ps ps' pa : Asm.Program)
    (rd rs1 rs2 : string) :
  Sim (RegAlloc.var_to_mem o) (RegAlloc.memory_counter o) ps pa →
  Asm.exec (op rd rs1 rs2) ps = Ok ps' →
  ∃ out o',
    RegAlloc.bin_standard o op rd rs1 rs2 = Ok (out, o')
    ∧ Forall sequential out
    ∧ RegAlloc.memory_counter o ≤ RegAlloc.memory_counter o'
    ∧ (RegAlloc.memory_counter o' < Z.of_nat (length (Asm.mem pa)) →
       ∃ pa', exec_list out pa = Ok pa'
              ∧ Sim (RegAlloc.var_to_mem o') (RegAlloc.memory_counter o') ps' pa').
Proof.
  intros Hsim Hexec. rewrite op_exec in Hexec.
  apply bind_Ok in Hexec as (a & Ha & Hexec).
  apply bind_Ok in Hexec as (b & Hb & Hexec).
  apply bind_Ok in Hexec as (v & Hv & [= <-]).
  unfold RegAlloc.bin_standard.
  destruct (sim_dest_of o rd ps pa Hsim) as (Hsim1 & Hmono & Hslot).
  pose proof (dest_of_cases o rd) as Hdreg.
  destruct (RegAlloc.dest_of o rd) as [dreg o1]. simpl in Hsim1, Hmono, Hslot, Hdreg.
  destruct (load_ok o1 ps pa rs1 "a0" a Hsim1 Ha) as (r1 & ld1 & Hl1 & Hs1).
  destruct (load_ok o1 ps pa rs2 "a1" b Hsim1 Hb) as (r2 & ld2 & Hl2 & Hs2).
  destruct (store_ok o1 rd dreg Hslot) as (st & Hst & Hs3).
  exists (((([] ++ ld1) ++ ld2) ++ [op dreg r1 r2]) ++ st), o1.
  split_and!.
  - rewrite Hl1. simpl. rewrite Hl2. simpl. rewrite Hst. done.
  - rewrite !Forall_app. split_and!; try done. by repeat constructor.
  - done.
  - intros Hbound.
    assert (Ha0 : "a0" ∉ RegAlloc.DEFAULT_REGS).
    { rewrite default_regs_cases. intros [?|[?|?]]; discriminate. }
    assert (Ha1 : "a1" ∉ RegAlloc.DEFAULT_REGS).
    { rewrite default_regs_cases. intros [?|[?|?]]; discriminate. }
    destruct (load_run o1 ps pa rs1 "a0" r1 a ld1 Hsim1 Hbound Ha Ha0 Hl1)
      as (pa1 & He1 & Hr1 & Hm1 & Hsame1 & Hreg1).
    assert (Hsim2 : Sim (RegAlloc.var_to_mem o1) (RegAlloc.memory_counter o1) ps pa1).
    { eapply sim_scratch; [exact Hsim1 | exact Hm1 |].
      intros y Hy. apply Hsame1. intros ->. done. }
    assert (Hbound1 : RegAlloc.memory_counter o1 < Z.of_nat (length (Asm.mem pa1)))
      by (by rewrite Hm1).
    destruct (load_run o1 ps pa1 rs2 "a1" r2 b ld2 Hsim2 Hbound1 Hb Ha1 Hl2)
      as (pa2 & He2 & Hr2 & Hm2 & Hsame2 & Hreg2).
    assert (Hsim3 : Sim (RegAlloc.var_to_mem o1) (RegAlloc.memory_counter o1) ps pa2).
    { eapply sim_scratch; [exact Hsim2 | exact Hm2 |].
      intros y Hy. apply Hsame2. intros ->. done. }
    assert (Hbound2 : RegAlloc.memory_counter o1 < Z.of_nat (length (Asm.mem pa2)))
      by (by rewrite Hm2).
    assert (Hr1' : Asm.get_val pa2 r1 = Ok a).
    { rewrite Hsame2; [done|]. destruct Hreg1 as [->|Hd]; [discriminate|].
      intros ->. done. }
    destruct (finish_run o1 ps pa2 rd dreg v st Hsim3 Hbound2 Hslot Hdreg Hst)
      as (pa4 & He4 & Hsim4).
    exists pa4. split; [|done].
    rewrite !exec_list_app. simpl. rewrite He1. simpl. rewrite He2. simpl.
    rewrite op_exec, Hr1', Hr2. simpl. rewrite Hv. simpl. exact He4.
Qed.
End bin_standard.

Section bin_immediate.
(** One immediate instruction class [op], with the operation [f]. *)
Variable op : string → string → Z → Asm.Inst.
Variable f : Z → Z → Z.
Hypothesis op_exec : ∀ rd rs1 imm p,
  Asm.exec (op rd rs1 imm) p
  = a ← Asm.get_val p rs1; Ok (Asm.next (Asm.set_val p rd (f a imm))).
Hypothesis op_sequential : ∀ rd rs1 imm, sequential (op rd rs1 imm).

Lemma bin_immediate_sim (o : RegAlloc.RegAllocator) (ps ps' pa : Asm.Program)
    (rd rs1 : string) (imm : Z) :
  Sim (RegAlloc.var_to_mem o) (RegAlloc.memory_counter o) ps pa →
  Asm.exec (op rd rs1 imm) ps = Ok ps' →
  ∃ out o',
    RegAlloc.bin_immediate o op rd rs1 imm = Ok (out, o')
    ∧ Forall sequential out
    ∧ RegAlloc.memory_counter o ≤ RegAlloc.memory_counter o'
    ∧ (RegAlloc.memory_counter o' < Z.of_nat (length (Asm.mem pa)) →
       ∃ pa', exec_list out pa = Ok pa'
              ∧ Sim (RegAlloc.var_to_mem o') (RegAlloc.memory_counter o') ps' pa').
Proof.
  intros Hsim Hexec. rewrite op_exec in Hexec.
  apply bind_Ok in Hexec as (a & Ha & [= <-]).
  unfold RegAlloc.bin_immediate.
  destruct (sim_dest_of o rd ps pa Hsim) as (Hsim1 & Hmono & Hslot).
  pose proof (dest_of_cases o rd) as Hdreg.
  destruct (RegAlloc.dest_of o rd) as [dreg o1]. simpl in Hsim1, Hmono, Hslot, Hdreg.
  destruct (load_ok o1 ps pa rs1 "a0" a Hsim1 Ha) as (r1 & ld1 & Hl1 & Hs1).
  destruct (store_ok o1 rd dreg Hslot) as (st & Hst & Hs3).
  exists ((([] ++ ld1) ++ [op dreg r1 imm]) ++ st), o1.
  split_and!.
  - rewrite Hl1. simpl. rewrite Hst. done.
  - rewrite !Forall_app. split_and!; try done. by repeat constructor.
  - done.
  - intros Hbound.
    assert (Ha0 : "a0" ∉ RegAlloc.DEFAULT_REGS).
    { rewrite default_regs_cases. intros [?|[?|?]]; discriminate. }
    destruct (load_run o1 ps pa rs1 "a0" r1 a ld1 Hsim1 Hbound Ha Ha0 Hl1)
      as (pa1 & He1 & Hr1 & Hm1 & Hsame1 & Hreg1).
    assert (Hsim2 : Sim (RegAlloc.var_to_mem o1) (RegAlloc.memory_counter o1) ps pa1).
    { eapply sim_scratch; [exact Hsim1 | exact Hm1 |].
      intros y Hy. apply Hsame1. intros ->. done. }
    assert (Hbound1 : RegAlloc.memory_counter o1 < Z.of_nat (length (Asm.mem pa1)))
      by (by rewrite Hm1).
    destruct (finish_run o1 ps pa1 rd dreg (f a imm) st Hsim2 Hbound1 Hslot Hdreg Hst)
      as (pa4 & He4 & Hsim4).
    exists pa4. split; [|done].
    rewrite !exec_list_app. simpl. rewrite He1. simpl.
    rewrite op_exec, Hr1. simpl. exact He4.
Qed.
End bin_immediate.

Lemma dest_of_counter (o : RegAlloc.RegAllocator) (rd : string) :
  RegAlloc.memory_counter o ≤ RegAlloc.memory_counter (RegAlloc.dest_of o rd).2
  ≤ RegAlloc.memory_counter o + 1.
Proof.
  destruct (dest_of_slots o rd) as [_ ->]. unfold RegAlloc._ensure_memory.
  destruct (decide _); simpl; lia.
Qed.

(** Each arithmetic instruction hands out at most one new slot. *)
Lemma arith_handler_counter (o o' : RegAlloc.RegAllocator) (prog_pc : Z)
    (i : Asm.Inst) (h : RegAlloc.handler) (out : list Asm.Inst) :
  arith i →
  RegAlloc.op_handlers (Asm.get_opcode i) = Some h →
  h o prog_pc i = Ok (out, o') →
  RegAlloc.memory_counter o ≤ RegAlloc.memory_counter o'
  ≤ RegAlloc.memory_counter o + 1.
Proof.
  intros Hi Hh Hrun. rewrite op_handlers_of in Hh.
  destruct i; simpl in Hi; try done; simplify_eq; simpl in Hrun;
    unfold RegAlloc.bin_immediate, RegAlloc.bin_standard in Hrun;
    pose proof (dest_of_counter o rd) as Hc;
    destruct (RegAlloc.dest_of o rd) as [dreg o1]; simpl in Hc;
    rename_cases; done.
Qed.

Lemma arith_step_sim (o : RegAlloc.RegAllocator) (prog_pc : Z)
    (ps ps' pa : Asm.Program) (i : Asm.Inst) :
  arith i →
  Sim (RegAlloc.var_to_mem o) (RegAlloc.memory_counter o) ps pa →
  Asm.exec i ps = Ok ps' →
  ∃ h out o',
    RegAlloc.op_handlers (Asm.get_opcode i) = Some h
    ∧ h o prog_pc i = Ok (out, o')
    ∧ Forall sequential out
    ∧ (RegAlloc.memory_counter o' < Z.of_nat (length (Asm.mem pa)) →
       ∃ pa', exec_list out pa = Ok pa'
              ∧ Sim (RegAlloc.var_to_mem o') (RegAlloc.memory_counter o') ps' pa').
Proof.
  intros Hi Hsim Hexec. rewrite op_handlers_of.
  destruct i; simpl in Hi; try done; eexists; simpl.
  - edestruct (bin_immediate_sim Asm.Addi Z.add) as (out & o' & H1 & H2 & _ & H3);
      [done | done | exact Hsim | exact Hexec |]. eauto 6.
  - edestruct (bin_immediate_sim Asm.Xori Z.lxor) as (out & o' & H1 & H2 & _ & H3);
      [done | done | exact Hsim | exact Hexec |]. eauto 6.
  - edestruct (bin_immediate_sim Asm.Slti (λ a imm, Asm.bool_to_Z (a <? imm)))
      as (out & o' & H1 & H2 & _ & H3);
      [done | done | exact Hsim | exact Hexec |]. eauto 6.
  - edestruct (bin_standard_sim Asm.Add (λ a b, Ok (a + b)))
      as (out & o' & H1 & H2 & _ & H3);
      [ intros; simpl; unfold_bind; by repeat case_match
      | done | exact Hsim | exact Hexec |]. eauto 6.
  - edestruct (bin_standard_sim Asm.Sub (λ a b, Ok (a - b)))
      as (out & o' & H1 & H2 & _ & H3);
      [ intros; simpl; unfold_bind; by repeat case_match
      | done | exact Hsim | exact Hexec |]. eauto 6.
  - edestruct (bin_standard_sim Asm.Mul (λ a b, Ok (a * b)))
      as (out & o' & H1 & H2 & _ & H3);
      [ intros; simpl; unfold_bind; by repeat case_match
      | done | exact Hsim | exact Hexec |]. eauto 6.
  - edestruct (bin_standard_sim Asm.Div
                 (λ a b, if decide (b = 0) then Raise ZeroDivisionError
                         else Ok (a `div` b)))
      as (out & o' & H1 & H2 & _ & H3);
      [ intros; simpl; unfold_bind; by repeat case_match
      | done | exact Hsim | exact Hexec |]. eauto 6.
  - edestruct (bin_standard_sim Asm.Xor (λ a b, Ok (Z.lxor a b)))
      as (out & o' & H1 & H2 & _ & H3);
      [ intros; simpl; unfold_bind; by repeat case_match
      | done | exact Hsim | exact Hexec |]. eauto 6.
  - edestruct (bin_standard_sim Asm.Slt (λ a b, Ok (Asm.bool_to_Z (a <? b))))
      as (out & o' & H1 & H2 & _ & H3);
      [ intros; simpl; unfold_bind; by repeat case_match
      | done | exact Hsim | exact Hexec |]. eauto 6.
Qed.

Lemma optimize_loop_counter (l : list Asm.Inst) :
  ∀ (o o' : RegAlloc.RegAllocator) (prog_pc : Z) (acc r : list Asm.Inst),
    Forall arith l →
    RegAlloc.optimize_loop o prog_pc l acc = Ok (r, o') →
    RegAlloc.memory_counter o ≤ RegAlloc.memory_counter o'
    ≤ RegAlloc.memory_counter o + Z.of_nat (length l).
Proof.
  induction l as [|i l IH]; intros o o' prog_pc acc r Harith H; simpl in H.
  - injection H as <- <-. simpl. lia.
  - apply Forall_cons in Harith as [Hi Harith].
    destruct (RegAlloc.op_handlers (Asm.get_opcode i)) as [h|] eqn:Hh.
    + apply bind_Ok in H as ([out1 o1] & H1 & H).
      pose proof (arith_handler_counter _ _ _ _ _ _ Hi Hh H1).
      apply IH in H; [|done]. simpl length. lia.
    + rewrite op_handlers_of in Hh. by destruct i.
Qed.

(** The pass completes on an arithmetic program that runs without fault;
    shown on a machine with memory to spare. *)
Lemma optimize_loop_ok (l : list Asm.Inst) :
  ∀ (o : RegAlloc.RegAllocator) (prog_pc : Z) (ps ps' pa : Asm.Program)
    (acc : list Asm.Inst),
    Forall arith l →
    Sim (RegAlloc.var_to_mem o) (RegAlloc.memory_counter o) ps pa →
    exec_list l ps = Ok ps' →
    RegAlloc.memory_counter o + Z.of_nat (length l) < Z.of_nat (length (Asm.mem pa)) →
    ∃ r o', RegAlloc.optimize_loop o prog_pc l acc = Ok (r, o').
Proof.
  induction l as [|i l IH]; intros o prog_pc ps ps' pa acc Harith Hsim Hexec Hbound;
    simpl in *.
  - eauto.
  - apply Forall_cons in Harith as [Hi Harith].
    apply bind_Ok in Hexec as (ps1 & Hexec1 & Hexec).
    destruct (arith_step_sim o prog_pc ps ps1 pa i Hi Hsim Hexec1)
      as (h & out1 & o1 & Hh & H1 & Hseq1 & Hrun1).
    rewrite Hh, H1. simpl.
    pose proof (arith_handler_counter _ _ _ _ _ _ Hi Hh H1) as Hc.
    destruct Hrun1 as (pa1 & He1 & Hsim1); [lia|].
    destruct (exec_list_sequential _ _ _ Hseq1 He1) as (_ & _ & Hmem).
    eapply IH; eauto. rewrite Hmem. lia.
Qed.

(** Running the allocated program keeps the two machines in step, as long
    as the last slot handed out lies inside the memory. *)
Lemma optimize_loop_run (l : list Asm.Inst) :
  ∀ (o o' : RegAlloc.RegAllocator) (prog_pc : Z) (ps ps' pa : Asm.Program)
    (acc r : list Asm.Inst),
    Forall arith l →
    Sim (RegAlloc.var_to_mem o) (RegAlloc.memory_counter o) ps pa →
    exec_list l ps = Ok ps' →
    RegAlloc.optimize_loop o prog_pc l acc = Ok (r, o') →
    RegAlloc.memory_counter o' < Z.of_nat (length (Asm.mem pa)) →
    ∃ out pa',
      r = acc ++ out ∧ Forall sequential out
      ∧ exec_list out pa = Ok pa'
      ∧ Sim (RegAlloc.var_to_mem o') (RegAlloc.memory_counter o') ps' pa'.
Proof.
  induction l as [|i l IH];
    intros o o' prog_pc ps ps' pa acc r Harith Hsim Hexec Hopt Hbound; simpl in *.
  - simplify_eq. exists [], pa. rewrite app_nil_r. done.
  - apply Forall_cons in Harith as [Hi Harith].
    apply bind_Ok in Hexec as (ps1 & Hexec1 & Hexec).
    destruct (arith_step_sim o prog_pc ps ps1 pa i Hi Hsim Hexec1)
      as (h & out1 & o1 & Hh & H1 & Hseq1 & Hrun1).
    rewrite Hh, H1 in Hopt. simpl in Hopt.
    pose proof (optimize_loop_counter _ _ _ _ _ _ Harith Hopt) as Hc.
    destruct Hrun1 as (pa1 & He1 & Hsim1); [lia|].
    destruct (exec_list_sequential _ _ _ Hseq1 He1) as (_ & _ & Hmem).
    destruct (IH _ _ _ _ _ _ _ _ Harith Hsim1 Hexec Hopt) as (out2 & pa' & -> & Hseq2 & He2 & Hsim');
      [by rewrite Hmem|].
    exists (out1 ++ out2), pa'. split_and!.
    + by rewrite app_assoc.
    + by apply Forall_app.
    + rewrite exec_list_app, He1. done.
    + done.
Qed.

(** The result of the generator is the name of a reference or a fresh
    variable [v1], [v2], ... *)
Lemma RA_gen_result (e : Expression) (g g' : RegAlloc.GenVisitor)
    (prog prog' : Asm.Program) (v : string) :
  RegAlloc.gen e g prog = Ok (v, g', prog') →
  (∃ x, e = Var x) ∨ (∃ n : nat, v = "v" +:+ pretty n).
Proof.
  destruct e; simpl; intros H; try (left; by eauto); right;
    try destruct kind; simpl in H; try discriminate H;
    unfold RegAlloc.visit_binary, RegAlloc.visit_unary, RegAlloc.next_var_name in H;
    simpl in H; rename_cases; eauto.
Qed.

Lemma RA_rename_not_reference (ids : path → N) (e e' : Expression) :
  RegAlloc.rename_variables ids e = Ok e' → ∀ x, e' ≠ Var x.
Proof.
  unfold RegAlloc.rename_variables. intros H x ->.
  destruct e; simpl in H; rename_cases; simplify_eq.
Qed.

Lemma fresh_variable_symbolic (n : nat) : symbolic ("v" +:+ pretty n).
Proof.
  unfold symbolic. rewrite default_regs_cases.
  rewrite string_app_cons_l. intros [?|[?|?]]; discriminate.
Qed.

(** Before anything has run, the two machines correspond: they start from
    the same registers and no variable holds a value yet. *)
Lemma sim_initial (M : nat) (l : list Asm.Inst) (pa : Asm.Program) :
  Asm.env pa = Asm.initial_regs M ∅ →
  Sim ∅ 0 (Asm.new_Program M ∅ l) pa.
Proof.
  intros Henv. split.
  - intros x _. unfold Asm.get_val. by rewrite Henv.
  - intros x z Hx. unfold Asm.get_val, Asm.new_Program, Asm.initial_regs. simpl.
    rewrite default_regs_cases in Hx.
    destruct (decide (x = "x0")); [tauto|].
    rewrite lookup_insert_ne by (intros <-; tauto).
    by rewrite lookup_empty.
  - intros x k. by rewrite lookup_empty.
  - intros x y k. by rewrite lookup_empty.
  - done.
Qed.

(** A pipeline whose allocated program is straight-line code that faults
    inside the machine yields no value, whatever the number of steps. *)
Lemma main_fails_on_fault (M : nat) (ids : path → N) (e : Expression) :
  match (exp ← RegAlloc.rename_variables ids e;
         '(var_answer, _, prog) ← RegAlloc.gen exp {| RegAlloc.next_var_counter := 0 |}
                                     (Asm.new_Program M ∅ []);
         '(opt, prog) ← RegAlloc.perform_register_allocation prog;
         Ok (opt, var_answer, Asm.reset_env prog)) with
  | Ok (_, _, p) =>
    forallb (λ i, bool_decide (sequential i)) (Asm.insts p) = true
    ∧ Asm.pc p = 0
    ∧ exec_list (Asm.insts p) p = Raise IndexError
  | Raise _ => True
  end →
  ∀ fuel, ¬ is_ok (RegAlloc.main M fuel ids e).
Proof.
  intros Hfacts fuel [z H]. unfold RegAlloc.main in H.
  unfold_bind.
  destruct (RegAlloc.rename_variables _ _) as [e'|]; [|done].
  destruct (RegAlloc.gen _ _ _) as [[[v g] prog]|]; [|done].
  destruct (RegAlloc.perform_register_allocation _) as [[o prog']|]; [|done].
  destruct Hfacts as (Hseq & Hpc & Hraise).
  destruct (Asm.eval fuel (Asm.reset_env prog')) as [final|] eqn:Heval; [|done].
  apply eval_whole_sequential in Heval; [congruence| |done].
  apply Forall_forall. intros i Hi. apply list_elem_of_In in Hi.
  rewrite forallb_forall in Hseq. specialize (Hseq i Hi).
  by apply bool_decide_eq_true in Hseq.
Qed.

(** C1 as stated fails in the configuration of the driver (1000 words of
    memory): the sum of 501 ones needs 1001 variables; the generated
    program computes 501, the allocated one stores to slot 1000, outside the
    memory, and yields no value whatever the number of steps allowed. *)
Lemma C1_counterexample :
  RegAlloc.main_symbolic 1000 1001 (λ _, 0%N) (ones 500) = Ok 501
  ∧ RegAlloc.main 1000 4000 (λ _, 0%N) (ones 500) = Raise IndexError
  ∧ ∀ fuel, ¬ is_ok (RegAlloc.main 1000 fuel (λ _, 0%N) (ones 500)).
Proof.
  split; [vm_compute; reflexivity | split; [vm_compute; reflexivity |]].
  apply main_fails_on_fault. vm_compute. split; [reflexivity | split; reflexivity].
Qed.

(** C1, amended.  Take the pipeline of the driver: an expression accepted
    by the renamer, the program [prog] generated for it on a machine with
    [M] words of memory, and its result variable [v].  If running [prog]
    leaves the value [z] in [v], then register allocation completes on
    [prog], and provided the spill slots it handed out (one per variable,
    numbered from 1) lie inside the memory, running the allocated program
    after resetting the variable table completes and the allocator reads
    the same [z] from the slot of [v]. *)
Theorem C1_allocation_preserves_result (M fuel : nat) (ids : path → N)
    (e e' : Expression) (v : string) (g : RegAlloc.GenVisitor)
    (prog final : Asm.Program) (z : Z) :
  RegAlloc.rename_variables ids e = Ok e' →
  RegAlloc.gen e' {| RegAlloc.next_var_counter := 0 |} (Asm.new_Program M ∅ [])
  = Ok (v, g, prog) →
  Asm.eval fuel prog = Ok final →
  Asm.get_val final v = Ok z →
  ∃ o prog',
    RegAlloc.perform_register_allocation prog = Ok (o, prog')
    ∧ (RegAlloc.memory_counter o < Z.of_nat M →
       ∃ fuel' final',
         Asm.eval fuel' (Asm.reset_env prog') = Ok final'
         ∧ RegAlloc.get_val o final' v = Ok z).
Proof.
  intros Hren Hgen Heval Hz.
  assert (Hv : symbolic v).
  { destruct (RA_gen_result _ _ _ _ _ _ Hgen) as [[x ->]|[n ->]].
    - by destruct (RA_rename_not_reference _ _ _ Hren x).
    - apply fresh_variable_symbolic. }
  change (Asm.new_Program M ∅ []) with (Asm.set_insts (Asm.new_Program M ∅ []) []) in Hgen.
  apply RA_gen_appends in Hgen as (code & -> & Harith). simpl app in *.
  assert (Hseq : Forall sequential code).
  { eapply Forall_impl; [exact Harith|]. apply arith_sequential. }
  apply eval_whole_sequential in Heval; [|done|done]. simpl in Heval.
  unfold RegAlloc.perform_register_allocation, RegAlloc.optimize. simpl.
  destruct (optimize_loop_ok code RegAlloc.new_RegAllocator 0
              (Asm.new_Program M ∅ code) final
              {| Asm.mem := replicate (S (length code)) 0;
                 Asm.env := Asm.initial_regs M ∅; Asm.insts := []; Asm.pc := 0 |}
              [] Harith) as (r & o & Hopt).
  { by apply sim_initial. }
  { exact Heval. }
  { simpl. rewrite length_replicate. lia. }
  rewrite Hopt. simpl. eexists _, _. split; [reflexivity|].
  intros Hbound.
  destruct (optimize_loop_run code RegAlloc.new_RegAllocator o 0
              (Asm.new_Program M ∅ code) final
              (Asm.reset_env (Asm.set_insts (Asm.set_insts (Asm.new_Program M ∅ []) code) r))
              [] r Harith) as (out & pa' & Hr & Hseq' & Hexec & Hsim).
  { apply sim_initial. simpl. by rewrite length_replicate. }
  { exact Heval. }
  { exact Hopt. }
  { simpl. by rewrite length_replicate. }
  simpl in Hr. subst r.
  exists (length out), pa'. split.
  - by apply (exec_list_eval
               (Asm.reset_env (Asm.set_insts (Asm.set_insts (Asm.new_Program M ∅ []) code) out))).
  - destruct Hsim as [_ Hvars Hslots _ _].
    destruct (Hvars v z Hv Hz) as (k & Hk & Hm).
    unfold RegAlloc.get_val. rewrite Hk. unfold Asm.get_mem.
    destruct (exec_list_sequential _ _ _ Hseq' Hexec) as (_ & _ & Hlen).
    simpl in Hlen. rewrite length_replicate in Hlen.
    destruct (Hslots _ _ Hk) as [Hk1 _].
    destruct (decide (0 ≤ k < Z.of_nat (length (Asm.mem pa')))); [|lia].
    by rewrite Hm.
Qed.

Lemma C1_witness :
  ∃ o prog',
    RegAlloc.perform_register_allocation
      (Asm.set_insts (Asm.new_Program 1000 ∅ [])
         [Asm.Addi "v1" "x0" 21; Asm.Add "v_7" "x0" "v1";
          Asm.Add "v3" "v_7" "v_7"; Asm.Add "v2" "x0" "v3"]) = Ok (o, prog')
    ∧ (RegAlloc.memory_counter o < Z.of_nat 1000 →
       ∃ fuel' final',
         Asm.eval fuel' (Asm.reset_env prog') = Ok final'
         ∧ RegAlloc.get_val o final' "v2" = Ok 42).
Proof.
  refine (C1_allocation_preserves_result 1000 4 (λ _, 7%N)
            (Let "v" (Num 21) (Add (Var "v") (Var "v")))
            (Let "v_7" (Num 21) (Add (Var "v_7") (Var "v_7")))
            "v2" {| RegAlloc.next_var_counter := 3 |}
            (Asm.set_insts (Asm.new_Program 1000 ∅ [])
               [Asm.Addi "v1" "x0" 21; Asm.Add "v_7" "x0" "v1";
                Asm.Add "v3" "v_7" "v_7"; Asm.Add "v2" "x0" "v3"])
            (Asm.set_pc
               (Asm.set_insts
                  {| Asm.mem := replicate 1000 0;
                     Asm.env := <["v2" := 42]> (<["v3" := 42]> (<["v_7" := 21]>
                                  (<["v1" := 21]> (Asm.initial_regs 1000 ∅))));
                     Asm.insts := []; Asm.pc := 0 |}
                  [Asm.Addi "v1" "x0" 21; Asm.Add "v_7" "x0" "v1";
                   Asm.Add "v3" "v_7" "v_7"; Asm.Add "v2" "x0" "v3"]) 4)
            42 _ _ _ _);
    vm_compute; reflexivity.
Defined.

(** * Further properties of the sources *)

(** ** EvalVisitor: evaluation and the renamers *)

(** [None] and the empty dictionary are the same environment. *)
Lemma accept_None (e : Expression) :
  EvalVisitor.accept e None = EvalVisitor.accept e (Some ∅).
Proof.
  induction e; try destruct kind; simpl; try done;
    repeat match goal with
    | IH : EvalVisitor.accept ?e None = _ |- _ => rewrite IH; clear IH
    end; done.
Qed.

Lemma fresh_for_inj (x z y : string) : fresh_for x y → fresh_for z y → x = z.
Proof.
  intros (d & -> & Hd) (d' & Heq & Hd').
  by apply underscore_split in Heq as [-> _].
Qed.

Lemma RA_fresh_for (x : string) (n : N) : fresh_for x (RegAlloc.fresh_name x n).
Proof. exists (pretty n). split; [done | apply pretty_N_no_underscore]. Qed.

Lemma CF_fresh_for (x : string) (n : nat) : fresh_for x (ControlFlow.fresh_name x n).
Proof. exists (pretty n). split; [done | apply pretty_nat_no_underscore]. Qed.

Lemma env_renamed_empty (env env' : gmap string EvalVisitor.value) :
  env_renamed ∅ env env'.
Proof. intros x y H. by rewrite lookup_empty in H. Qed.

Lemma env_renamed_insert (m : gmap string string)
    (env env' : gmap string EvalVisitor.value) (x y : string)
    (v : EvalVisitor.value) :
  env_renamed m env env' → fresh_for x y →
  env_renamed (<[x := y]> m) (<[x := v]> env) (<[y := v]> env').
Proof.
  intros H Hf z w Hz. destruct (decide (z = x)) as [->|Hne].
  - rewrite lookup_insert_eq in Hz. injection Hz as <-.
    split; [done|]. exists v. by rewrite !lookup_insert_eq.
  - rewrite lookup_insert_ne in Hz by done.
    destruct (H z w Hz) as (Hfw & u & Hu & Hu').
    split; [done|]. exists u. rewrite !lookup_insert_ne; [done| |done].
    intros <-. apply Hne. eauto using fresh_for_inj.
Qed.

Lemma RA_rename_eval (e : Expression) :
  ∀ (ids : path → N) (m : gmap string string) (e' : Expression)
    (env env' : gmap string EvalVisitor.value),
    RegAlloc.rename ids e m = Ok e' → env_renamed m env env' →
    EvalVisitor.accept e' (Some env') = EvalVisitor.accept e (Some env).
Proof.
  induction e; intros ids m e' env env' H Hrel; simpl in H; rename_cases; simpl;
    repeat match goal with
    | IH : ∀ ids m e' env env', RegAlloc.rename ids ?e m = Ok e' → _,
      H : RegAlloc.rename _ ?e ?m = Ok _, Hrel : env_renamed ?m _ _ |- _ =>
      rewrite (IH _ _ _ _ _ H Hrel); clear IH
    end;
    try done.
  - by destruct (Hrel _ _ Heqo) as (_ & v & -> & ->).
  - destruct (EvalVisitor.accept e1 (Some env)) as [v|]; [simpl|done].
    eapply IHe2; [eassumption|].
    apply env_renamed_insert; [done | apply RA_fresh_for].
Qed.

Lemma CF_rename_eval (e : Expression) :
  ∀ (m : gmap string string) (c c' : nat) (e' : Expression)
    (env env' : gmap string EvalVisitor.value),
    ControlFlow.rename e m c = Ok (e', c') → env_renamed m env env' →
    (∀ x, x ∈ free_vars e → is_Some (m !! x)) →
    EvalVisitor.accept e' (Some env') = EvalVisitor.accept e (Some env).
Proof.
  induction e; intros m c c' e' env env' H Hrel Hfv; simpl in H, Hfv;
    rename_cases; simpl;
    repeat match goal with
    | IH : ∀ m c c' e' env env', ControlFlow.rename ?e m c = Ok (e', c') → _,
      H : ControlFlow.rename ?e ?m _ = Ok _, Hrel : env_renamed ?m _ _ |- _ =>
      rewrite (IH _ _ _ _ _ _ H Hrel)
        by (intros ? ?; apply Hfv; rewrite ?elem_of_app; auto);
      clear IH
    end;
    try done.
  - by destruct (Hrel _ _ Heqo) as (_ & v & -> & ->).
  - destruct (Hfv identifier) as [y Hy]; [by left | congruence].
  - destruct (EvalVisitor.accept e1 (Some env)) as [v|]; [simpl|done].
    eapply IHe2; [eassumption| |].
    + apply env_renamed_insert; [done | apply CF_fresh_for].
    + intros x Hx. destruct (decide (x = identifier)) as [->|Hne].
      * by rewrite lookup_insert_eq.
      * rewrite lookup_insert_ne by done. apply Hfv.
        apply elem_of_app. right. by apply list_elem_of_filter.
Qed.

(** X1.  Renaming does not change what an expression evaluates to: when
    the renamer of CodeGenForRegisterAllocation accepts [e] and returns
    [e'], the evaluator gives the same outcome (the same value, or the same
    exception) on [e'] as on [e], from [None] as from the empty dictionary,
    whatever the identities of the [Let] objects. *)
Theorem rename_variables_preserves_evaluation (ids : path → N) (e e' : Expression) :
  RegAlloc.rename_variables ids e = Ok e' →
  EvalVisitor.accept e' None = EvalVisitor.accept e None
  ∧ EvalVisitor.accept e' (Some ∅) = EvalVisitor.accept e (Some ∅).
Proof.
  intros H. rewrite !accept_None.
  split; apply (RA_rename_eval _ _ _ _ _ _ H), env_renamed_empty.
Qed.

Lemma rename_variables_preserves_evaluation_witness :
  EvalVisitor.accept (Let "x_7" (Num 2) (Add (Var "x_7") (Num 3))) None
  = EvalVisitor.accept (Let "x" (Num 2) (Add (Var "x") (Num 3))) None
  ∧ EvalVisitor.accept (Let "x_7" (Num 2) (Add (Var "x_7") (Num 3))) (Some ∅)
    = EvalVisitor.accept (Let "x" (Num 2) (Add (Var "x") (Num 3))) (Some ∅).
Proof.
  apply (rename_variables_preserves_evaluation (λ _, 7%N)). vm_compute. reflexivity.
Defined.

(** X2.  The renamer of ControlFlow, started from the empty map and any
    counter value, does not change what a closed expression evaluates to. *)
Theorem CF_rename_preserves_evaluation (c c' : nat) (e e' : Expression) :
  ControlFlow.rename e ∅ c = Ok (e', c') → free_vars e = [] →
  EvalVisitor.accept e' None = EvalVisitor.accept e None.
Proof.
  intros H Hclosed. rewrite !accept_None.
  apply (CF_rename_eval _ _ _ _ _ _ _ H); [apply env_renamed_empty|].
  intros x Hx. rewrite Hclosed in Hx. by apply elem_of_nil in Hx.
Qed.

Lemma CF_rename_preserves_evaluation_witness :
  EvalVisitor.accept
    (Let "x_1" (Let "x_0" (Num 2) (Add (Var "x_0") (Num 3)))
       (IfThenElse (And (Lth (Var "x_1") (Num 6)) (Bln true))
          (Mul (Var "x_1") (Num 10)) (Num 0))) None
  = EvalVisitor.accept
      (Let "x" (Let "x" (Num 2) (Add (Var "x") (Num 3)))
         (IfThenElse (And (Lth (Var "x") (Num 6)) (Bln true))
            (Mul (Var "x") (Num 10)) (Num 0))) None.
Proof.
  apply (CF_rename_preserves_evaluation 0 2); vm_compute; reflexivity.
Defined.

(** X3.  On an expression that is not closed the renamer of ControlFlow
    can change the outcome: it leaves an unbound reference alone, and the
    fresh name it gives a [Let] may be that very name.  In
    [let x <- n in x_c end] renamed with the counter at [c], the reference
    [x_c] is unbound before renaming (evaluation raises NameError) and bound
    to the [Let] afterwards (evaluation returns [n]). *)
Theorem CF_rename_captures_free_reference (x : string) (n : Z) (c : nat) :
  let e := Let x (Num n) (Var (ControlFlow.fresh_name x c)) in
  let e' := Let (ControlFlow.fresh_name x c) (Num n) (Var (ControlFlow.fresh_name x c)) in
  ControlFlow.rename e ∅ c = Ok (e', S c)
  ∧ EvalVisitor.accept e None
    = Raise (EvalVisitor.not_defined (ControlFlow.fresh_name x c))
  ∧ EvalVisitor.accept e' None = Ok (EvalVisitor.VNum n).
Proof.
  simpl. split_and!.
  - rewrite lookup_insert_ne; [by rewrite lookup_empty|].
    intros Heq. by apply (fresh_name_neq x (pretty c)).
  - rewrite lookup_insert_ne; [by rewrite lookup_empty|].
    intros Heq. by apply (fresh_name_neq x (pretty c)).
  - by rewrite lookup_insert_eq.
Qed.







Lemma accept_agree (e : Expression) :
  ∀ env env' : gmap string EvalVisitor.value,
    (∀ x, x ∈ free_vars e → env !! x = env' !! x) →
    EvalVisitor.accept e (Some env) = EvalVisitor.accept e (Some env').
Proof.
  induction e; intros env env' Hfv; simpl in Hfv |- *; try done.
  - by rewrite (Hfv identifier) by by left.
  - rewrite (IHe1 env env') by (intros; apply Hfv; apply elem_of_app; by left).
    rewrite (IHe2 env env') by (intros; apply Hfv; apply elem_of_app; by right).
    done.
  - by rewrite (IHe env env').
  - rewrite (IHe1 env env') by (intros; apply Hfv; apply elem_of_app; by left).
    destruct (EvalVisitor.accept e1 (Some env')) as [v|]; [simpl|done].
    apply IHe2. intros x Hx. destruct (decide (x = identifier)) as [->|Hne].
    + by rewrite !lookup_insert_eq.
    + rewrite !lookup_insert_ne by done. apply Hfv.
      apply elem_of_app. right. by apply list_elem_of_filter.
  - rewrite (IHe1 env env'), (IHe2 env env'), (IHe3 env env');
      [done | | |]; intros; apply Hfv; rewrite !elem_of_app; auto.
Qed.

(** X6.  The outcome of an evaluation depends on the environment only
    through the free variables of the expression: a [Let] extends a copy of
    the dictionary, so bindings of other names, and bindings shadowed by the
    expression itself, do not matter. *)
Theorem evaluation_depends_on_free_variables (e : Expression)
    (env env' : gmap string EvalVisitor.value) :
  (∀ x, x ∈ free_vars e → env !! x = env' !! x) →
  EvalVisitor.accept e (Some env) = EvalVisitor.accept e (Some env').
Proof. apply accept_agree. Qed.

Lemma evaluation_depends_on_free_variables_witness :
  EvalVisitor.accept (Let "x" (Var "y") (Add (Var "x") (Var "y")))
    (Some {[ "y" := EvalVisitor.VNum 3; "x" := EvalVisitor.VBln true ]})
  = EvalVisitor.accept (Let "x" (Var "y") (Add (Var "x") (Var "y")))
      (Some {[ "y" := EvalVisitor.VNum 3; "z" := EvalVisitor.VNum 9 ]}).
Proof.
  apply evaluation_depends_on_free_variables.
  intros x Hx. assert (Hy : x ∈ ["y"; "y"]) by exact Hx.
  rewrite !elem_of_cons, elem_of_nil in Hy.
  destruct Hy as [->|[->|[]]]; reflexivity.
Defined.

(** ** The register allocator: the slot table *)

Lemma ensure_memory_wf (o : RegAlloc.RegAllocator) (x : string) :
  slots_wf o → slots_wf (RegAlloc._ensure_memory o x).
Proof.
  intros (Hr & Hi & Hc). unfold RegAlloc._ensure_memory.
  destruct (decide _) as [[Hx Hm]|]; [|done].
  split_and!; simpl.
  - intros y k Hy. destruct (decide (y = x)) as [->|Hne].
    + rewrite lookup_insert_eq in Hy. injection Hy as <-.
      split; [lia | done].
    + rewrite lookup_insert_ne in Hy by done.
      destruct (Hr y k Hy). split; [lia | done].
  - intros y z k Hy Hz.
    destruct (decide (y = x)) as [->|Hy'], (decide (z = x)) as [->|Hz'];
      try done.
    + rewrite lookup_insert_eq in Hy. rewrite lookup_insert_ne in Hz by done.
      injection Hy as <-. destruct (Hr z _ Hz). lia.
    + rewrite lookup_insert_eq in Hz. rewrite lookup_insert_ne in Hy by done.
      injection Hz as <-. destruct (Hr y _ Hy). lia.
    + rewrite lookup_insert_ne in Hy, Hz by done. eauto.
  - rewrite map_size_insert_None by done. lia.
Qed.

Lemma dest_of_wf (o : RegAlloc.RegAllocator) (rd : string) :
  slots_wf o → slots_wf (RegAlloc.dest_of o rd).2.
Proof.
  intros H. apply (ensure_memory_wf _ rd) in H. unfold RegAlloc.dest_of.
  by destruct (decide _).
Qed.

Lemma dest_of_var_to_mem (o : RegAlloc.RegAllocator) (rd : string) :
  RegAlloc.var_to_mem (RegAlloc.dest_of o rd).2
  = RegAlloc.var_to_mem (RegAlloc._ensure_memory o rd).
Proof. unfold RegAlloc.dest_of. by destruct (decide _). Qed.

Lemma dest_of_subseteq (o : RegAlloc.RegAllocator) (rd : string) :
  RegAlloc.var_to_mem o ⊆ RegAlloc.var_to_mem (RegAlloc.dest_of o rd).2.
Proof.
  rewrite dest_of_var_to_mem. unfold RegAlloc._ensure_memory.
  destruct (decide _) as [[_ Hm]|]; [simpl|done].
  by apply insert_subseteq.
Qed.

Lemma dest_of_dom (o : RegAlloc.RegAllocator) (rd : string) :
  dom (RegAlloc.var_to_mem (RegAlloc.dest_of o rd).2)
  = if decide (symbolic rd) then dom (RegAlloc.var_to_mem o) ∪ {[rd]}
    else dom (RegAlloc.var_to_mem o).
Proof.
  rewrite dest_of_var_to_mem. unfold RegAlloc._ensure_memory, symbolic.
  destruct (decide (_ ∧ _)) as [[Hx Hm]|Hn]; simpl.
  - rewrite decide_True by done. rewrite dom_insert_L. set_solver.
  - destruct (decide (rd ∉ RegAlloc.DEFAULT_REGS)) as [Hx|]; [|done].
    assert (is_Some (RegAlloc.var_to_mem o !! rd)) as Hs.
    { destruct (RegAlloc.var_to_mem o !! rd) eqn:E; [by eexists | tauto]. }
    apply elem_of_dom in Hs. set_solver.
Qed.

Lemma alloc_state_wf (o : RegAlloc.RegAllocator) (i : Asm.Inst) :
  slots_wf o → slots_wf (alloc_state o i).
Proof. unfold alloc_state. destruct (dest i); [apply dest_of_wf | done]. Qed.

Lemma alloc_state_subseteq (o : RegAlloc.RegAllocator) (i : Asm.Inst) :
  RegAlloc.var_to_mem o ⊆ RegAlloc.var_to_mem (alloc_state o i).
Proof. unfold alloc_state. destruct (dest i); [apply dest_of_subseteq | done]. Qed.

Lemma alloc_state_dom (o : RegAlloc.RegAllocator) (i : Asm.Inst) :
  dom (RegAlloc.var_to_mem (alloc_state o i))
  = defined_after (dom (RegAlloc.var_to_mem o)) i.
Proof.
  unfold alloc_state, defined_after. destruct (dest i); [apply dest_of_dom | done].
Qed.

(** The allocator a handler returns is the one its bookkeeping leaves. *)
Lemma handler_state (o o' : RegAlloc.RegAllocator) (prog_pc : Z)
    (i : Asm.Inst) (h : RegAlloc.handler) (out : list Asm.Inst) :
  RegAlloc.op_handlers (Asm.get_opcode i) = Some h →
  h o prog_pc i = Ok (out, o') →
  o' = alloc_state o i.
Proof.
  intros Hh Hrun. rewrite op_handlers_of in Hh. unfold alloc_state.
  destruct i; simpl in Hh |- *;
    try (unfold RegAlloc.op_handlers in Hh;
         repeat (destruct (decide _) in Hh); simplify_eq; discriminate Hrun);
    simplify_eq;
    unfold RegAlloc.handle_bin_immediate, RegAlloc.handle_bin_standard,
      RegAlloc.handle_jump, RegAlloc.handle_branch, RegAlloc.handle_memory_op,
      RegAlloc.bin_immediate, RegAlloc.bin_standard in Hrun;
    repeat match goal with
    | H : _ ≫= _ = Ok _ |- _ => apply bind_Ok in H as (? & ? & H)
    | H : (let '(_, _) := ?p in _) = Ok _ |- _ => destruct p eqn:?
    | H : Ok _ = Ok _ |- _ => injection H as <- <-
    | H : Raise _ = Ok _ |- _ => discriminate H
    | H : match ?x with _ => _ end = Ok _ |- _ => destruct x eqn:?
    end;
    try done;
    repeat match goal with
    | H : RegAlloc.dest_of _ _ = _ |- _ => rewrite H; clear H
    end; done.
Qed.

Lemma load_total (o : RegAlloc.RegAllocator) (x t : string) (l : list Asm.Inst) :
  (symbolic x → is_Some (RegAlloc.var_to_mem o !! x)) →
  ∃ r l', RegAlloc._load o x t l = Ok (r, l').
Proof.
  unfold RegAlloc._load, symbolic. intros H.
  destruct (decide (x ∈ RegAlloc.DEFAULT_REGS)); [by eauto|].
  destruct (H ltac:(done)) as [k ->]. by eauto.
Qed.

Lemma store_total (o : RegAlloc.RegAllocator) (x s : string) (l : list Asm.Inst) :
  (symbolic x → is_Some (RegAlloc.var_to_mem o !! x)) →
  ∃ l', RegAlloc._store o x s l = Ok l'.
Proof.
  unfold RegAlloc._store, symbolic. intros H.
  destruct (decide (x ∉ RegAlloc.DEFAULT_REGS)); [|by eauto].
  destruct (H ltac:(done)) as [k ->]. by eauto.
Qed.

Lemma dest_of_slot (o : RegAlloc.RegAllocator) (rd : string) :
  symbolic rd → is_Some (RegAlloc.var_to_mem (RegAlloc.dest_of o rd).2 !! rd).
Proof.
  intros H. apply elem_of_dom. rewrite dest_of_dom, decide_True by done.
  set_solver.
Qed.

Lemma handler_ok (o : RegAlloc.RegAllocator) (prog_pc : Z)
    (i : Asm.Inst) (h : RegAlloc.handler) :
  RegAlloc.op_handlers (Asm.get_opcode i) = Some h →
  (∀ op, i ≠ Asm.Other op) →
  (∀ x, x ∈ reads i → symbolic x →
        is_Some (RegAlloc.var_to_mem (alloc_state o i) !! x)) →
  is_ok (h o prog_pc i).
Proof.
  intros Hh Hclass Hreads. rewrite op_handlers_of in Hh. unfold alloc_state in Hreads.
  destruct i; simpl in Hh, Hreads; try (by destruct (Hclass opcode));
    simplify_eq;
    unfold RegAlloc.handle_bin_immediate, RegAlloc.handle_bin_standard,
      RegAlloc.handle_jump, RegAlloc.handle_branch, RegAlloc.handle_memory_op,
      RegAlloc.bin_immediate, RegAlloc.bin_standard, is_ok;
    try match goal with
    | |- context [RegAlloc.dest_of o ?rd] =>
      pose proof (dest_of_slot o rd) as Hslot;
      destruct (RegAlloc.dest_of o rd) as [dreg o1] eqn:Hd; simpl in Hslot, Hreads
    end;
    repeat match goal with
    | |- context [if decide (?rd ∉ RegAlloc.DEFAULT_REGS) then _ else _] =>
      destruct (decide (rd ∉ RegAlloc.DEFAULT_REGS)) as [Hsym|?];
      [destruct (Hslot Hsym) as [? ->]|]; simpl
    | |- context [RegAlloc._load ?o ?x ?t ?l] =>
      destruct (load_total o x t l) as (? & ? & ->);
      [intros; apply Hreads; [rewrite !elem_of_cons; tauto | done] |]; simpl
    | |- context [RegAlloc._store ?o ?x ?t ?l] =>
      destruct (store_total o x t l) as (? & ->); [done|]; simpl
    end;
    by eauto.
Qed.

Lemma handler_ok_inv (o : RegAlloc.RegAllocator) (prog_pc : Z)
    (i : Asm.Inst) (h : RegAlloc.handler) :
  RegAlloc.op_handlers (Asm.get_opcode i) = Some h →
  is_ok (h o prog_pc i) →
  (∀ op, i ≠ Asm.Other op)
  ∧ (∀ x, x ∈ reads i → symbolic x →
          is_Some (RegAlloc.var_to_mem (alloc_state o i) !! x)).
Proof.
  intros Hh [[out o'] Hrun]. split.
  - intros op ->. simpl in Hh. unfold RegAlloc.op_handlers in Hh.
    repeat (destruct (decide _) in Hh); simplify_eq; discriminate Hrun.
  - intros x Hx Hsym. unfold alloc_state.
    destruct (decide (dest i = Some x)) as [->|Hne].
    + by apply dest_of_slot.
    + destruct (RegAlloc.var_to_mem o !! x) as [k|] eqn:Hm.
      * assert (RegAlloc.var_to_mem o ⊆ RegAlloc.var_to_mem (alloc_state o i)) as Hsub
          by apply alloc_state_subseteq.
        exists k. by eapply lookup_weaken.
      * destruct (handler_raises_on_unallocated o prog_pc i x h Hsym Hm Hx Hne Hh)
          as [e He]. congruence.
Qed.

Lemma optimize_loop_state (l : list Asm.Inst) :
  ∀ (o o' : RegAlloc.RegAllocator) (prog_pc : Z) (acc r : list Asm.Inst),
    RegAlloc.optimize_loop o prog_pc l acc = Ok (r, o') →
    (slots_wf o → slots_wf o')
    ∧ RegAlloc.var_to_mem o ⊆ RegAlloc.var_to_mem o'
    ∧ ∀ x, x ∈ dom (RegAlloc.var_to_mem o') ↔
           x ∈ dom (RegAlloc.var_to_mem o)
           ∨ symbolic x ∧ ∃ i, i ∈ l ∧ Asm.get_opcode i ∈ handled_opcodes
                              ∧ dest i = Some x.
Proof.
  induction l as [|i l IH]; intros o o' prog_pc acc r H; simpl in H.
  - injection H as <- <-. split_and!; [done | done |].
    intros x. split; [by left|]. intros [?|(_ & i & Hi & _)]; [done|].
    by apply elem_of_nil in Hi.
  - destruct (RegAlloc.op_handlers (Asm.get_opcode i)) as [h|] eqn:Hh.
    + apply bind_Ok in H as ([out o1] & H1 & H).
      pose proof (handler_state _ _ _ _ _ _ Hh H1) as ->.
      apply IH in H as (Hwf & Hsub & Hdom). split_and!.
      * intros Ho. by apply Hwf, alloc_state_wf.
      * etrans; [apply alloc_state_subseteq | done].
      * intros x. rewrite Hdom, alloc_state_dom. unfold defined_after.
        assert (Hhandled : Asm.get_opcode i ∈ handled_opcodes).
        { destruct (decide (Asm.get_opcode i ∈ handled_opcodes)); [done|].
          rewrite op_handlers_unhandled in Hh by done. discriminate Hh. }
        split.
        -- intros [Hx|(Hs & j & Hj & Hjh & Hjd)].
           ++ destruct (dest i) as [rd|] eqn:Hd; [|by left].
              destruct (decide (symbolic rd)); [|by left].
              apply elem_of_union in Hx as [Hx|Hx]; [by left|].
              apply elem_of_singleton in Hx as ->.
              right. split; [done|]. exists i. split_and!; [by left|done|done].
           ++ right. split; [done|]. exists j. split_and!; [by right|done|done].
        -- intros [Hx|(Hs & j & Hj & Hjh & Hjd)].
           ++ left. destruct (dest i) as [rd|]; [|done].
              destruct (decide (symbolic rd)); [|done]. set_solver.
           ++ apply elem_of_cons in Hj as [->|Hj].
              ** left. rewrite Hjd, decide_True by done. set_solver.
              ** right. split; [done|]. by exists j.
    + apply IH in H as (Hwf & Hsub & Hdom). split_and!; [done | done |].
      intros x. rewrite Hdom. split.
      * intros [?|(Hs & j & Hj & Hjh & Hjd)]; [by left|].
        right. split; [done|]. exists j. split_and!; [by right|done|done].
      * intros [?|(Hs & j & Hj & Hjh & Hjd)]; [by left|].
        apply elem_of_cons in Hj as [->|Hj].
        -- apply op_handlers_handled in Hjh as [h' Hh']. congruence.
        -- right. split; [done|]. by exists j.
Qed.

Lemma new_RegAllocator_wf : slots_wf RegAlloc.new_RegAllocator.
Proof.
  split_and!; simpl; try (intros ???; by rewrite lookup_empty).
  - intros ??. by rewrite lookup_empty.
  - by rewrite map_size_empty.
Qed.

(** X7.  When register allocation completes, the slot table it leaves is
    well formed: only variables other than [x0], [sp] and [ra] have a
    slot, every slot lies between 1 and [memory_counter] (address 0 is never
    handed out), no two variables share a slot, and [memory_counter] is the
    number of variables that have one. *)
Theorem allocation_slot_table (prog prog' : Asm.Program) (o : RegAlloc.RegAllocator) :
  RegAlloc.perform_register_allocation prog = Ok (o, prog') →
  (∀ x k, RegAlloc.var_to_mem o !! x = Some k →
          1 ≤ k ≤ RegAlloc.memory_counter o ∧ (x ∉ RegAlloc.DEFAULT_REGS))
  ∧ (∀ x y k, RegAlloc.var_to_mem o !! x = Some k →
              RegAlloc.var_to_mem o !! y = Some k → x = y)
  ∧ RegAlloc.memory_counter o = Z.of_nat (size (RegAlloc.var_to_mem o)).
Proof.
  unfold RegAlloc.perform_register_allocation, RegAlloc.optimize. intros H.
  apply bind_Ok in H as ([r o1] & H & Heq). injection Heq as -> <-.
  apply optimize_loop_state in H as (Hwf & _ & _).
  exact (Hwf new_RegAllocator_wf).
Qed.

Lemma allocation_slot_table_witness :
  let o := {| RegAlloc.memory_counter := 2;
              RegAlloc.var_to_mem := {[ "a" := 1; "b" := 2 ]};
              RegAlloc.var_to_reg := {[ "a" := "a0"; "b" := "a0" ]} |} in
  (∀ x k, RegAlloc.var_to_mem o !! x = Some k →
          1 ≤ k ≤ RegAlloc.memory_counter o ∧ (x ∉ RegAlloc.DEFAULT_REGS))
  ∧ (∀ x y k, RegAlloc.var_to_mem o !! x = Some k →
              RegAlloc.var_to_mem o !! y = Some k → x = y)
  ∧ RegAlloc.memory_counter o = Z.of_nat (size (RegAlloc.var_to_mem o)).
Proof.
  apply (allocation_slot_table
           (Asm.new_Program 1000 ∅ [Asm.Addi "a" "x0" 1; Asm.Slti "b" "a" 2])
           (Asm.new_Program 1000 ∅
              [Asm.Addi "a0" "x0" 1; Asm.Sw "x0" 1 "a0";
               Asm.Lw "x0" 1 "a0"; Asm.Slti "a0" "a0" 2; Asm.Sw "x0" 2 "a0"])).
  vm_compute. reflexivity.
Defined.

(** X8.  When register allocation completes, the variables that have a
    slot are exactly the names, other than [x0], [sp] and [ra], that some
    instruction with a handled opcode defines ([rd], or [reg] of a load). *)
Theorem allocation_slots_domain (prog prog' : Asm.Program)
    (o : RegAlloc.RegAllocator) (x : string) :
  RegAlloc.perform_register_allocation prog = Ok (o, prog') →
  (is_Some (RegAlloc.var_to_mem o !! x) ↔
   (x ∉ RegAlloc.DEFAULT_REGS)
   ∧ ∃ i, i ∈ Asm.get_insts prog ∧ Asm.get_opcode i ∈ handled_opcodes
          ∧ dest i = Some x).
Proof.
  unfold RegAlloc.perform_register_allocation, RegAlloc.optimize. intros H.
  apply bind_Ok in H as ([r o1] & H & Heq). injection Heq as -> <-.
  apply optimize_loop_state in H as (_ & _ & Hdom).
  rewrite <- elem_of_dom, Hdom. simpl. rewrite dom_empty_L.
  split; [intros [Hx|Hx]; [by apply elem_of_empty in Hx | done] | by right].
Qed.

Lemma allocation_slots_domain_witness :
  is_Some (({[ "a" := 1; "b" := 2 ]} : gmap string Z) !! "b") ↔
  ("b" ∉ RegAlloc.DEFAULT_REGS)
  ∧ ∃ i, i ∈ [Asm.Addi "a" "x0" 1; Asm.Slti "b" "a" 2]
         ∧ Asm.get_opcode i ∈ handled_opcodes ∧ dest i = Some "b".
Proof.
  refine (allocation_slots_domain
           (Asm.new_Program 1000 ∅ [Asm.Addi "a" "x0" 1; Asm.Slti "b" "a" 2])
           (Asm.new_Program 1000 ∅
              [Asm.Addi "a0" "x0" 1; Asm.Sw "x0" 1 "a0";
               Asm.Lw "x0" 1 "a0"; Asm.Slti "a0" "a0" 2; Asm.Sw "x0" 2 "a0"])
           {| RegAlloc.memory_counter := 2;
              RegAlloc.var_to_mem := {[ "a" := 1; "b" := 2 ]};
              RegAlloc.var_to_reg := {[ "a" := "a0"; "b" := "a0" ]} |} "b" _).
  vm_compute. reflexivity.
Defined.

Lemma optimize_loop_ok_iff (l : list Asm.Inst) :
  ∀ (o : RegAlloc.RegAllocator) (prog_pc : Z) (acc : list Asm.Inst),
    is_ok (RegAlloc.optimize_loop o prog_pc l acc)
    ↔ def_before_use (dom (RegAlloc.var_to_mem o)) l.
Proof.
  induction l as [|i l IH]; intros o prog_pc acc; simpl.
  - split; [done | intros _; by eexists].
  - destruct (decide (Asm.get_opcode i ∈ handled_opcodes)) as [Hh|Hh].
    + destruct (op_handlers_handled _ Hh) as [h Hop]. rewrite Hop.
      rewrite <- alloc_state_dom. split.
      * intros [[r o'] H]. apply bind_Ok in H as ([out o1] & H1 & H).
        pose proof (handler_state _ _ _ _ _ _ Hop H1) as ->.
        destruct (handler_ok_inv o prog_pc i h Hop) as [Hc Hr]; [by eexists|].
        split_and!; [done | |].
        -- intros x Hx Hs. apply elem_of_dom. by apply Hr.
        -- apply (IH _ prog_pc (acc ++ out)). by eexists.
      * intros (Hc & Hr & Hrest).
        destruct (handler_ok o prog_pc i h Hop Hc) as [[out o1] H1].
        { intros x Hx Hs. apply elem_of_dom. by apply Hr. }
        rewrite H1. simpl.
        pose proof (handler_state _ _ _ _ _ _ Hop H1) as ->.
        by apply IH.
    + rewrite op_handlers_unhandled by done. apply IH.
Qed.

(** X9.  Register allocation completes exactly on the programs in which
    every instruction with a handled opcode is of the class the opcode
    announces and reads only [x0], [sp], [ra] and variables defined by an
    earlier handled instruction or by the instruction itself; on every other
    program it raises. *)
Theorem allocation_succeeds_iff (prog : Asm.Program) :
  is_ok (RegAlloc.perform_register_allocation prog)
  ↔ def_before_use ∅ (Asm.get_insts prog).
Proof.
  unfold RegAlloc.perform_register_allocation, RegAlloc.optimize.
  rewrite <- (dom_empty_L (D := gset string) (M := gmap string) (A := Z)).
  rewrite <- (optimize_loop_ok_iff _ RegAlloc.new_RegAllocator (Asm.get_pc prog) []).
  split.
  - intros [[o p] H]. apply bind_Ok in H as ([r o1] & H & _). by eexists.
  - intros [[r o1] H]. rewrite H. by eexists.
Qed.

Lemma optimize_loop_acc (l : list Asm.Inst) :
  ∀ (o : RegAlloc.RegAllocator) (prog_pc : Z) (acc : list Asm.Inst),
    RegAlloc.optimize_loop o prog_pc l acc
    = '(out, o') ← RegAlloc.optimize_loop o prog_pc l []; Ok (acc ++ out, o').
Proof.
  induction l as [|i l IH]; intros o prog_pc acc; simpl.
  - by rewrite app_nil_r.
  - destruct (RegAlloc.op_handlers (Asm.get_opcode i)) as [h|]; [|apply IH].
    destruct (h o prog_pc i) as [[out o1]|]; simpl; [|done].
    rewrite (IH o1 prog_pc (acc ++ out)), (IH o1 prog_pc out).
    destruct (RegAlloc.optimize_loop o1 prog_pc l []) as [[out' o2]|]; simpl; [|done].
    by rewrite app_assoc.
Qed.

Lemma optimize_loop_app (l1 l2 : list Asm.Inst) :
  ∀ (o : RegAlloc.RegAllocator) (prog_pc : Z) (acc : list Asm.Inst),
    RegAlloc.optimize_loop o prog_pc (l1 ++ l2) acc
    = '(r, o1) ← RegAlloc.optimize_loop o prog_pc l1 acc;
      RegAlloc.optimize_loop o1 prog_pc l2 r.
Proof.
  induction l1 as [|i l1 IH]; intros o prog_pc acc; simpl; [done|].
  destruct (RegAlloc.op_handlers (Asm.get_opcode i)) as [h|]; [|apply IH].
  destruct (h o prog_pc i) as [[out o1]|]; simpl; [apply IH | done].
Qed.

(** X10.  The allocator is one pass over the instruction list: allocating
    [l1 ++ l2] is allocating [l1], then allocating [l2] with the allocator as
    [l1] left it, and concatenating the two outputs.  The rewriting of an
    instruction depends on the instructions before it only through the slot
    table. *)
Theorem optimize_is_one_pass (o : RegAlloc.RegAllocator) (prog : Asm.Program)
    (l1 l2 : list Asm.Inst) :
  RegAlloc.optimize o (Asm.set_insts prog (l1 ++ l2))
  = '(o1, prog1) ← RegAlloc.optimize o (Asm.set_insts prog l1);
    '(o2, prog2) ← RegAlloc.optimize o1 (Asm.set_insts prog l2);
    Ok (o2, Asm.set_insts prog (Asm.get_insts prog1 ++ Asm.get_insts prog2)).
Proof.
  unfold RegAlloc.optimize. simpl.
  rewrite optimize_loop_app.
  destruct (RegAlloc.optimize_loop o (Asm.pc prog) l1 []) as [[r o1]|]; simpl; [|done].
  rewrite optimize_loop_acc.
  by destruct (RegAlloc.optimize_loop o1 (Asm.pc prog) l2 []) as [[r2 o2]|].
Qed.

Lemma targets_app (l1 l2 : list Asm.Inst) :
  targets (l1 ++ l2) = targets l1 ++ targets l2.
Proof.
  induction l1 as [|i l1 IH]; [done|].
  destruct i; simpl; by rewrite ?IH.
Qed.

Lemma handler_targets (o o' : RegAlloc.RegAllocator) (prog_pc : Z)
    (i : Asm.Inst) (h : RegAlloc.handler) (out : list Asm.Inst) :
  RegAlloc.op_handlers (Asm.get_opcode i) = Some h →
  h o prog_pc i = Ok (out, o') →
  targets out = targets [i].
Proof.
  intros Hh Hrun. rewrite op_handlers_of in Hh.
  destruct i; simpl in Hh;
    try (unfold RegAlloc.op_handlers in Hh;
         repeat (destruct (decide _) in Hh); simplify_eq; discriminate Hrun);
    simplify_eq;
    unfold RegAlloc.handle_bin_immediate, RegAlloc.handle_bin_standard,
      RegAlloc.handle_jump, RegAlloc.handle_branch, RegAlloc.handle_memory_op,
      RegAlloc.bin_immediate, RegAlloc.bin_standard in Hrun;
    handler_cases; by rewrite ?targets_app.
Qed.

Lemma optimize_loop_targets (l : list Asm.Inst) :
  ∀ (o o' : RegAlloc.RegAllocator) (prog_pc : Z) (acc r : list Asm.Inst),
    RegAlloc.optimize_loop o prog_pc l acc = Ok (r, o') →
    targets r = targets acc ++ targets l.
Proof.
  induction l as [|i l IH]; intros o o' prog_pc acc r H; simpl in H.
  - injection H as <- <-. by rewrite app_nil_r.
  - destruct (RegAlloc.op_handlers (Asm.get_opcode i)) as [h|] eqn:Hh.
    + apply bind_Ok in H as ([out o1] & H1 & H).
      apply IH in H. rewrite H, targets_app, (handler_targets _ _ _ _ _ _ Hh H1).
      rewrite <- app_assoc. f_equal. change (i :: l) with ([i] ++ l).
      by rewrite targets_app.
    + apply IH in H. rewrite H. f_equal.
      rewrite op_handlers_of in Hh. destruct i; try discriminate Hh. done.
Qed.

(** X11.  The allocator copies the target of every branch and jump as it
    is: the allocated program has the same targets, in the same order, as
    the input, although its instructions sit at other positions. *)
Theorem allocation_keeps_targets (o o' : RegAlloc.RegAllocator)
    (prog prog' : Asm.Program) :
  RegAlloc.optimize o prog = Ok (o', prog') →
  targets (Asm.get_insts prog') = targets (Asm.get_insts prog).
Proof.
  unfold RegAlloc.optimize. intros H.
  apply bind_Ok in H as ([r o1] & H & Heq). injection Heq as <- <-.
  by apply optimize_loop_targets in H.
Qed.

Lemma allocation_keeps_targets_witness :
  targets [Asm.Addi "a0" "x0" 3; Asm.Sw "x0" 1 "a0";
           Asm.Lw "x0" 1 "a0"; Asm.Addi "a0" "a0" 0; Asm.Sw "x0" 2 "a0";
           Asm.Lw "x0" 1 "a0"; Asm.Lw "x0" 2 "a1"; Asm.Beq "a0" "a1" (Some 30)]
  = targets [Asm.Addi "a" "x0" 3; Asm.Addi "b" "a" 0; Asm.Beq "a" "b" (Some 30)].
Proof.
  refine (allocation_keeps_targets RegAlloc.new_RegAllocator
            {| RegAlloc.memory_counter := 2;
               RegAlloc.var_to_mem := {[ "a" := 1; "b" := 2 ]};
               RegAlloc.var_to_reg := {[ "a" := "a0"; "b" := "a0" ]} |}
            (Asm.new_Program 1000 ∅
               [Asm.Addi "a" "x0" 3; Asm.Addi "b" "a" 0; Asm.Beq "a" "b" (Some 30)])
            (Asm.new_Program 1000 ∅
               [Asm.Addi "a0" "x0" 3; Asm.Sw "x0" 1 "a0";
                Asm.Lw "x0" 1 "a0"; Asm.Addi "a0" "a0" 0; Asm.Sw "x0" 2 "a0";
                Asm.Lw "x0" 1 "a0"; Asm.Lw "x0" 2 "a1"; Asm.Beq "a0" "a1" (Some 30)])
            _).
  vm_compute. reflexivity.
Defined.

(** ** The generator and the allocator: the driver up to the run *)

Lemma defined_after_subseteq (D : gset string) (i : Asm.Inst) :
  D ⊆ defined_after D i.
Proof.
  unfold defined_after. destruct (dest i); [|done].
  destruct (decide _); [|done]. apply union_subseteq_l.
Qed.

Lemma defined_by_subseteq (l : list Asm.Inst) :
  ∀ D : gset string, D ⊆ defined_by D l.
Proof.
  induction l as [|i l IH]; intros D; simpl; [done|].
  destruct (decide _); [|apply IH].
  etrans; [apply defined_after_subseteq | apply IH].
Qed.

Lemma defined_by_app (l1 l2 : list Asm.Inst) :
  ∀ D : gset string, defined_by D (l1 ++ l2) = defined_by (defined_by D l1) l2.
Proof.
  induction l1 as [|i l1 IH]; intros D; simpl; [done|].
  destruct (decide _); apply IH.
Qed.

Lemma def_before_use_app (l1 l2 : list Asm.Inst) :
  ∀ D : gset string,
    def_before_use D (l1 ++ l2)
    ↔ def_before_use D l1 ∧ def_before_use (defined_by D l1) l2.
Proof.
  induction l1 as [|i l1 IH]; intros D; simpl; [tauto|].
  destruct (decide _); rewrite IH; tauto.
Qed.

Lemma arith_handled (i : Asm.Inst) :
  arith i → Asm.get_opcode i ∈ handled_opcodes ∧ ∀ op, i ≠ Asm.Other op.
Proof.
  destruct i; simpl; try done; intros _;
    (split; [unfold handled_opcodes; rewrite !elem_of_cons; tauto | done]).
Qed.

Lemma def_before_use_arith (D : gset string) (i : Asm.Inst) (l : list Asm.Inst) :
  arith i →
  (∀ x, x ∈ reads i → avail (defined_after D i) x) →
  def_before_use (defined_after D i) l →
  def_before_use D (i :: l).
Proof.
  intros Hi Hr Hl. destruct (arith_handled i Hi) as [Hh Hc]. simpl.
  rewrite decide_True by done. split_and!; [done| |done].
  intros x Hx Hs. by destruct (Hr x Hx).
Qed.

Lemma defined_by_arith (D : gset string) (i : Asm.Inst) (l : list Asm.Inst) :
  arith i → defined_by D (i :: l) = defined_by (defined_after D i) l.
Proof.
  intros Hi. destruct (arith_handled i Hi) as [Hh _]. simpl.
  by rewrite decide_True.
Qed.

Lemma defined_after_symbolic (D : gset string) (i : Asm.Inst) (v : string) :
  dest i = Some v → symbolic v → defined_after D i = D ∪ {[v]}.
Proof. intros Hd Hs. unfold defined_after. by rewrite Hd, decide_True. Qed.

Lemma avail_mono (D D' : gset string) (x : string) :
  D ⊆ D' → avail D x → avail D' x.
Proof. unfold avail. set_solver. Qed.

Lemma avail_x0 (D : gset string) : avail D "x0".
Proof. right. unfold RegAlloc.DEFAULT_REGS. by left. Qed.

Lemma avail_new (D : gset string) (x : string) : avail (D ∪ {[x]}) x.
Proof. left. set_solver. Qed.

Lemma avail_old (D : gset string) (x y : string) : avail D x → avail (D ∪ {[y]}) x.
Proof. apply avail_mono. set_solver. Qed.

(** The code of the generator, read from its first instruction: every
    instruction is arithmetic, defines a fresh temporary or a [Let]
    variable, and reads names available at that point. *)
Ltac scoped_code :=
  repeat match goal with
  | |- def_before_use _ [] => exact I
  | |- def_before_use _ (_ :: _) =>
    apply def_before_use_arith; [exact I | |]
  | |- ∀ x, x ∈ reads _ → _ =>
    let x := fresh "x" in let Hx := fresh "Hx" in
    intros x Hx; simpl in Hx; rewrite ?elem_of_cons, ?elem_of_nil in Hx;
    destruct_or?; subst; try done
  | |- context [defined_after _ ?i] =>
    rewrite (defined_after_symbolic _ i _ eq_refl (fresh_variable_symbolic _))
  | |- context [defined_by _ (_ :: _)] =>
    rewrite defined_by_arith by exact I
  | |- context [defined_by _ []] => simpl defined_by
  | |- avail _ "x0" => apply avail_x0
  | |- avail (_ ∪ {[?x]}) ?x => apply avail_new
  | |- avail (_ ∪ {[_]}) _ => apply avail_old
  | H : avail ?D ?x |- avail ?D ?x => exact H
  | H : avail ?D ?x |- avail (defined_by ?D ?c) ?x =>
    exact (avail_mono _ _ _ (defined_by_subseteq c D) H)
  end.

Lemma RA_gen_scoped (e : Expression) :
  ∀ (g g' : RegAlloc.GenVisitor) (prog0 prog' : Asm.Program)
    (l : list Asm.Inst) (v : string) (D : gset string),
    RegAlloc.gen e g (Asm.set_insts prog0 l) = Ok (v, g', prog') →
    (∀ x, x ∈ free_vars e → avail D x) →
    ∃ code, prog' = Asm.set_insts prog0 (l ++ code)
            ∧ def_before_use D code ∧ avail (defined_by D code) v.
Proof.
  induction e; intros g g' prog0 prog' l v D H Hfv; simpl in H, Hfv;
    try destruct kind; simpl in H; try discriminate H;
    unfold RegAlloc.visit_binary, RegAlloc.visit_unary, RegAlloc.next_var_name in H;
    simpl in H.
  (* references and constants *)
  1: { injection H as <- <- <-. exists []. rewrite app_nil_r.
       split_and!; [done | done | apply Hfv; by left]. }
  1, 2: injection H as <- <- <-; rewrite add_inst_set_insts;
        eexists; (split; [reflexivity|]); split; scoped_code.
  (* binary operators *)
  1-7: apply bind_Ok in H as ([[vl gl] pl] & H1 & H);
       apply (IHe1 _ _ _ _ _ _ D) in H1 as (c1 & -> & Hc1 & Hv1);
         [| intros; apply Hfv; apply elem_of_app; by left];
       apply bind_Ok in H as ([[vr gr] pr] & H2 & H);
       apply (IHe2 _ _ _ _ _ _ (defined_by D c1)) in H2 as (c2 & -> & Hc2 & Hv2);
         [| intros x Hx; apply (avail_mono D); [apply defined_by_subseteq|];
            apply Hfv; apply elem_of_app; by right];
       injection H as <- <- <-; rewrite ?add_inst_set_insts, <- ?app_assoc;
       eexists; (split; [reflexivity|]);
       rewrite ?def_before_use_app, ?defined_by_app;
       (split; [split_and!; try done|]); scoped_code.
  (* unary operators *)
  1, 2: apply bind_Ok in H as ([[va ga] pa] & H1 & H);
        apply (IHe _ _ _ _ _ _ D) in H1 as (c1 & -> & Hc1 & Hv1); [|done];
        injection H as <- <- <-; rewrite ?add_inst_set_insts, <- ?app_assoc;
        eexists; (split; [reflexivity|]);
        rewrite ?def_before_use_app, ?defined_by_app;
        (split; [split_and!; try done|]); scoped_code.
  (* let *)
  apply bind_Ok in H as ([[vd gd] pd] & H1 & H).
  apply (IHe1 _ _ _ _ _ _ D) in H1 as (c1 & -> & Hc1 & Hv1);
    [| intros; apply Hfv; apply elem_of_app; by left].
  rewrite add_inst_set_insts in H.
  apply bind_Ok in H as ([[vb gb] pb] & H2 & H).
  apply (IHe2 _ _ _ _ _ _
           (defined_after (defined_by D c1) (Asm.Add identifier "x0" vd)))
    in H2 as (c2 & -> & Hc2 & Hv2).
  - injection H as <- <- <-. rewrite ?add_inst_set_insts, <- ?app_assoc.
    eexists. split; [reflexivity|].
    rewrite ?def_before_use_app, ?defined_by_app.
    rewrite (defined_by_arith _ (Asm.Add identifier "x0" vd) []) by exact I.
    simpl (defined_by _ []).
    (split; [split_and!; [done| |done|]|]); scoped_code.
    eapply avail_mono; [apply defined_after_subseteq | done].
  - intros x Hx. destruct (decide (x = identifier)) as [->|Hne].
    + unfold defined_after. simpl.
      destruct (decide (symbolic identifier)) as [|Hns]; [apply avail_new|].
      right. by apply dec_stable.
    + eapply avail_mono;
        [etrans; [apply (defined_by_subseteq c1) | apply defined_after_subseteq]|].
      apply Hfv. apply elem_of_app. right. by apply list_elem_of_filter.
Qed.

Lemma optimize_loop_dom (l : list Asm.Inst) :
  ∀ (o o' : RegAlloc.RegAllocator) (prog_pc : Z) (acc r : list Asm.Inst),
    RegAlloc.optimize_loop o prog_pc l acc = Ok (r, o') →
    dom (RegAlloc.var_to_mem o') = defined_by (dom (RegAlloc.var_to_mem o)) l.
Proof.
  induction l as [|i l IH]; intros o o' prog_pc acc r H; simpl in H |- *.
  - by injection H as <- <-.
  - destruct (decide (Asm.get_opcode i ∈ handled_opcodes)) as [Hh|Hh].
    + destruct (op_handlers_handled _ Hh) as [h Hop]. rewrite Hop in H.
      apply bind_Ok in H as ([out o1] & H1 & H).
      pose proof (handler_state _ _ _ _ _ _ Hop H1) as ->.
      apply IH in H. by rewrite H, alloc_state_dom.
    + rewrite op_handlers_unhandled in H by done. by apply IH in H.
Qed.

Lemma RA_gen_total (e : Expression) :
  ∀ (g : RegAlloc.GenVisitor) (prog : Asm.Program),
    RA_supported e → is_ok (RegAlloc.gen e g prog).
Proof.
  unfold is_ok.
  induction e; intros g prog Hsup; try destruct kind; simpl in Hsup |- *;
    try done;
    repeat match goal with
    | H : _ ∧ _ |- _ => destruct H
    end;
    unfold RegAlloc.visit_binary, RegAlloc.visit_unary, RegAlloc.next_var_name;
    simpl;
    repeat match goal with
    | IH : ∀ g prog, RA_supported ?e → _, H : RA_supported ?e
      |- context [RegAlloc.gen ?e ?g ?prog] =>
      let E := fresh "E" in
      destruct (IH g prog H) as ([[??]?] & E); rewrite E; clear E; simpl
    end;
    by eauto.
Qed.

Lemma RA_rename_output (e : Expression) :
  ∀ (ids : path → N) (m : gmap string string) (e' : Expression),
    RegAlloc.rename ids e m = Ok e' →
    RA_supported e' ∧ ∀ y, y ∈ free_vars e' → ∃ x, m !! x = Some y.
Proof.
  induction e; intros ids m e' H; simpl in H; rename_cases; simpl;
    repeat match goal with
    | IH : ∀ ids m e', RegAlloc.rename ids ?e m = Ok e' → _,
      H : RegAlloc.rename _ ?e _ = Ok _ |- _ =>
      apply IH in H as [? ?]; clear IH
    end;
    (split; [tauto|]); intros y Hy;
    rewrite ?elem_of_app, ?list_elem_of_filter, ?elem_of_nil, ?list_elem_of_singleton in Hy;
    try (destruct Hy; by eauto); try (by eauto).
  destruct Hy as [Hy|[Hne Hy]]; [by eauto|].
  match goal with
  | Hb : ∀ y, y ∈ free_vars ?b → _, Hy : ?y ∈ free_vars ?b |- _ =>
    destruct (Hb y Hy) as [z Hz]
  end.
  destruct (decide (z = identifier)) as [->|Hz'].
  - rewrite lookup_insert_eq in Hz. by injection Hz as <-.
  - rewrite lookup_insert_ne in Hz by done. by eauto.
Qed.

(** X12.  The driver gets through renaming, code generation and register
    allocation without an exception for every expression the renamer
    accepts, whatever the memory size, and the variable that holds the
    answer has a spill slot, so that [opt.get_val(var_answer)] does not
    raise [ValueError]. *)
Theorem driver_reaches_the_run (M : nat) (ids : path → N) (e e' : Expression) :
  RegAlloc.rename_variables ids e = Ok e' →
  ∃ var_answer g prog opt prog',
    RegAlloc.gen e' {| RegAlloc.next_var_counter := 0 |} (Asm.new_Program M ∅ [])
    = Ok (var_answer, g, prog)
    ∧ RegAlloc.perform_register_allocation prog = Ok (opt, prog')
    ∧ is_Some (RegAlloc.var_to_mem opt !! var_answer).
Proof.
  intros Hren.
  pose proof (RA_rename_not_reference _ _ _ Hren) as Hnot.
  unfold RegAlloc.rename_variables in Hren.
  apply RA_rename_output in Hren as [Hsup Hfv].
  destruct (RA_gen_total e' {| RegAlloc.next_var_counter := 0 |}
              (Asm.new_Program M ∅ []) Hsup) as [[[v g] prog] Hgen].
  exists v, g, prog.
  pose proof Hgen as Hres. apply RA_gen_result in Hres as [[x ->]|[n ->]];
    [by destruct (Hnot x)|].
  change (Asm.new_Program M ∅ []) with (Asm.set_insts (Asm.new_Program M ∅ []) [])
    in Hgen.
  pose proof Hgen as Hsc.
  apply (RA_gen_scoped _ _ _ _ _ _ _ ∅) in Hsc as (code & -> & Hcode & Hv).
  2: { intros x Hx. destruct (Hfv x Hx) as [y Hy]. by rewrite lookup_empty in Hy. }
  simpl app in *.
  destruct (proj2 (allocation_succeeds_iff
                     (Asm.set_insts (Asm.new_Program M ∅ []) code)) Hcode)
    as [[opt prog'] Hopt].
  exists opt, prog'. split_and!; [done | done |].
  unfold RegAlloc.perform_register_allocation, RegAlloc.optimize in Hopt.
  apply bind_Ok in Hopt as ([r o1] & Hloop & Heq). injection Heq as -> <-.
  apply optimize_loop_dom in Hloop. simpl in Hloop.
  rewrite dom_empty_L in Hloop. apply elem_of_dom. rewrite Hloop.
  destruct Hv as [Hv|Hv]; [done|].
  by destruct (fresh_variable_symbolic n).
Qed.

Lemma driver_reaches_the_run_witness :
  ∃ var_answer g prog opt prog',
    RegAlloc.gen (Let "v_7" (Num 21) (Add (Var "v_7") (Var "v_7")))
      {| RegAlloc.next_var_counter := 0 |} (Asm.new_Program 1000 ∅ [])
    = Ok (var_answer, g, prog)
    ∧ RegAlloc.perform_register_allocation prog = Ok (opt, prog')
    ∧ is_Some (RegAlloc.var_to_mem opt !! var_answer).
Proof.
  apply (driver_reaches_the_run 1000 (λ _, 7%N)
           (Let "v" (Num 21) (Add (Var "v") (Var "v")))).
  vm_compute. reflexivity.
Defined.

(** ** The lexer *)

Lemma take_while_spec (p : ascii → bool) (s : string) :
  s = (Lexer.take_while p s).1 +:+ (Lexer.take_while p s).2
  ∧ string_forall p (Lexer.take_while p s).1
  ∧ stops p (Lexer.take_while p s).2.
Proof.
  induction s as [|c s IH]; simpl; [done|].
  destruct (p c) eqn:Hc.
  - destruct (Lexer.take_while p s) as [t r]; simpl in *.
    destruct IH as (IH1 & IH2 & IH3). rewrite string_app_cons_l, <- IH1. repeat split; assumption.
  - simpl. repeat split; assumption.
Qed.

Lemma prefix_skip (p s : string) :
  String.prefix p s = true → s = p +:+ Lexer.skip (String.length p) s.
Proof.
  revert s. induction p as [|a p IH]; intros s H; simpl in *.
  - by destruct s.
  - destruct s as [|b s]; [done|]. simpl in H. destruct (ascii_dec a b) as [->|]; [|done].
    rewrite string_app_cons_l. f_equal. by apply IH.
Qed.

Lemma block_comment_spec (s : string) :
  ∃ consumed, s = consumed +:+ (Lexer.block_comment s).2.
Proof.
  induction s as [|c s IH]; [by exists ""|].
  cbn [Lexer.block_comment].
  destruct s as [|d s'].
  - simpl. by exists (String c "").
  - destruct ((c =? "*")%char && (d =? ")")%char) eqn:E.
    + simpl. by exists (String c (String d "")).
    + destruct (Lexer.block_comment (String d s')) as [t r]; simpl in *.
      destruct IH as [consumed IH]. exists (String c consumed).
      by rewrite string_app_cons_l, <- IH.
Qed.

Lemma isalpha_ident_char (c : ascii) :
  Lexer.isalpha c = true → Lexer.ident_char c = true.
Proof. unfold Lexer.ident_char, Lexer.isalnum. by intros ->. Qed.

Lemma getToken_spec (s : string) :
  ∃ consumed,
    s = consumed +:+ (Lexer.getToken s).2
    ∧ (Lexer.kind (Lexer.getToken s).1 = Lexer.EOF ↔ consumed = "").
Proof.
  destruct s as [|c s]; [by exists ""|].
  unfold Lexer.getToken.
  repeat match goal with
  | |- context [if ?b then _ else _] => destruct b eqn:?
  end.
  - destruct (take_while_spec Lexer.isdigit s) as (E & _ & _).
    destruct (Lexer.take_while Lexer.isdigit s) as [t r]; simpl in *.
    exists (String c t). by rewrite string_app_cons_l, <- E.
  - match goal with H : String.prefix _ _ = true |- _ => apply prefix_skip in H as E0 end.
    destruct (take_while_spec (λ d, negb (d =? Lexer.newline)%char)
                (Lexer.skip 2 (String c s))) as (E & _ & _).
    destruct (Lexer.take_while _ (Lexer.skip 2 (String c s))) as [t r]; simpl in *.
    exists ("--" +:+ t). split; [|done].
    rewrite E0 at 1. simpl. rewrite !string_app_cons_l, string_app_nil_l.
    do 2 f_equal. exact E.
  - match goal with H : String.prefix _ _ = true |- _ => apply prefix_skip in H as E0 end.
    destruct (block_comment_spec (Lexer.skip 2 (String c s))) as [consumed E].
    destruct (Lexer.block_comment (Lexer.skip 2 (String c s))) as [t r]; simpl in *.
    exists ("(*" +:+ consumed). split; [|done].
    rewrite E0 at 1. simpl. rewrite !string_app_cons_l, string_app_nil_l.
    do 2 f_equal. exact E.
  - destruct (take_while_spec Lexer.ident_char (String c s)) as (E & _ & _).
    simpl in E |- *. rewrite isalpha_ident_char in E |- * by done.
    destruct (Lexer.take_while Lexer.ident_char s) as [t r]; simpl in *.
    exists (String c t). split; [done|]. split; [|done].
    unfold Lexer.word_kind. repeat (destruct (decide _); [done|]). done.
  - match goal with H : String.prefix _ _ = true |- _ => apply prefix_skip in H as E0 end.
    exists "<-". by split.
  - match goal with H : String.prefix _ _ = true |- _ => apply prefix_skip in H as E0 end.
    exists "<=". by split.
  - exists (String c ""). by split.
  - exists (String c ""). by split.
  - exists (String c ""). by split.
  - exists (String c ""). by split.
  - exists (String c ""). by split.
  - exists (String c ""). by split.
  - exists (String c ""). by split.
  - exists (String c ""). by split.
  - exists (String c ""). by split.
  - exists (String c ""). by split.
  - exists (String c ""). by split.
  - exists "". by split.
Qed.

Lemma getToken_shorter (s : string) :
  Lexer.kind (Lexer.getToken s).1 ≠ Lexer.EOF →
  (String.length (Lexer.getToken s).2 < String.length s)%nat.
Proof.
  intros H. destruct (getToken_spec s) as (consumed & E & Hk).
  rewrite E at 2. rewrite string_app_length.
  destruct consumed; [by destruct H; apply Hk | simpl; lia].
Qed.

Lemma tokens_loop_enough (fuel : nat) :
  ∀ s, (String.length s < fuel)%nat →
       is_Some (Lexer.tokens_loop fuel s)
       ∧ Lexer.tokens_loop fuel s = Lexer.tokens s.
Proof.
  assert (H : ∀ fuel s, (String.length s < fuel)%nat →
            is_Some (Lexer.tokens_loop fuel s)
            ∧ ∀ fuel', (String.length s < fuel')%nat →
                Lexer.tokens_loop fuel s = Lexer.tokens_loop fuel' s).
  { clear fuel. induction fuel as [|fuel IH]; intros s Hlen; [lia|].
    pose proof (getToken_shorter s) as Hs.
    assert (Hrec : Lexer.kind (Lexer.getToken s).1 ≠ Lexer.EOF →
              is_Some (Lexer.tokens_loop fuel (Lexer.getToken s).2)
              ∧ ∀ fuel', (String.length s < S fuel')%nat →
                  Lexer.tokens_loop fuel (Lexer.getToken s).2
                  = Lexer.tokens_loop fuel' (Lexer.getToken s).2).
    { intros Hk. specialize (Hs Hk).
      destruct (IH (Lexer.getToken s).2 ltac:(lia)) as [H1 H2].
      split; [done|]. intros fuel' Hf. apply H2. lia. }
    split.
    - simpl. destruct (Lexer.getToken s) as [t s']; simpl in *.
      destruct (Lexer.kind t); try done;
        try (by apply Hrec); by (apply fmap_is_Some, Hrec).
    - intros [|fuel'] Hf; [lia|]. simpl.
      destruct (Lexer.getToken s) as [t s']; simpl in *.
      destruct (Lexer.kind t); try done;
        try (by apply Hrec); by (f_equal; apply Hrec). }
  intros s Hlen. destruct (H fuel s Hlen) as [H1 H2].
  split; [done|]. apply H2. lia.
Qed.

Lemma getToken_well_formed (s : string) :
  Lexer.kind (Lexer.getToken s).1
    ∉ [Lexer.EOF; Lexer.WSP; Lexer.COM; Lexer.NLN] →
  well_formed (Lexer.getToken s).1.
Proof.
  destruct s as [|c s]; [simpl; set_solver|].
  unfold Lexer.getToken.
  repeat match goal with
  | |- context [if ?b then _ else _] => destruct b eqn:?
  end;
  repeat match goal with
  | H : (_ =? _)%char = true |- _ => apply Ascii.eqb_eq in H; subst
  end;
  try (by intros _);
  try (simpl; intros H; exfalso; apply H; rewrite !elem_of_cons; tauto).
  - destruct (take_while_spec Lexer.isdigit s) as (_ & E & _).
    destruct (Lexer.take_while Lexer.isdigit s) as [t r]; simpl in *.
    intros _. unfold well_formed. simpl. done.
  - destruct (Lexer.take_while _ (Lexer.skip 2 _)) as [t r]; simpl.
    intros H; exfalso; apply H; rewrite !elem_of_cons; tauto.
  - destruct (Lexer.block_comment _) as [t r]; simpl.
    intros H; exfalso; apply H; rewrite !elem_of_cons; tauto.
  - destruct (take_while_spec Lexer.ident_char (String c s)) as (_ & E & _).
    simpl in E |- *. rewrite isalpha_ident_char in E |- * by done.
    destruct (Lexer.take_while Lexer.ident_char s) as [t r]; simpl in *.
    intros _. unfold well_formed, Lexer.word_kind. simpl.
    repeat (destruct (decide _) as [->|?]; [done|]).
    split; [by eauto|]. split.
    + split; [by apply isalpha_ident_char | tauto].
    + rewrite !elem_of_cons, elem_of_nil. tauto.
Qed.

Lemma tokens_loop_well_formed (fuel : nat) :
  ∀ s l, Lexer.tokens_loop fuel s = Some l → Forall well_formed l.
Proof.
  induction fuel as [|fuel IH]; intros s l H; [done|]. simpl in H.
  pose proof (getToken_well_formed s) as Hwf.
  destruct (Lexer.getToken s) as [t s']; simpl in *.
  destruct (Lexer.kind t) eqn:Hk;
    try (injection H as <-; by apply Forall_nil);
    try (by eapply IH);
    (apply fmap_Some in H as (l' & H & ->); apply Forall_cons; split;
     [apply Hwf; rewrite !elem_of_cons, elem_of_nil; intuition discriminate
     | by eapply IH]).
Qed.

Lemma take_while_app (p : ascii → bool) (w rest : string) :
  string_forall p w → stops p rest → Lexer.take_while p (w +:+ rest) = (w, rest).
Proof.
  induction w as [|c w IH]; intros Hw Hr.
  - rewrite string_app_nil_l. destruct rest as [|d rest]; [done|].
    simpl in *. by rewrite Hr.
  - destruct Hw as [Hc Hw]. rewrite string_app_cons_l. simpl.
    by rewrite Hc, IH.
Qed.

Lemma prefix_head (a c : ascii) (p s : string) :
  (c =? a)%char = false → String.prefix (String a p) (String c s) = false.
Proof.
  intros H. simpl. destruct (ascii_dec a c) as [->|]; [|done].
  by rewrite Ascii.eqb_refl in H.
Qed.

(** The tests of [getToken] exclude one another where it matters: a blank
    is neither a digit, a letter nor an operator character, and a letter is
    neither a digit, a dash nor an opening parenthesis. *)
Lemma isspace_only (c : ascii) :
  Lexer.isspace c = true →
  Lexer.isdigit c = false ∧ Lexer.isalpha c = false
  ∧ forallb (λ a, negb (c =? a)%char) (list_ascii_of_string "-(<=+*/~)") = true.
Proof.
  destruct c as [[] [] [] [] [] [] [] []]; vm_compute; intros H;
    first [discriminate H | by repeat split].
Qed.

Lemma isalpha_only (c : ascii) :
  Lexer.isalpha c = true →
  Lexer.isdigit c = false ∧ (c =? "-")%char = false ∧ (c =? "(")%char = false.
Proof.
  destruct c as [[] [] [] [] [] [] [] []]; vm_compute; intros H;
    first [discriminate H | by repeat split].
Qed.

Lemma getToken_space (c : ascii) (s : string) :
  Lexer.isspace c = true →
  (Lexer.getToken (String c s)).2 = s
  ∧ Lexer.kind (Lexer.getToken (String c s)).1 ∈ [Lexer.WSP; Lexer.NLN].
Proof.
  intros H. destruct (isspace_only c H) as (Hd & Ha & Hop).
  simpl in Hop. rewrite !andb_true_iff, !negb_true_iff in Hop.
  destruct Hop as (? & ? & ? & ? & ? & ? & ? & ? & ? & _).
  unfold Lexer.getToken.
  rewrite Hd, Ha, H, !prefix_head by done.
  repeat match goal with H : (c =? _)%char = false |- _ => rewrite H; clear H end.
  destruct (c =? Lexer.newline)%char; simpl;
    (split; [done | rewrite !elem_of_cons; tauto]).
Qed.

Lemma getToken_unrecognized (c : ascii) (s : string) :
  token_start c = false →
  Lexer.getToken (String c s) = (Lexer.mkToken "" Lexer.EOF, String c s).
Proof.
  unfold token_start. rewrite !orb_false_iff, bool_decide_eq_false.
  intros (((Hd & Ha) & Hs) & Hop).
  assert (Hne : ∀ a, a ∈ list_ascii_of_string "-(<=+*/~)" → (c =? a)%char = false).
  { intros a Ha'. apply Ascii.eqb_neq. by intros ->. }
  unfold Lexer.getToken.
  rewrite Hd, Ha, Hs, !prefix_head by (apply Hne; simpl; rewrite !elem_of_cons; tauto).
  by rewrite !Hne by (simpl; rewrite !elem_of_cons; tauto).
Qed.

Lemma getToken_word (c : ascii) (s : string) :
  Lexer.isalpha c = true →
  Lexer.getToken (String c s)
  = (let '(word, r) := Lexer.take_while Lexer.ident_char (String c s) in
     (Lexer.mkToken word (Lexer.word_kind word), r)).
Proof.
  intros H. destruct (isalpha_only c H) as (Hd & H1 & H2).
  unfold Lexer.getToken. by rewrite Hd, H, !prefix_head by done.
Qed.

(** X13.  [getToken] reads the input from the current position forwards:
    what it leaves is the input less a prefix, and the prefix is empty
    exactly when the token is [EOF] (at the end of the input, or before a
    character no token begins with). *)
Theorem getToken_consumes_a_prefix (s : string) :
  ∃ consumed,
    s = consumed +:+ (Lexer.getToken s).2
    ∧ (Lexer.kind (Lexer.getToken s).1 = Lexer.EOF ↔ consumed = "").
Proof. apply getToken_spec. Qed.

(** X14.  [tokens] terminates on every source: the loop needs at most one
    call of [getToken] per character and one more, and allowing it more
    calls does not change the tokens it yields. *)
Theorem tokens_terminates (source : string) :
  is_Some (Lexer.tokens source)
  ∧ ∀ fuel, (String.length source < fuel)%nat →
            Lexer.tokens_loop fuel source = Lexer.tokens source.
Proof.
  split.
  - apply (tokens_loop_enough (S (String.length source))). lia.
  - intros fuel H. by apply tokens_loop_enough.
Qed.

(** X15.  The kind of every token that [tokens] yields determines the
    shape of its text: a number is a non-empty string of digits; a variable
    begins with a letter, continues with letters, digits and underscores and
    is not a keyword; a keyword or an operator has its own spelling.  No
    token of kind [EOF], [NLN], [WSP], [COM] or [STR] is yielded. *)
Theorem tokens_well_formed (source : string) (l : list Lexer.Token) :
  Lexer.tokens source = Some l → Forall well_formed l.
Proof. apply tokens_loop_well_formed. Qed.

Lemma tokens_well_formed_witness :
  Forall well_formed
    [Lexer.mkToken "let" Lexer.LET; Lexer.mkToken "v" Lexer.VAR;
     Lexer.mkToken "<-" Lexer.ASN; Lexer.mkToken "2" Lexer.NUM;
     Lexer.mkToken "in" Lexer.INX; Lexer.mkToken "v" Lexer.VAR;
     Lexer.mkToken "end" Lexer.END].
Proof.
  apply (tokens_well_formed "let v <- 2 in v end"). vm_compute. reflexivity.
Defined.

Lemma tokens_loop_stops (blanks : string) :
  ∀ (c : ascii) (s : string) (fuel : nat),
    string_forall Lexer.isspace blanks → token_start c = false →
    (String.length blanks < fuel)%nat →
    Lexer.tokens_loop fuel (blanks +:+ String c s) = Some [].
Proof.
  induction blanks as [|b blanks IH]; intros c s [|fuel] Hb Hc Hf;
    try (simpl in Hf; lia).
  - rewrite string_app_nil_l. cbn [Lexer.tokens_loop].
    by rewrite getToken_unrecognized.
  - destruct Hb as [Hb Hbs]. rewrite string_app_cons_l.
    cbn [Lexer.tokens_loop].
    destruct (getToken_space b (blanks +:+ String c s) Hb) as [E Hk].
    destruct (Lexer.getToken (String b (blanks +:+ String c s))) as [t s'].
    simpl in E, Hk. subst s'. simpl in Hf.
    rewrite !elem_of_cons, elem_of_nil in Hk.
    destruct Hk as [->|[->|[]]]; apply IH; try done; lia.
Qed.

(** X16.  A character that no token begins with ends the token stream
    without an error: when the source is blanks followed by such a
    character, [tokens] yields nothing, whatever follows the character. *)
Theorem tokens_stop_at_unrecognized (blanks : string) (c : ascii) (s : string) :
  string_forall Lexer.isspace blanks → token_start c = false →
  Lexer.tokens (blanks +:+ String c s) = Some [].
Proof.
  intros Hb Hc. apply tokens_loop_stops; [done | done |].
  rewrite string_app_length. simpl. lia.
Qed.

Lemma tokens_stop_at_unrecognized_witness :
  Lexer.tokens ("  " +:+ String ">" "= 1 + 2") = Some [].
Proof.
  apply tokens_stop_at_unrecognized; [by repeat split | reflexivity].
Defined.

(** X17.  Words are read whole: a letter followed by letters, digits and
    underscores, up to the end of the input or a character of another sort,
    is one token; it is a keyword only when the whole word is, and a
    variable otherwise. *)
Theorem getToken_longest_word (c : ascii) (w rest : string) :
  Lexer.isalpha c = true → string_forall Lexer.ident_char w →
  stops Lexer.ident_char rest →
  Lexer.getToken (String c w +:+ rest)
  = (Lexer.mkToken (String c w) (Lexer.word_kind (String c w)), rest).
Proof.
  intros Hc Hw Hr. rewrite string_app_cons_l.
  rewrite getToken_word by done. rewrite <- string_app_cons_l.
  rewrite take_while_app; [done | | done].
  split; [by apply isalpha_ident_char | done].
Qed.

Lemma getToken_longest_word_witness :
  Lexer.getToken ("letter" +:+ " <- 1")
  = (Lexer.mkToken "letter" (Lexer.word_kind "letter"), " <- 1").
Proof.
  apply (getToken_longest_word "l" "etter" " <- 1");
    [reflexivity | by repeat split | reflexivity].
Defined.

(** X18.  Numbers are read whole: a maximal run of digits is one [NUM]
    token whose text is the run. *)
Theorem getToken_longest_number (c : ascii) (w rest : string) :
  Lexer.isdigit c = true → string_forall Lexer.isdigit w →
  stops Lexer.isdigit rest →
  Lexer.getToken (String c w +:+ rest)
  = (Lexer.mkToken (String c w) Lexer.NUM, rest).
Proof.
  intros Hc Hw Hr. rewrite string_app_cons_l.
  unfold Lexer.getToken. rewrite Hc. by rewrite take_while_app.
Qed.

Lemma getToken_longest_number_witness :
  Lexer.getToken ("123" +:+ "abc") = (Lexer.mkToken "123" Lexer.NUM, "abc").
Proof.
  apply (getToken_longest_number "1" "23" "abc");
    [reflexivity | by repeat split | reflexivity].
Defined.

Lemma block_comment_closed (body rest : string) :
  no_close body → Lexer.block_comment (body +:+ "*)" +:+ rest) = (body, rest).
Proof.
  induction body as [|c body IH]; intros H.
  - rewrite string_app_nil_l. reflexivity.
  - destruct H as [Hc H]. rewrite string_app_cons_l.
    cbn [Lexer.block_comment]. rewrite (IH H).
    destruct body as [|d body].
    + rewrite string_app_nil_l.
      change ("*)" +:+ rest) with (String "*" (String ")" rest)).
      cbv iota. change ("*" =? ")")%char with false. by rewrite andb_false_r.
    + rewrite string_app_cons_l.
      destruct ((c =? "*")%char && (d =? ")")%char) eqn:E; [|done].
      apply andb_true_iff in E as [E1 E2].
      apply Ascii.eqb_eq in E1, E2. subst. destruct Hc. by destruct body.
Qed.

Lemma block_comment_open (body : string) :
  no_close body → Lexer.block_comment body = (body, "").
Proof.
  induction body as [|c body IH]; intros H; [done|].
  destruct H as [Hc H]. cbn [Lexer.block_comment]. rewrite (IH H).
  destruct body as [|d body]; [done|].
  destruct ((c =? "*")%char && (d =? ")")%char) eqn:E; [|done].
  apply andb_true_iff in E as [E1 E2].
  apply Ascii.eqb_eq in E1, E2. subst. destruct Hc. by destruct body.
Qed.

Lemma getToken_block (s : string) :
  Lexer.getToken ("(*" +:+ s)
  = (let '(t, r) := Lexer.block_comment s in (Lexer.mkToken t Lexer.COM, r)).
Proof. by destruct s. Qed.

Lemma getToken_line (s : string) :
  Lexer.getToken ("--" +:+ s)
  = (let '(t, r) := Lexer.take_while (λ d, negb (d =? Lexer.newline)%char) s in
     (Lexer.mkToken t Lexer.COM, r)).
Proof. by destruct s. Qed.

Lemma string_app_nil_r (s : string) : s +:+ "" = s.
Proof. induction s as [|c s IH]; [done|]. by rewrite string_app_cons_l, IH. Qed.

(** X19.  A comment between parentheses and stars ends at the first star
    followed by a closing parenthesis (comments do not nest), and its text
    is what lies between the delimiters; without a closing delimiter the
    comment takes the rest of the input and no error is raised. *)
Theorem getToken_block_comment (body rest : string) :
  no_close body →
  Lexer.getToken ("(*" +:+ body +:+ "*)" +:+ rest) = (Lexer.mkToken body Lexer.COM, rest)
  ∧ Lexer.getToken ("(*" +:+ body) = (Lexer.mkToken body Lexer.COM, "").
Proof.
  intros H. split.
  - by rewrite getToken_block, block_comment_closed.
  - by rewrite getToken_block, block_comment_open.
Qed.

Lemma getToken_block_comment_witness :
  Lexer.getToken ("(*" +:+ " (* a * " +:+ "*)" +:+ " b *)")
  = (Lexer.mkToken " (* a * " Lexer.COM, " b *)")
  ∧ Lexer.getToken ("(*" +:+ " (* a * ") = (Lexer.mkToken " (* a * " Lexer.COM, "").
Proof.
  apply (getToken_block_comment " (* a * " " b *)").
  simpl. repeat split; discriminate.
Defined.

(** X20.  A comment that begins with two dashes runs to the end of the
    line: its text is what follows the dashes, and the line end itself is
    left in the input; on the last line it runs to the end of the input. *)
Theorem getToken_line_comment (body rest : string) :
  string_forall (λ d, negb (d =? Lexer.newline)%char) body →
  Lexer.getToken ("--" +:+ body +:+ String Lexer.newline rest)
  = (Lexer.mkToken body Lexer.COM, String Lexer.newline rest)
  ∧ Lexer.getToken ("--" +:+ body) = (Lexer.mkToken body Lexer.COM, "").
Proof.
  intros H. split.
  - by rewrite getToken_line, take_while_app.
  - rewrite getToken_line. rewrite <- (string_app_nil_r body) at 1.
    by rewrite take_while_app.
Qed.

Lemma getToken_line_comment_witness :
  Lexer.getToken ("--" +:+ " 3 -- 4" +:+ String Lexer.newline "5")
  = (Lexer.mkToken " 3 -- 4" Lexer.COM, String Lexer.newline "5")
  ∧ Lexer.getToken ("--" +:+ " 3 -- 4") = (Lexer.mkToken " 3 -- 4" Lexer.COM, "").
Proof.
  apply (getToken_line_comment " 3 -- 4" "5"). by repeat split.
Defined.

(** X21.  [next_valid_token] never returns a token: it calls itself after
    every call of [getToken], whatever the token, so that no depth of
    recursion suffices (Python stops it with [RecursionError]). *)
Theorem next_valid_token_never_returns (fuel : nat) (s : string) :
  Lexer.next_valid_token fuel s = None.
Proof.
  revert s. induction fuel as [|fuel IH]; intros s; [done|]. simpl.
  destruct (Lexer.getToken s) as [t s']. apply IH.
Qed.

(** ** CodeGenFunctions.GenVisitor: what the generator does to the program *)
















(** ** The generator after the renamer: single assignment *)

Lemma temporary_inj (n m : nat) : temporary n = temporary m → n = m.
Proof.
  unfold temporary. rewrite !string_app_cons_l, !string_app_nil_l.
  intros [= H]. by apply (inj pretty) in H.
Qed.

Lemma definitions_app (l1 l2 : list Asm.Inst) :
  definitions (l1 ++ l2) = definitions l1 ++ definitions l2.
Proof. apply omap_app. Qed.

Ltac ssa_fold :=
  repeat match goal with
  | |- context ["v" +:+ pretty ?n] => change ("v" +:+ pretty n) with (temporary n)
  | H : context ["v" +:+ pretty ?n] |- _ =>
    change ("v" +:+ pretty n) with (temporary n) in H
  | |- context [String "v" (pretty ?n)] =>
    change (String "v" (pretty n)) with (temporary n)
  | H : context [String "v" (pretty ?n)] |- _ =>
    change (String "v" (pretty n)) with (temporary n) in H
  end.

Ltac ssa_sat :=
  repeat match goal with
  | H : _ ∧ _ |- _ => destruct H
  | H : _ ∨ _ |- _ => destruct H
  | H : False |- _ => destruct H
  | H : ∃ n, _ = temporary n ∧ _ |- _ => destruct H as (? & ? & ?)
  | H : _ ∈ _ ++ _ |- _ => rewrite elem_of_app in H
  | H : _ ∈ _ :: _ |- _ => rewrite elem_of_cons in H
  | H : _ ∈ [] |- _ => by apply elem_of_nil in H
  | Hin : ∀ x, x ∈ definitions ?c → _, H : ?x ∈ definitions ?c |- _ =>
    apply Hin in H
  end.

Lemma RA_gen_definitions (e : Expression) :
  ∀ (g g' : RegAlloc.GenVisitor) (prog0 prog' : Asm.Program)
    (l : list Asm.Inst) (v : string),
    RegAlloc.gen e g (Asm.set_insts prog0 l) = Ok (v, g', prog') →
    ∃ code,
      prog' = Asm.set_insts prog0 (l ++ code)
      ∧ (RegAlloc.next_var_counter g ≤ RegAlloc.next_var_counter g')%nat
      ∧ (∀ x, x ∈ definitions code →
              x ∈ let_names e
              ∨ ∃ n, x = temporary n
                     ∧ (RegAlloc.next_var_counter g < n
                        ≤ RegAlloc.next_var_counter g')%nat)
      ∧ (NoDup (let_names e) →
         (∀ x n, x ∈ let_names e → x ≠ temporary n) →
         NoDup (definitions code)).
Proof.
  induction e; intros g g' prog0 prog' l v H; simpl in H;
    try destruct kind; simpl in H; try discriminate H;
    unfold RegAlloc.visit_binary, RegAlloc.visit_unary, RegAlloc.next_var_name in H;
    simpl in H;
    repeat match goal with
    | H : _ ≫= _ = Ok _ |- _ => apply bind_Ok in H as ([[??]?] & ? & H)
    | IH : ∀ g g' prog0 prog' l v, RegAlloc.gen ?e _ _ = _ → _,
      H : RegAlloc.gen ?e _ (Asm.set_insts _ _) = Ok _ |- _ =>
      apply IH in H as (? & -> & ? & ? & ?); clear IH
    | H : context [Asm.add_inst (Asm.set_insts _ _) _] |- _ =>
      rewrite add_inst_set_insts in H
    end;
    simplify_eq; rewrite ?add_inst_set_insts, <- ?app_assoc; simpl;
    cbn [RegAlloc.next_var_counter] in *; ssa_fold.
  1: { exists []. rewrite app_nil_r. split; [done|]; split; [lia|]; split;
       [intros y Hy; by apply elem_of_nil in Hy | intros; constructor]. }
  all: eexists; (split; [reflexivity|]); split; [lia|].
  all: split;
    [ intros y Hy;
      repeat first [rewrite definitions_app in Hy | progress simpl in Hy];
      ssa_fold; ssa_sat; subst;
      repeat first [rewrite elem_of_app | rewrite elem_of_cons];
      solve [ auto 6 | right; eexists; split; [reflexivity | lia] ]
    | ].
  all: intros Hnd Hnt; repeat first [rewrite definitions_app | progress simpl]; ssa_fold.
  all: repeat first [ rewrite NoDup_app in Hnd | rewrite NoDup_cons in Hnd ].
  all: repeat first [ rewrite NoDup_app | rewrite NoDup_cons ].
  all: repeat match goal with
       | |- _ ∧ _ => split
       | |- NoDup [] => constructor
       | |- ∀ _, _ => intros ?
       | |- _ ∉ _ => intros ?
       end.
  all: try match goal with
       | H : NoDup (let_names ?e) → _ → NoDup (definitions ?c)
         |- NoDup (definitions ?c) =>
         apply H; [tauto | intros ? ? ?; apply Hnt; set_solver]
       end.
  all: ssa_sat; subst;
       repeat match goal with
       | H : temporary _ = temporary _ |- _ => apply temporary_inj in H
       end; try lia.
  all: try (by eauto).
  all: try match goal with
       | D : ∀ x, x ∈ ?a → x ∉ ?b, H : ?y ∈ ?a, H' : ?y ∈ ?b |- _ =>
         exact (D y H H')
       end.
  all: try (by eapply Hnt; [|reflexivity]; rewrite ?elem_of_cons, ?elem_of_app; eauto).
  all: match goal with D : _ ∉ _ ++ _ |- _ => apply D, elem_of_app; auto end.
Qed.

Lemma renamed_not_temporary (x : string) (i : N) (n : nat) :
  RegAlloc.fresh_name x i ≠ temporary n.
Proof.
  unfold RegAlloc.fresh_name, temporary. intros H.
  assert (Ho : occurs "_" ("v" +:+ pretty n)).
  { rewrite <- H. apply occurs_app. right. simpl. by left. }
  apply occurs_app in Ho as [Ho|Ho].
  - simpl in Ho. destruct Ho as [Ho|[]]. discriminate Ho.
  - by apply pretty_nat_no_underscore in Ho.
Qed.

(** X23.  After [rename_variables] the generator emits code in single
    assignment form: when the [Let] objects of the expression are distinct
    objects (their identities differ), no two instructions that the
    generator appends define the same variable, whatever the counter of the
    generator and the program it appends to. *)
Theorem generated_code_single_assignment (ids : path → N) (e e' : Expression)
    (g g' : RegAlloc.GenVisitor) (prog prog' : Asm.Program) (v : string) :
  Inj (=) (=) ids →
  RegAlloc.rename_variables ids e = Ok e' →
  RegAlloc.gen e' g prog = Ok (v, g', prog') →
  ∃ code,
    prog' = Asm.set_insts prog (Asm.get_insts prog ++ code)
    ∧ NoDup (definitions code).
Proof.
  intros Hinj Hr Hg.
  pose proof (RA_rename_names _ _ _ _ Hr) as Hn.
  rewrite <- (set_insts_insts prog) in Hg at 1.
  apply RA_gen_definitions in Hg as (code & -> & _ & _ & Hnd).
  exists code. split; [done|]. apply Hnd.
  - eapply Forall2_NoDup; [|exact Hn|by apply let_ids_NoDup].
    intros n i i' [x ->] [x' Heq]. by apply fresh_name_N_inj in Heq as [_ ->].
  - intros x n Hx ->.
    apply list_elem_of_lookup in Hx as [k Hk].
    destruct (Forall2_lookup_l _ _ _ _ _ Hn Hk) as (i & _ & y & Hy).
    symmetry in Hy. by apply renamed_not_temporary in Hy.
Qed.

Lemma generated_code_single_assignment_witness :
  NoDup (definitions
    [Asm.Addi "v1" "x0" 1; Asm.Add "x_6" "x0" "v1";
     Asm.Add "v3" "x_6" "x_6"; Asm.Add "v2" "x0" "v3";
     Asm.Add "x_1" "x0" "v2"; Asm.Mul "v5" "x_1" "x_1";
     Asm.Add "v4" "x0" "v5"]).
Proof.
  assert (Hinj : Inj (=) (=) (λ p : path, Npos (encode p))).
  { intros p q H. injection H as H. by apply (inj encode) in H. }
  destruct (generated_code_single_assignment (λ p, Npos (encode p))
              (Let "x" (Let "x" (Num 1) (Add (Var "x") (Var "x")))
                 (Mul (Var "x") (Var "x")))
              (Let "x_1" (Let "x_6" (Num 1) (Add (Var "x_6") (Var "x_6")))
                 (Mul (Var "x_1") (Var "x_1")))
              {| RegAlloc.next_var_counter := 0 |}
              {| RegAlloc.next_var_counter := 5 |}
              (Asm.new_Program 1000 ∅ [])
              (Asm.set_insts (Asm.new_Program 1000 ∅ [])
                 [Asm.Addi "v1" "x0" 1; Asm.Add "x_6" "x0" "v1";
                  Asm.Add "v3" "x_6" "x_6"; Asm.Add "v2" "x0" "v3";
                  Asm.Add "x_1" "x0" "v2"; Asm.Mul "v5" "x_1" "x_1";
                  Asm.Add "v4" "x0" "v5"])
              "v4" Hinj)
    as (code & E & H).
  - vm_compute. reflexivity.
  - vm_compute. reflexivity.
  - apply (f_equal Asm.insts) in E. simpl in E. by rewrite E.
Defined.
